(** * Search core of PerfectInformationGame: MiniMax and MCTS nodes

    A shallow embedding of [src/move_selection/mini_max.py] and of the node
    classes of [src/move_selection/mcts.py] ([AbstractNode], [RolloutNode],
    [HeuristicNode]), with the properties of the search core stated and
    proved over them.

    Conventions of the embedding:
    - Python numbers (ints, floats, [np.inf]) are the type [num]: exact
      rationals extended with the two infinities and NaN.  Rounding is not
      modelled.
    - Python exceptions are the [Raise] results of the [result] monad.
      Recursive methods receive a [fuel] argument; running out of it is the
      result [Raise OutOfFuel], which no Python run produces.
    - Node objects live in a [store] (an arena indexed by handles); object
      references are handles, so that sharing and in-place updates are what
      they are in Python. *)

From Stdlib Require Import QArith Qcanon ZArith Lia Lqa String.
From stdpp Require Import base numbers list option strings.

Open Scope Z_scope.

(** ** Results and exceptions *)

Inductive exn : Type :=
| OutOfFuel                      (* model only: recursion budget exhausted *)
| Dangling                       (* model only: a handle outside the store *)
| Exception (msg : string)       (* [raise Exception(msg)] *)
| TypeError                      (* iterating or indexing [None] *)
| ValueError                     (* [max] or [min] of an empty sequence *)
| IndexError                     (* list index out of range *)
| AttributeError                 (* a field of the other node class *)
| ZeroDivisionError.             (* [x / 0] *)

Inductive result (A : Type) : Type :=
| Ok (a : A)
| Raise (e : exn).
Arguments Ok {A} a.
Arguments Raise {A} e.

#[global] Instance result_ret : MRet result := fun A a => Ok a.
#[global] Instance result_bind : MBind result := fun A B f m =>
  match m with
  | Ok a => f a
  | Raise e => Raise e
  end.

Definition returns {A} (r : result A) : Prop := ∃ a, r = Ok a.

(** ** Numbers *)

Inductive num : Type :=
| Fin (q : Qc)
| PInf
| NInf
| NaN.

Definition of_Z (z : Z) : num := Fin (Qc_of_Z z).
Arguments of_Z : simpl never.

Definition is_nan (a : num) : bool :=
  match a with NaN => true | _ => false end.

(** [np.isinf] *)
Definition isinf (a : num) : bool :=
  match a with PInf | NInf => true | _ => false end.

(** [a < b]; every comparison with NaN is false. *)
Definition num_ltb (a b : num) : bool :=
  match a, b with
  | Fin x, Fin y => bool_decide (x < y)%Qc
  | Fin _, PInf => true
  | NInf, Fin _ => true
  | NInf, PInf => true
  | _, _ => false
  end.

(** [a > b] *)
Definition num_gtb (a b : num) : bool := num_ltb b a.

(** [a == b] *)
Definition num_eqb (a b : num) : bool :=
  match a, b with
  | Fin x, Fin y => bool_decide (x = y)
  | PInf, PInf => true
  | NInf, NInf => true
  | _, _ => false
  end.

Definition num_opp (a : num) : num :=
  match a with
  | Fin x => Fin (- x)%Qc
  | PInf => NInf
  | NInf => PInf
  | NaN => NaN
  end.

Definition num_add (a b : num) : num :=
  match a, b with
  | NaN, _ | _, NaN => NaN
  | Fin x, Fin y => Fin (x + y)%Qc
  | PInf, NInf | NInf, PInf => NaN
  | PInf, _ | _, PInf => PInf
  | NInf, _ | _, NInf => NInf
  end.

Definition num_sub (a b : num) : num := num_add a (num_opp b).

Definition num_mul (a b : num) : num :=
  match a, b with
  | NaN, _ | _, NaN => NaN
  | Fin x, Fin y => Fin (x * y)%Qc
  | Fin x, PInf | PInf, Fin x =>
      if bool_decide (0 < x)%Qc then PInf
      else if bool_decide (x < 0)%Qc then NInf else NaN
  | Fin x, NInf | NInf, Fin x =>
      if bool_decide (0 < x)%Qc then NInf
      else if bool_decide (x < 0)%Qc then PInf else NaN
  | PInf, PInf | NInf, NInf => PInf
  | PInf, NInf | NInf, PInf => NaN
  end.

(** Division of numpy arrays: no exception, [x / 0] is an infinity or NaN. *)
Definition np_div (a b : num) : num :=
  match a, b with
  | NaN, _ | _, NaN => NaN
  | Fin x, Fin y =>
      if bool_decide (y = 0)%Qc then
        (if bool_decide (0 < x)%Qc then PInf
         else if bool_decide (x < 0)%Qc then NInf else NaN)
      else Fin (x / y)%Qc
  | Fin _, (PInf | NInf) => Fin 0%Qc
  | PInf, Fin y => if bool_decide (y < 0)%Qc then NInf else PInf
  | NInf, Fin y => if bool_decide (y < 0)%Qc then PInf else NInf
  | (PInf | NInf), (PInf | NInf) => NaN
  end.

(** Division of Python scalars: a zero divisor raises. *)
Definition py_div (a b : num) : result num :=
  if num_eqb b (of_Z 0) then Raise ZeroDivisionError else Ok (np_div a b).

(** [sum(l)] *)
Definition num_sum (l : list num) : num := foldl num_add (of_Z 0) l.

(** [max(l)] and [min(l)]: the first extremal element; an empty argument
    raises. *)
Definition num_max (l : list num) : result num :=
  match l with
  | [] => Raise ValueError
  | x :: l' => Ok (foldl (fun m y => if num_gtb y m then y else m) x l')
  end.

Definition num_min (l : list num) : result num :=
  match l with
  | [] => Raise ValueError
  | x :: l' => Ok (foldl (fun m y => if num_ltb y m then y else m) x l')
  end.

(** The operations on numbers are not unfolded by [simpl]. *)
Arguments num_ltb : simpl never.
Arguments num_gtb : simpl never.
Arguments num_eqb : simpl never.
Arguments num_opp : simpl never.
Arguments num_add : simpl never.
Arguments num_sub : simpl never.
Arguments num_mul : simpl never.
Arguments np_div : simpl never.
Arguments py_div : simpl never.
Arguments num_sum : simpl never.
Arguments num_max : simpl never.
Arguments num_min : simpl never.

(** [[f(x) for x in l]] where [f] may raise. *)
Fixpoint mapR {A B} (f : A → result B) (l : list A) : result (list B) :=
  match l with
  | [] => Ok []
  | x :: l' => y ← f x; ys ← mapR f l'; Ok (y :: ys)
  end.

(** ** The game contract

    [GameClass] of the source: static methods over positions.  The games
    themselves are not part of the search core. *)

Class Game (position : Type) : Type := {
  is_over : position → bool;
  get_winner : position → num;
  is_player_1_turn : position → bool;
  get_possible_moves : position → list position
}.

(** ** MiniMax with pruning ([mini_max.py]) *)

Section MiniMax.
Context {position : Type} `{Game position}.

(** [self.heuristic_func] *)
Variable heuristic_func : position → num.

(** The initial [best_heuristic] of a loop over moves. *)
Definition worst (is_maximizing : bool) : num :=
  if is_maximizing then NInf else PInf.

(** The loop of [evaluate_position_recursive] over the child positions;
    [ev child best_heuristic] is the recursive call. *)
Fixpoint scan_children (ev : position → num → result num)
    (is_maximizing : bool) (value_to_beat : num)
    (moves : list position) (best_heuristic : num) : result num :=
  match moves with
  | [] => Ok best_heuristic
  | child_position :: rest =>
      heuristic ← ev child_position best_heuristic;
      if is_maximizing && num_gtb heuristic best_heuristic then
        if num_gtb heuristic value_to_beat then Ok heuristic (* prune *)
        else scan_children ev is_maximizing value_to_beat rest heuristic
      else if negb is_maximizing && num_ltb heuristic best_heuristic then
        if num_ltb heuristic value_to_beat then Ok heuristic (* prune *)
        else scan_children ev is_maximizing value_to_beat rest heuristic
      else scan_children ev is_maximizing value_to_beat rest best_heuristic
  end.

Fixpoint evaluate_position_recursive (fuel : nat) (p : position)
    (depth : num) (is_maximizing : bool) (value_to_beat : num)
    : result num :=
  match fuel with
  | O => Raise OutOfFuel
  | S fuel' =>
      if is_over p then Ok (get_winner p)
      else if num_eqb depth (of_Z 0) then Ok (heuristic_func p)
      else
        scan_children
          (λ child best, evaluate_position_recursive fuel' child
                           (num_sub depth (of_Z 1)) (negb is_maximizing) best)
          is_maximizing value_to_beat
          (get_possible_moves p) (worst is_maximizing)
  end.

(** The loop of [choose_move] over the moves. *)
Fixpoint choose_loop (ev : position → num → result num)
    (is_maximizing : bool) (moves : list position)
    (best_move : option position) (best_heuristic : num)
    : result (option position * num) :=
  match moves with
  | [] => Ok (best_move, best_heuristic)
  | move :: rest =>
      heuristic ← ev move best_heuristic;
      if (is_maximizing && num_gtb heuristic best_heuristic)
         || (negb is_maximizing && num_ltb heuristic best_heuristic)
      then choose_loop ev is_maximizing rest (Some move) heuristic
      else choose_loop ev is_maximizing rest best_move best_heuristic
  end.

(** [choose_move(position, return_heuristic=True)]; without
    [return_heuristic] the method returns the first component. *)
Definition choose_move (fuel : nat) (depth : num) (p : position)
    : result (option position * num) :=
  if is_over p then Raise (Exception "Game Finished!")
  else
    let is_maximizing := is_player_1_turn p in
    choose_loop
      (λ move best, evaluate_position_recursive fuel move
                      (num_sub depth (of_Z 1)) (negb is_maximizing) best)
      is_maximizing (get_possible_moves p) None (worst is_maximizing).

(** *** The search without pruning

    The reference of the alpha-beta equivalence: the same depth, the same
    heuristic and the same alternation of the mover, but every child of
    every position is evaluated and the value of a position is the maximum
    (minimum) of the values of its children. *)

(** [a] is strictly better than [b] for the mover. *)
Definition beats (is_maximizing : bool) (a b : num) : bool :=
  if is_maximizing then num_gtb a b else num_ltb a b.

Definition best_of (is_maximizing : bool) (best : num) (values : list num)
    : num :=
  foldl (λ b v, if beats is_maximizing v b then v else b) best values.

Fixpoint unpruned_evaluate (fuel : nat) (p : position) (depth : num)
    (is_maximizing : bool) : result num :=
  match fuel with
  | O => Raise OutOfFuel
  | S fuel' =>
      if is_over p then Ok (get_winner p)
      else if num_eqb depth (of_Z 0) then Ok (heuristic_func p)
      else
        values ← mapR (λ child, unpruned_evaluate fuel' child
                                   (num_sub depth (of_Z 1))
                                   (negb is_maximizing))
                      (get_possible_moves p);
        Ok (best_of is_maximizing (worst is_maximizing) values)
  end.

(** The first move whose value is strictly better than all earlier ones. *)
Definition best_move_of (is_maximizing : bool)
    (start : option position * num) (valued : list (position * num))
    : option position * num :=
  foldl (λ b mv, if beats is_maximizing mv.2 b.2 then (Some mv.1, mv.2) else b)
        start valued.

Definition unpruned_choose_move (fuel : nat) (depth : num) (p : position)
    : result (option position * num) :=
  if is_over p then Raise (Exception "Game Finished!")
  else
    let is_maximizing := is_player_1_turn p in
    values ← mapR (λ move, unpruned_evaluate fuel move
                              (num_sub depth (of_Z 1)) (negb is_maximizing))
                  (get_possible_moves p);
    Ok (best_move_of is_maximizing (None, worst is_maximizing)
          (zip (get_possible_moves p) values)).

(** [r] may stand for the exact value [v] at a position searched with the
    bound [bound]: when [v] is strictly better for the mover than the bound,
    so is [r]; otherwise [r] is [v] itself. *)
Definition within (is_maximizing : bool) (bound v r : num) : Prop :=
  (beats is_maximizing v bound = true → beats is_maximizing r bound = true)
  ∧ (beats is_maximizing v bound = false → r = v).

End MiniMax.

(** ** Search nodes ([mcts.py])

    [AbstractNode] with its two subclasses as a tagged variant: the fields of
    the base class are the fields of [node], the statistics of the subclass
    are its [stats].  A method of a subclass that reads a field of the other
    subclass raises [AttributeError]. *)

Inductive stats : Type :=
| RolloutStats (rollout_sum rollout_count : num)
| HeuristicStats (heuristic : num) (policy : option (list num))
    (expansions : num).

Record node {position : Type} : Type := Node {
  position_of : position;          (* [self.position] *)
  parent : option nat;             (* [self.parent] *)
  children : option (list nat);    (* [self.children] *)
  fully_expanded : bool;
  is_maximizing : bool;
  node_stats : stats
}.
Arguments node : clear implicits.
Arguments Node {position}.

Section Nodes.
Context {position : Type} `{Game position}.

(** [self.c * np.sqrt(np.log(N) / n)]: the real-valued part of the selection
    score, left abstract. *)
Variable exploration : num → num → num.
(** [self.d] *)
Variable d : num.
(** [network.call] on a batch of positions: one (policy, value) pair for
    each. *)
Variable network_call : list position → list (list num * num).
(** [self.rollout_batch_size] *)
Variable rollout_batch_size : num.
(** [np.exp] *)
Variable np_exp : num → num.

(** The store: node objects by handle. *)
Local Abbreviation store := (list (node position)).

Definition set_children (cs : option (list nat)) (nd : node position)
    : node position :=
  Node (position_of nd) (parent nd) cs (fully_expanded nd)
       (is_maximizing nd) (node_stats nd).

Definition set_stats (st : stats) (nd : node position) : node position :=
  Node (position_of nd) (parent nd) (children nd) (fully_expanded nd)
       (is_maximizing nd) st.

Definition set_parent (p : option nat) (nd : node position) : node position :=
  Node (position_of nd) p (children nd) (fully_expanded nd)
       (is_maximizing nd) (node_stats nd).

(** Dereference a handle. *)
Definition get (s : store) (k : nat) : result (node position) :=
  match s !! k with
  | Some nd => Ok nd
  | None => Raise Dangling
  end.

(** [l[i]] *)
Definition index {A} (l : list A) (i : nat) : result A :=
  match l !! i with
  | Some x => Ok x
  | None => Raise IndexError
  end.

(** Use of a value that may be [None] as a sequence. *)
Definition not_none {A} (o : option A) : result A :=
  match o with
  | Some x => Ok x
  | None => Raise TypeError
  end.

(** *** Constructors *)

(** [RolloutNode(position, parent, ...)] *)
Definition RolloutNode (p : position) (par : option nat) : node position :=
  let over := is_over p in
  Node p par None over (is_player_1_turn p)
       (if over then RolloutStats (get_winner p) PInf
        else RolloutStats (of_Z 0) (of_Z 0)).

(** [HeuristicNode(position, parent, ..., network_call_results=r)] *)
Definition HeuristicNode (p : position) (par : option nat)
    (network_call_results : list num * num) : node position :=
  let over := is_over p in
  Node p par None over (is_player_1_turn p)
       (if over then HeuristicStats (get_winner p) None PInf
        else HeuristicStats network_call_results.2
               (Some network_call_results.1) (of_Z 0)).

(** [HeuristicNode(position, None, ...)] without [network_call_results]: the
    network is called on the position alone, unless it is terminal. *)
Definition HeuristicRoot (p : position) : result (node position) :=
  if is_over p then Ok (HeuristicNode p None ([], of_Z 0))
  else r ← index (network_call [p]) 0; Ok (HeuristicNode p None r).

(** *** Methods of both subclasses *)

Definition count_expansions (nd : node position) : num :=
  match node_stats nd with
  | RolloutStats _ rollout_count => rollout_count
  | HeuristicStats _ _ expansions => expansions
  end.

Definition get_evaluation (nd : node position) : result num :=
  match node_stats nd with
  | RolloutStats rollout_sum rollout_count =>
      if negb (fully_expanded nd) then py_div rollout_sum rollout_count
      else Ok rollout_sum
  | HeuristicStats heuristic _ _ => Ok heuristic
  end.

Definition set_fully_expanded (minimax_evaluation : num) (nd : node position)
    : node position :=
  Node (position_of nd) (parent nd) (children nd) true (is_maximizing nd)
       (match node_stats nd with
        | RolloutStats _ _ => RolloutStats minimax_evaluation PInf
        | HeuristicStats _ policy _ =>
            HeuristicStats minimax_evaluation policy PInf
        end).

(** [ensure_children(moves, network_call_results)]; [RolloutNode] takes no
    arguments and ignores them here.  The new children are allocated at the
    end of the store. *)
Definition ensure_children (s : store) (k : nat)
    (moves : option (list position))
    (network_call_results : option (list (list num * num))) : result store :=
  self ← get s k;
  match children self with
  | Some _ => Ok s
  | None =>
      match node_stats self with
      | RolloutStats _ _ =>
          let new := (λ move, RolloutNode move (Some k))
                       <$> get_possible_moves (position_of self) in
          Ok (<[k := set_children (Some (seq (length s) (length new))) self]>
                (s ++ new))
      | HeuristicStats heuristic policy _ =>
          let moves := default (get_possible_moves (position_of self)) moves in
          results ← match network_call_results with
                    | Some results => Ok results
                    | None =>
                        (* [np.stack] of no positions raises *)
                        if bool_decide (moves = []) then Raise ValueError
                        else Ok (network_call moves)
                    end;
          let new := (λ mr, HeuristicNode mr.1 (Some k) mr.2)
                       <$> zip moves results in
          Ok (<[k := set_stats (HeuristicStats heuristic policy (of_Z 1))
                       (set_children (Some (seq (length s) (length new)))
                          self)]>
                (s ++ new))
      end
  end.

Definition get_puct_heuristic_for_child (s : store) (self : node position)
    (i : nat) : result num :=
  cs ← not_none (children self);
  c ← index cs i;
  child ← get s c;
  match node_stats self with
  | RolloutStats _ rollout_count =>
      match node_stats child with
      | RolloutStats _ child_count =>
          Ok (if num_gtb child_count (of_Z 0)
              then exploration rollout_count child_count else PInf)
      | HeuristicStats _ _ _ => Raise AttributeError
      end
  | HeuristicStats _ policy expansions =>
      match node_stats child with
      | HeuristicStats _ _ child_expansions =>
          let exploration_term :=
            exploration expansions (num_add child_expansions (of_Z 1)) in
          pol ← not_none policy;
          prior ← index pol i;
          Ok (num_add exploration_term (num_mul d prior))
      | RolloutStats _ _ => Raise AttributeError
      end
  end.

(** *** [choose_expansion_node] *)

Definition optimal_value (nd : node position) : num :=
  if is_maximizing nd then of_Z 1 else of_Z (-1).

(** How the loop over the children ends. *)
Inductive scan_result : Type :=
| Closed                           (* a solved child has the optimal value *)
| Unvisited (child : nat)          (* a child with an infinite score *)
| Scanned (best_child : option nat).

(** The loop of [choose_expansion_node] over [enumerate(self.children)], from
    index [i] on. *)
Fixpoint scan_expansion (s : store) (self : node position) (i : nat)
    (cs : list nat) (best_heuristic : num) (best_child : option nat)
    : result scan_result :=
  match cs with
  | [] => Ok (Scanned best_child)
  | c :: rest =>
      child ← get s c;
      if fully_expanded child then
        evaluation ← get_evaluation child;
        if num_eqb evaluation (optimal_value self) then Ok Closed
        else scan_expansion s self (S i) rest best_heuristic best_child
      else
        puct_heuristic ← get_puct_heuristic_for_child s self i;
        if isinf puct_heuristic then Ok (Unvisited c)
        else
          evaluation ← get_evaluation child;
          if is_maximizing self then
            let combined_heuristic := num_add evaluation puct_heuristic in
            if num_gtb combined_heuristic best_heuristic
            then scan_expansion s self (S i) rest combined_heuristic (Some c)
            else scan_expansion s self (S i) rest best_heuristic best_child
          else
            let combined_heuristic := num_sub evaluation puct_heuristic in
            if num_ltb combined_heuristic best_heuristic
            then scan_expansion s self (S i) rest combined_heuristic (Some c)
            else scan_expansion s self (S i) rest best_heuristic best_child
  end.

(** [max([child.get_evaluation() for child in self.children])] or [min]. *)
Definition minimax_of_children (s : store) (self : node position)
    (cs : list nat) : result num :=
  evaluations ← mapR (λ c, child ← get s c; get_evaluation child) cs;
  if is_maximizing self then num_max evaluations else num_min evaluations.

Fixpoint choose_expansion_node (fuel : nat) (s : store) (k : nat)
    : result (store * option nat) :=
  match fuel with
  | O => Raise OutOfFuel
  | S fuel' =>
      self ← get s k;
      if fully_expanded self then Ok (s, None)
      else if num_eqb (count_expansions self) (of_Z 0) then Ok (s, Some k)
      else
        s ← ensure_children s k None None;
        self ← get s k;
        cs ← not_none (children self);
        scanned ← scan_expansion s self 0 cs (worst (is_maximizing self)) None;
        match scanned with
        | Closed =>
            let s := <[k := set_fully_expanded (optimal_value self) self]> s in
            match parent self with
            | Some p => choose_expansion_node fuel' s p
            | None => Ok (s, None)
            end
        | Unvisited child => Ok (s, Some child)
        | Scanned None =>
            minimax_evaluation ← minimax_of_children s self cs;
            let s := <[k := set_fully_expanded minimax_evaluation self]> s in
            match parent self with
            | Some p => choose_expansion_node fuel' s p
            | None => Ok (s, None)
            end
        | Scanned (Some best_child) => choose_expansion_node fuel' s best_child
        end
  end.

(** *** Fields of the subclasses *)

Definition rollout_sum_of (nd : node position) : result num :=
  match node_stats nd with
  | RolloutStats rollout_sum _ => Ok rollout_sum
  | HeuristicStats _ _ _ => Raise AttributeError
  end.

Definition rollout_count_of (nd : node position) : result num :=
  match node_stats nd with
  | RolloutStats _ rollout_count => Ok rollout_count
  | HeuristicStats _ _ _ => Raise AttributeError
  end.

Definition heuristic_of (nd : node position) : result num :=
  match node_stats nd with
  | HeuristicStats heuristic _ _ => Ok heuristic
  | RolloutStats _ _ => Raise AttributeError
  end.

Definition expansions_of (nd : node position) : result num :=
  match node_stats nd with
  | HeuristicStats _ _ expansions => Ok expansions
  | RolloutStats _ _ => Raise AttributeError
  end.

(** *** [RolloutNode.expand]

    The random playouts are not modelled: [rollouts] are the outcomes of the
    batch, whatever they are. *)

(** [while node is not None: ...] *)
Fixpoint rollout_backup (fuel : nat) (s : store) (node : option nat)
    (rollout_sum : num) : result store :=
  match node with
  | None => Ok s
  | Some n =>
      match fuel with
      | O => Raise OutOfFuel
      | S fuel' =>
          nd ← get s n;
          match node_stats nd with
          | RolloutStats node_sum node_count =>
              rollout_backup fuel'
                (<[n := set_stats
                          (RolloutStats (num_add node_sum rollout_sum)
                             (num_add node_count rollout_batch_size)) nd]> s)
                (parent nd) rollout_sum
          | HeuristicStats _ _ _ => Raise AttributeError
          end
      end
  end.

Definition RolloutNode_expand (fuel : nat) (s : store) (k : nat)
    (rollouts : list num) : result store :=
  rollout_backup fuel s (Some k) (num_sum rollouts).

(** *** [HeuristicNode.expand] *)

(** The first loop over the parents: the value climbs while it beats the
    parent's; the result is the store and the node the loop stopped at. *)
Fixpoint heuristic_backup (fuel : nat) (s : store) (node : option nat)
    (critical_value : num) : result (store * option nat) :=
  match node with
  | None => Ok (s, None)
  | Some n =>
      match fuel with
      | O => Raise OutOfFuel
      | S fuel' =>
          nd ← get s n;
          match node_stats nd with
          | HeuristicStats heuristic policy expansions =>
              if (is_maximizing nd && num_gtb critical_value heuristic)
                 || (negb (is_maximizing nd)
                     && num_ltb critical_value heuristic)
              then
                heuristic_backup fuel'
                  (<[n := set_stats
                            (HeuristicStats critical_value policy
                               (num_add expansions (of_Z 1))) nd]> s)
                  (parent nd) critical_value
              else
                Ok (<[n := set_stats
                             (HeuristicStats heuristic policy
                                (num_add expansions (of_Z 1))) nd]> s,
                    parent nd)
          | RolloutStats _ _ => Raise AttributeError
          end
      end
  end.

(** The second loop: only the expansion counts climb. *)
Fixpoint expansions_backup (fuel : nat) (s : store) (node : option nat)
    : result store :=
  match node with
  | None => Ok s
  | Some n =>
      match fuel with
      | O => Raise OutOfFuel
      | S fuel' =>
          nd ← get s n;
          match node_stats nd with
          | HeuristicStats heuristic policy expansions =>
              expansions_backup fuel'
                (<[n := set_stats
                          (HeuristicStats heuristic policy
                             (num_add expansions (of_Z 1))) nd]> s)
                (parent nd)
          | RolloutStats _ _ => Raise AttributeError
          end
      end
  end.

(** [max([child.heuristic for child in self.children])] or [min]. *)
Definition critical_value_of (s : store) (self : node position)
    (cs : list nat) : result num :=
  heuristics ← mapR (λ c, child ← get s c; heuristic_of child) cs;
  if is_maximizing self then num_max heuristics else num_min heuristics.

Definition HeuristicNode_expand (fuel : nat) (s : store) (k : nat)
    (moves : option (list position))
    (network_call_results : option (list (list num * num))) : result store :=
  self ← get s k;
  if bool_decide (children self ≠ None)
  then Raise (Exception "Node already has children!")
  else if fully_expanded self then Raise (Exception "Node is terminal!")
  else
    s ← ensure_children s k moves network_call_results;
    self ← get s k;
    match children self with
    | None => Raise (Exception "Failed to create children!")
    | Some cs =>
        critical_value ← critical_value_of s self cs;
        match node_stats self with
        | HeuristicStats _ policy expansions =>
            let s := <[k := set_stats
                               (HeuristicStats critical_value policy expansions)
                               self]> s in
            '(s, node) ← heuristic_backup fuel s (parent self) critical_value;
            expansions_backup fuel s node
        | RolloutStats _ _ => Raise AttributeError
        end
    end.

(** *** [merge] *)

(** [[field(clone) - self_field for clone in clones
       if clone.rollout_count > self_count]] *)
Fixpoint excesses (s : store) (field : node position → result num)
    (self_field self_count : num) (clones : list nat) : result (list num) :=
  match clones with
  | [] => Ok []
  | c :: rest =>
      clone ← get s c;
      count ← rollout_count_of clone;
      if num_gtb count self_count then
        x ← field clone;
        tl ← excesses s field self_field self_count rest;
        Ok (num_sub x self_field :: tl)
      else excesses s field self_field self_count rest
  end.

(** The children of the first clone that has children, and the clones after
    it. *)
Fixpoint first_with_children (s : store) (clones : list nat)
    : result (option (list nat * list nat)) :=
  match clones with
  | [] => Ok None
  | c :: rest =>
      clone ← get s c;
      match children clone with
      | Some cs => Ok (Some (cs, rest))
      | None => first_with_children s rest
      end
  end.

(** [[clone.children[i] for clone in clones if clone.children is not None]] *)
Fixpoint children_at (s : store) (i : nat) (clones : list nat)
    : result (list nat) :=
  match clones with
  | [] => Ok []
  | c :: rest =>
      clone ← get s c;
      match children clone with
      | None => children_at s i rest
      | Some cs =>
          x ← index cs i;
          tl ← children_at s i rest;
          Ok (x :: tl)
      end
  end.

(** [for i, child in enumerate(self.children): child.merge(...)], from index
    [i] on; [merge] is the method of the child. *)
Fixpoint merge_loop (merge : store → nat → list nat → result store)
    (s : store) (i : nat) (cs : list nat) (clones : list nat) : result store :=
  match cs with
  | [] => Ok s
  | child :: rest =>
      child_clones ← children_at s i clones;
      s ← merge s child child_clones;
      merge_loop merge s (S i) rest clones
  end.

Definition merge_children_clones
    (merge : store → nat → list nat → result store)
    (s : store) (k : nat) (clones : list nat) : result store :=
  self ← get s k;
  match children self with
  | None =>
      found ← first_with_children s clones;
      match found with
      | None => Ok s
      | Some (cs, rest) =>
          merge_loop merge (<[k := set_children (Some cs) self]> s) 0 cs rest
      end
  | Some cs => merge_loop merge s 0 cs clones
  end.

(** [RolloutNode.merge] and [HeuristicNode.merge], by the class of [self]. *)
Fixpoint merge (fuel : nat) (s : store) (k : nat) (clones : list nat)
    : result store :=
  match fuel with
  | O => Raise OutOfFuel
  | S fuel' =>
      self ← get s k;
      match node_stats self with
      | RolloutStats rollout_sum rollout_count =>
          counts ← excesses s rollout_count_of rollout_count rollout_count
                     clones;
          let rollout_count := num_add rollout_count (num_sum counts) in
          let self := set_stats (RolloutStats rollout_sum rollout_count) self in
          let s := <[k := self]> s in
          sums ← excesses s rollout_sum_of rollout_sum rollout_count clones;
          let rollout_sum := num_add rollout_sum (num_sum sums) in
          let self := set_stats (RolloutStats rollout_sum rollout_count) self in
          let s := <[k := self]> s in
          merge_children_clones (merge fuel') s k clones
      | HeuristicStats _ _ _ =>
          s ← merge_children_clones (merge fuel') s k clones;
          self ← get s k;
          cs ← not_none (children self);
          heuristic ← critical_value_of s self cs;
          expansions ← mapR (λ c, child ← get s c; expansions_of child) cs;
          match node_stats self with
          | HeuristicStats _ policy _ =>
              Ok (<[k := set_stats
                           (HeuristicStats heuristic policy
                              (num_add (of_Z 1) (num_sum expansions)))
                           self]> s)
          | RolloutStats _ _ => Raise AttributeError
          end
      end
  end.

(** *** [choose_best_node] *)

(** The generator of [depth_to_end_game]: the depths of the solved children
    with the value of [self]. *)
Fixpoint proof_depths (depth_to_end_game : nat → result num) (s : store)
    (evaluation : num) (cs : list nat) : result (list num) :=
  match cs with
  | [] => Ok []
  | c :: rest =>
      child ← get s c;
      matches ← (if fully_expanded child
                 then e ← get_evaluation child; Ok (num_eqb e evaluation)
                 else Ok false);
      if matches : bool then
        depth ← depth_to_end_game c;
        tl ← proof_depths depth_to_end_game s evaluation rest;
        Ok (depth :: tl)
      else proof_depths depth_to_end_game s evaluation rest
  end.

Fixpoint depth_to_end_game (fuel : nat) (s : store) (k : nat) : result num :=
  match fuel with
  | O => Raise OutOfFuel
  | S fuel' =>
      self ← get s k;
      if negb (fully_expanded self)
      then Raise (Exception "Node not fully expanded!")
      else
        match children self with
        | None => Ok (of_Z 0)
        | Some cs =>
            evaluation ← get_evaluation self;
            depths ← proof_depths (depth_to_end_game fuel' s) s evaluation cs;
            extremal ← (if num_eqb evaluation (optimal_value self)
                        then num_min depths else num_max depths);
            Ok (num_add (of_Z 1) extremal)
        end
  end.

(** The weight of one child of a solved node. *)
Definition solved_weight (fuel : nat) (s : store) (self : node position)
    (c : nat) : result num :=
  child ← get s c;
  matches ← (if fully_expanded child
             then e ← get_evaluation child;
                  evaluation ← get_evaluation self;
                  Ok (num_eqb e evaluation)
             else Ok false);
  if matches : bool then
    depth_to_endgame ← depth_to_end_game fuel s c;
    evaluation ← get_evaluation self;
    Ok (np_exp (if num_eqb evaluation (optimal_value self)
                then num_opp depth_to_endgame else depth_to_endgame))
  else Ok (of_Z 0).

(** The weight of one child of a node that is not solved. *)
Definition unsolved_weight (s : store) (self : node position) (c : nat)
    : result num :=
  child ← get s c;
  if negb (fully_expanded child) then Ok (count_expansions child)
  else
    evaluation ← get_evaluation child;
    if num_eqb evaluation (num_opp (optimal_value self)) then Ok (of_Z 0)
    else
      self_evaluation ← get_evaluation self;
      let winning_chance :=
        num_add (np_div (num_mul self_evaluation (optimal_value self)) (of_Z 2))
                (Fin (1 / 2)%Qc) in
      Ok (num_mul (count_expansions self)
            (num_sub (of_Z 1) winning_chance)).

(** The list [distribution] before it is normalized. *)
Definition weights (fuel : nat) (s : store) (self : node position)
    : result (list num) :=
  cs ← not_none (children self);
  if fully_expanded self then mapR (solved_weight fuel s self) cs
  else mapR (unsolved_weight s self) cs.

(** [np.array(distribution) / sum(distribution)] *)
Definition normalize (distribution : list num) : list num :=
  (λ w, np_div w (num_sum distribution)) <$> distribution.

(** [np.argmax]: the first NaN if there is one, else the first maximum. *)
Fixpoint argmax_from (i best_i : nat) (best : num) (l : list num) : nat :=
  match l with
  | [] => best_i
  | x :: l' =>
      if is_nan best then best_i
      else if is_nan x || num_gtb x best then argmax_from (S i) i x l'
      else argmax_from (S i) best_i best l'
  end.

Definition argmax (l : list num) : result nat :=
  match l with
  | [] => Raise ValueError
  | x :: l' => Ok (argmax_from 1 0 x l')
  end.

(** [choose_best_node(return_probability_distribution=True, optimal=True)] *)
Definition choose_best_node (fuel : nat) (s : store) (k : nat)
    : result (nat * list num) :=
  self ← get s k;
  distribution ← weights fuel s self;
  let distribution := normalize distribution in
  idx ← argmax distribution;
  cs ← not_none (children self);
  best_child ← index cs idx;
  Ok (best_child, distribution).

(** [expand], by the class of [self]. *)
Definition expand (fuel : nat) (s : store) (k : nat) (rollouts : list num)
    (moves : option (list position))
    (network_call_results : option (list (list num * num))) : result store :=
  self ← get s k;
  match node_stats self with
  | RolloutStats _ _ => RolloutNode_expand fuel s k rollouts
  | HeuristicStats _ _ _ =>
      HeuristicNode_expand fuel s k moves network_call_results
  end.

(** *** The loop of the drivers

    [while time() - start_time < time_limit: ...] of [MCTS.choose_move] and
    of the pondering loops: one selection and one expansion in each
    iteration, until the tree is solved.  The clock is not modelled:
    [batches] holds the outcomes of the playouts of each iteration that the
    time limit allows. *)
Fixpoint search_loop (fuel : nat) (batches : list (list num)) (s : store)
    (root : nat) : result store :=
  match batches with
  | [] => Ok s
  | rollouts :: batches =>
      '(s, best_node) ← choose_expansion_node fuel s root;
      match best_node with
      | None => Ok s
      | Some best_node =>
          s ← expand fuel s best_node rollouts None None;
          search_loop fuel batches s root
      end
  end.

End Nodes.

(** ** Vocabulary of the properties *)

(** [a <= b] *)
Definition num_leb (a b : num) : bool := num_ltb a b || num_eqb a b.

(** A value of the game: between a loss and a win. *)
Definition in_range (v : num) : Prop :=
  num_leb (of_Z (-1)) v = true ∧ num_leb v (of_Z 1) = true.

(** The evaluation of the node behind a handle can be read. *)
Definition evaluable {position} (s : list (node position)) (c : nat) : Prop :=
  ∃ child v, s !! c = Some child ∧ get_evaluation child = Ok v.

(** The node behind a handle is solved, and [v] is its value. *)
Definition solved_with {position} (s : list (node position)) (c : nat) (v : num)
    : Prop :=
  ∃ child, s !! c = Some child ∧ fully_expanded child = true
           ∧ get_evaluation child = Ok v.

(** The parent chain from [node] up to the root. *)
Inductive chain {position} (s : list (node position))
    : option nat → list nat → Prop :=
| chain_root : chain s None []
| chain_step n nd l :
    s !! n = Some nd → chain s (parent nd) l → chain s (Some n) (n :: l).




(** *** Weights of [choose_best_node] *)

(** The value held by a solved node. *)
Definition solved_value {position} (nd : node position) : num :=
  match node_stats nd with
  | RolloutStats rollout_sum _ => rollout_sum
  | HeuristicStats heuristic _ _ => heuristic
  end.

(** [(evaluation * optimal_value) / 2 + 0.5] *)
Definition winning_chance {position} (self : node position) (evaluation : num)
    : num :=
  num_add (np_div (num_mul evaluation (optimal_value self)) (of_Z 2))
          (Fin (1 / 2)%Qc).

(** The weight of a child as the specification words it: zero for a child
    solved as a loss for the mover, and for every other child its own
    [expansion_count()] scaled by the winning-chance factor
    [(evaluation * sign + 1) / 2] of the position. *)
Definition claimed_weight {position} (s : list (node position))
    (self : node position) (c : nat) : result num :=
  child ← get s c;
  losing ← (if fully_expanded child
            then e ← get_evaluation child;
                 Ok (num_eqb e (num_opp (optimal_value self)))
            else Ok false);
  if losing : bool then Ok (of_Z 0)
  else
    evaluation ← get_evaluation self;
    Ok (num_mul (count_expansions child)
          (np_div (num_add (num_mul evaluation (optimal_value self)) (of_Z 1))
                  (of_Z 2))).

(** What [np.argmax] picks in a list: the first NaN when there is one, and
    the first maximum otherwise.  No entry is greater than the one at [r],
    and the entries before [r] are smaller. *)
Definition first_maximum (l : list num) (r : nat) : Prop :=
  ∃ m, l !! r = Some m
       ∧ (∀ j w, l !! j = Some w → num_gtb w m = false)
       ∧ (is_nan m = false → ∀ j w, l !! j = Some w → is_nan w = false)
       ∧ (∀ j w, (j < r)%nat → l !! j = Some w →
            is_nan w = false ∧ (is_nan m = false → num_ltb w m = true)).

(** *** Exact values and the invariant of a search *)

Section SearchInvariant.
Context {position : Type} `{Game position}.

(** The optimal outcome for the mover at a position. *)
Definition optimum (p : position) : num :=
  if is_player_1_turn p then of_Z 1 else of_Z (-1).

(** [max] for player 1 and [min] for player 2. *)
Definition best_value (is_maximizing : bool) (values : list num)
    : result num :=
  if is_maximizing then num_max values else num_min values.

(** The value of a position under optimal play, by a finite proof: the
    outcome of a terminal position; the optimal outcome for the mover when
    one move reaches a position of that value; the maximum or minimum of the
    values of all successors. *)
Inductive game_value : position → num → Prop :=
| value_terminal p :
    is_over p = true → game_value p (get_winner p)
| value_optimal p move :
    is_over p = false → move ∈ get_possible_moves p →
    game_value move (optimum p) → game_value p (optimum p)
| value_minimax p values v :
    is_over p = false → game_values (get_possible_moves p) values →
    best_value (is_player_1_turn p) values = Ok v → game_value p v
with game_values : list position → list num → Prop :=
| values_nil : game_values [] []
| values_cons p v ps vs :
    game_value p v → game_values ps vs → game_values (p :: ps) (v :: vs).

Scheme game_value_mut := Minimality for game_value Sort Prop
  with game_values_mut := Minimality for game_values Sort Prop.

(** Minimax over the whole game tree below a position. *)
Fixpoint minimax (fuel : nat) (p : position) : result num :=
  match fuel with
  | O => Raise OutOfFuel
  | S fuel' =>
      if is_over p then Ok (get_winner p)
      else
        values ← mapR (minimax fuel') (get_possible_moves p);
        best_value (is_player_1_turn p) values
  end.

(** One of [-1], [0] and [1]. *)
Definition three_valued (v : num) : Prop :=
  v = of_Z (-1) ∨ v = of_Z 0 ∨ v = of_Z 1.

Definition finite (a : num) : Prop := ∃ q, a = Fin q.

(** The statistics of a node that is not solved are finite numbers. *)
Definition sound_stats (nd : node position) : Prop :=
  match node_stats nd with
  | RolloutStats rollout_sum _ => finite rollout_sum
  | HeuristicStats heuristic policy _ =>
      finite heuristic ∧ ∃ priors, policy = Some priors ∧ Forall finite priors
  end.

(** What the search keeps true of the node behind the handle [x]: the node
    knows the mover of its position; its children, once created, stand for
    the successors of its position, in their order, and point back to it; a
    parent is older than its children; a solved node holds the exact value
    of its position; a node that is not solved is not terminal. *)
Record node_ok (s : list (node position)) (x : nat) (nd : node position)
    : Prop := {
  ok_mover : is_maximizing nd = is_player_1_turn (position_of nd);
  ok_children : ∀ cs, children nd = Some cs →
    Forall2 (λ c move, ∃ child, s !! c = Some child
                                ∧ position_of child = move
                                ∧ parent child = Some x)
            cs (get_possible_moves (position_of nd));
  ok_parent : ∀ p, parent nd = Some p → (p < x)%nat;
  ok_solved : fully_expanded nd = true →
    game_value (position_of nd) (solved_value nd);
  ok_unsolved : fully_expanded nd = false →
    is_over (position_of nd) = false ∧ sound_stats nd
}.

Definition search_inv (s : list (node position)) : Prop :=
  ∀ x nd, s !! x = Some nd → node_ok s x nd.

(** No node on the parent chain from [node] up to the root is solved. *)
Inductive unsolved_chain (s : list (node position)) : option nat → Prop :=
| unsolved_root : unsolved_chain s None
| unsolved_step n nd :
    s !! n = Some nd → fully_expanded nd = false →
    unsolved_chain s (parent nd) → unsolved_chain s (Some n).

(** A node as [ensure_children] creates it for the successor [move] of the
    position of its parent [k]. *)
Definition fresh_child (k : nat) (child : node position) (move : position)
    : Prop :=
  position_of child = move ∧ parent child = Some k ∧ children child = None
  ∧ is_maximizing child = is_player_1_turn move
  ∧ fully_expanded child = is_over move
  ∧ (is_over move = true → solved_value child = get_winner move)
  ∧ (is_over move = false → sound_stats child).

(** The node behind a handle is solved. *)
Definition solved (s : list (node position)) (c : nat) : Prop :=
  ∃ child, s !! c = Some child ∧ fully_expanded child = true.

(** The store [s'] is a later state of the store [s]: every node is still
    there, at its position and below its parent, and the nodes that were
    solved are what they were. *)
Definition evolves (s s' : list (node position)) : Prop :=
  ∀ x nd, s !! x = Some nd →
    ∃ nd', s' !! x = Some nd'
           ∧ position_of nd' = position_of nd ∧ parent nd' = parent nd
           ∧ is_maximizing nd' = is_maximizing nd
           ∧ (fully_expanded nd = true → nd' = nd).

(** Every node of [s] is in [s'] with the same parent and the same solved
    flag. *)
Definition same_flags (s s' : list (node position)) : Prop :=
  ∀ x nd, s !! x = Some nd →
    ∃ nd', s' !! x = Some nd' ∧ parent nd' = parent nd
           ∧ fully_expanded nd' = fully_expanded nd.

End SearchInvariant.

(** ** Random playouts ([RolloutNode.execute_single_rollout])

    [np.random] is a generator state [rng] that every draw advances:
    [randint g n] is the result of [np.random.randint(n)] in the state [g],
    with the next state. *)

Section Playouts.
Context {position : Type} `{Game position}.
Variable rng : Type.
Variable randint : rng → nat → nat * rng.

Fixpoint execute_single_rollout (fuel : nat) (g : rng) (state : position)
    : result (num * rng) :=
  match fuel with
  | O => Raise OutOfFuel
  | S fuel' =>
      if is_over state then Ok (get_winner state, g)
      else
        let sub_states := get_possible_moves state in
        (* [np.random.randint(0)] raises *)
        if bool_decide (length sub_states = 0%nat) then Raise ValueError
        else
          let '(i, g) := randint g (length sub_states) in
          state ← index sub_states i;
          execute_single_rollout fuel' g state
  end.

(** [[self.execute_single_rollout() for _ in range(n)]] *)
Fixpoint playouts (fuel : nat) (g : rng) (p : position) (n : nat)
    : result (list num * rng) :=
  match n with
  | O => Ok ([], g)
  | S n' =>
      '(outcome, g) ← execute_single_rollout fuel g p;
      '(outcomes, g) ← playouts fuel g p n';
      Ok (outcome :: outcomes, g)
  end.

End Playouts.

(** [reaches p q]: legal moves lead from the position [p] to the position
    [q]; no move leaves a terminal position. *)
Inductive reaches {position} `{Game position} : position → position → Prop :=
| reaches_here p : reaches p p
| reaches_move p q r :
    is_over p = false → q ∈ get_possible_moves p → reaches q r → reaches p r.

(** ** [MCTS.choose_move]

    [network] tells whether [self.network] is not [None]; [batches] holds
    the outcomes of the playouts of each iteration that [time_limit]
    allows. *)

Section Drivers.
Context {position : Type} `{Game position}.
Variable exploration : num → num → num.
Variable d : num.
Variable network_call : list position → list (list num * num).
Variable rollout_batch_size : num.
Variable np_exp : num → num.

Definition MCTS_choose_move (network : bool) (fuel : nat)
    (batches : list (list num)) (p : position) : result position :=
  if is_over p then Raise (Exception "Game Finished!")
  else
    root ← (if network then HeuristicRoot network_call p
            else Ok (RolloutNode p None));
    s ← search_loop exploration d network_call rollout_batch_size fuel
          batches [root] 0;
    '(best_child, _) ← choose_best_node np_exp fuel s 0;
    best_child ← get s best_child;
    Ok (position_of best_child).

End Drivers.

(** *** Proofs in the tree

    What [depth_to_end_game] and the choice at a solved node rely on: a
    solved node without children is terminal, and a solved node with
    children has a solved child with the value of the node. *)
Definition proof_tree {position} `{Game position} (s : list (node position))
    : Prop :=
  ∀ x nd, s !! x = Some nd → fully_expanded nd = true →
    match children nd with
    | None => is_over (position_of nd) = true
    | Some cs =>
        ∃ c child, c ∈ cs ∧ s !! c = Some child
                   ∧ fully_expanded child = true
                   ∧ solved_value child = solved_value nd
    end.

(** Every node of [s] is in [s'] with the same children, position and
    solved flag, and [s'] has no other node. *)
Definition same_shape {position} (s s' : list (node position)) : Prop :=
  length s' = length s
  ∧ ∀ x nd, s !! x = Some nd →
      ∃ nd', s' !! x = Some nd' ∧ children nd' = children nd
             ∧ position_of nd' = position_of nd
             ∧ fully_expanded nd' = fully_expanded nd.

(** ** The network ([heuristics/Network.py])

    Arrays are flattened (in C order): a policy over [MOVE_SHAPE] and the
    mask of legal moves are lists of the same length.  The model itself
    (keras) is [predict], whatever it computes. *)

(** [a[mask]] for a boolean [mask]: the entries where the mask holds. *)
Fixpoint select_true {A} (mask : list bool) (a : list A) : list A :=
  match mask, a with
  | b :: mask, x :: a => if b then x :: select_true mask a
                         else select_true mask a
  | _, _ => []
  end.

Definition mask_select {A} (mask : list bool) (a : list A)
    : result (list A) :=
  if bool_decide (length mask = length a) then Ok (select_true mask a)
  else Raise IndexError.

(** [a[mask] = values] on [a = np.zeros_like(mask, dtype=float)]: as many
    values as the mask holds entries, in their order, or one value for all
    of them. *)
Fixpoint scatter (mask : list bool) (values : list num) : list num :=
  match mask with
  | [] => []
  | true :: mask =>
      match values with
      | x :: values => x :: scatter mask values
      | [] => of_Z 0 :: scatter mask []
      end
  | false :: mask => of_Z 0 :: scatter mask values
  end.

Definition count_true (mask : list bool) : nat :=
  length (filter (λ b, b = true) mask).

Definition mask_assign (mask : list bool) (values : list num)
    : result (list num) :=
  if bool_decide (length values = count_true mask) then Ok (scatter mask values)
  else
    match values with
    | [x] => Ok ((λ b : bool, if b then x else of_Z 0) <$> mask)
    | _ => Raise ValueError
    end.

Section Network.
Context {position : Type}.
(** [GameClass.get_legal_moves(state)] *)
Variable get_legal_moves : position → list bool.
(** [self.model.predict(states)]: the raw policies and the evaluations. *)
Variable predict : list position → list (list num) * list num.


(** The body of the loops of [process_data]: the policy target of one
    position. *)
Definition policy_target (one_hot : bool) (p : position)
    (distribution : list num) : result (list num) :=
  let legal_moves := get_legal_moves p in
  policy ← mask_assign legal_moves distribution;
  if one_hot then
    idx ← argmax policy;
    Ok (<[idx := of_Z 1]> ((λ _, of_Z 0) <$> policy))
  else Ok policy.

(** The rows of the training set, before they are shuffled. *)
Definition training_rows (one_hot : bool)
    (data : list (list (position * list num) * num))
    : result (list (position * list num * num)) :=
  rows ← mapR (λ game_outcome : list (position * list num) * num,
                 mapR (λ pd : position * list num,
                         policy ← policy_target one_hot pd.1 pd.2;
                         Ok (pd.1, policy, game_outcome.2))
                      game_outcome.1)
              data;
  Ok (concat rows).

(** [process_data]; [shuffle] is what [np.random.shuffle] leaves in the array
    [shuffle]. *)
Definition process_data (shuffle : list nat) (one_hot : bool)
    (data : list (list (position * list num) * num))
    : result (list position * (list (list num) * list num)) :=
  rows ← training_rows one_hot data;
  (* [np.stack] of no arrays raises *)
  if bool_decide (rows = []) then Raise ValueError
  else
    input_data ← mapR (index (fst <$> (fst <$> rows))) shuffle;
    policy_outputs ← mapR (index (snd <$> (fst <$> rows))) shuffle;
    value_outputs ← mapR (index (snd <$> rows)) shuffle;
    Ok (input_data, (policy_outputs, value_outputs)).

End Network.

(** [send_results] of [dual_architecture_process_loop]: the slice of
    [results] sent to each pipe; a request is known by its number of
    positions, and [pipes] by their number. *)
Fixpoint send_results {A} (requests : list nat) (results : list A)
    (pipes : nat) (pos : nat) : list (list A) :=
  match requests, pipes with
  | request :: requests, S pipes =>
      let new_pos := (pos + request)%nat in
      take (new_pos - pos) (drop pos results)
        :: send_results requests results pipes new_pos
  | _, _ => []
  end.

(** ** The first search ([move_selection/MCTS.py])

    [Node] of [MCTS.py]: rollout statistics only, and no solved flag.  Its
    objects live in a store of their own. *)

Record Node_ {position : Type} : Type := MakeNode {
  Node_position : position;
  Node_parent : option nat;
  Node_is_maximizing : bool;
  Node_children : option (list nat);
  Node_rollout_sum : num;
  Node_rollout_count : num
}.
Arguments Node_ : clear implicits.
Arguments MakeNode {position}.

Section FirstSearch.
Context {position : Type} `{Game position}.
(** [c * np.sqrt(np.log(N) / n)] *)
Variable exploration : num → num → num.

(** [Node(position, parent, GameClass)] *)
Definition new_Node (p : position) (par : option nat) : Node_ position :=
  MakeNode p par (is_player_1_turn p) None (of_Z 0) (of_Z 0).

Definition Node_get (s : list (Node_ position)) (k : nat)
    : result (Node_ position) :=
  match s !! k with
  | Some nd => Ok nd
  | None => Raise Dangling
  end.

(** [Node.ensure_children] *)
Definition Node_ensure_children (s : list (Node_ position)) (k : nat)
    : result (list (Node_ position)) :=
  self ← Node_get s k;
  match Node_children self with
  | Some _ => Ok s
  | None =>
      let new := (λ move, new_Node move (Some k))
                   <$> get_possible_moves (Node_position self) in
      Ok (<[k := MakeNode (Node_position self) (Node_parent self)
                   (Node_is_maximizing self)
                   (Some (seq (length s) (length new)))
                   (Node_rollout_sum self) (Node_rollout_count self)]>
            (s ++ new))
  end.

(** The loop of [Node.choose_best_node]. *)
Fixpoint best_visited (s : list (Node_ position)) (is_maximizing : bool)
    (cs : list nat) (best_heuristic : num) (best_child : option nat)
    : result (option nat) :=
  match cs with
  | [] => Ok best_child
  | c :: rest =>
      child ← Node_get s c;
      if num_gtb (Node_rollout_count child) (of_Z 0) then
        child_heuristic ← py_div (Node_rollout_sum child)
                                 (Node_rollout_count child);
        if (is_maximizing && num_gtb child_heuristic best_heuristic)
           || (negb is_maximizing && num_ltb child_heuristic best_heuristic)
        then best_visited s is_maximizing rest child_heuristic (Some c)
        else best_visited s is_maximizing rest best_heuristic best_child
      else best_visited s is_maximizing rest best_heuristic best_child
  end.

Definition Node_choose_best_node (s : list (Node_ position)) (k : nat)
    : result (option nat) :=
  self ← Node_get s k;
  cs ← not_none (Node_children self);
  best_visited s (Node_is_maximizing self) cs
    (worst (Node_is_maximizing self)) None.

(** How the loop of [choose_rollout_node] ends: at a child that was never
    visited, or with the best child by score. *)
Fixpoint scan_rollout (s : list (Node_ position)) (self : Node_ position)
    (cs : list nat) (best_heuristic : num) (best_child : option nat)
    : result (nat + option nat) :=
  match cs with
  | [] => Ok (inr best_child)
  | c :: rest =>
      child ← Node_get s c;
      if num_eqb (Node_rollout_count child) (of_Z 0) then Ok (inl c)
      else
        child_heuristic ← py_div (Node_rollout_sum child)
                                 (Node_rollout_count child);
        let exploration_term :=
          exploration (Node_rollout_count self) (Node_rollout_count child) in
        if Node_is_maximizing self then
          let child_heuristic := num_add child_heuristic exploration_term in
          if num_gtb child_heuristic best_heuristic
          then scan_rollout s self rest child_heuristic (Some c)
          else scan_rollout s self rest best_heuristic best_child
        else
          let child_heuristic := num_sub child_heuristic exploration_term in
          if num_ltb child_heuristic best_heuristic
          then scan_rollout s self rest child_heuristic (Some c)
          else scan_rollout s self rest best_heuristic best_child
  end.

(** [Node.choose_rollout_node] *)
Fixpoint choose_rollout_node (fuel : nat) (s : list (Node_ position))
    (k : nat) : result (list (Node_ position) * nat) :=
  match fuel with
  | O => Raise OutOfFuel
  | S fuel' =>
      self ← Node_get s k;
      if num_eqb (Node_rollout_count self) (of_Z 0) then Ok (s, k)
      else
        s ← Node_ensure_children s k;
        self ← Node_get s k;
        cs ← not_none (Node_children self);
        scanned ← scan_rollout s self cs (worst (Node_is_maximizing self))
                     None;
        match scanned with
        | inl child => Ok (s, child)
        | inr (Some best_child) => choose_rollout_node fuel' s best_child
        | inr None => Raise AttributeError
        end
  end.

(** [Node.rollout]; [rollouts] is the number of playouts and [rollout_sum]
    the sum of their outcomes. *)
Fixpoint Node_rollout (fuel : nat) (s : list (Node_ position))
    (node : option nat) (rollouts rollout_sum : num)
    : result (list (Node_ position)) :=
  match node with
  | None => Ok s
  | Some n =>
      match fuel with
      | O => Raise OutOfFuel
      | S fuel' =>
          nd ← Node_get s n;
          Node_rollout fuel'
            (<[n := MakeNode (Node_position nd) (Node_parent nd)
                      (Node_is_maximizing nd) (Node_children nd)
                      (num_add (Node_rollout_sum nd) rollout_sum)
                      (num_add (Node_rollout_count nd) rollouts)]> s)
            (Node_parent nd) rollouts rollout_sum
      end
  end.

End FirstSearch.

(** ** Decidable equality, to evaluate the model on concrete stores *)

#[global] Instance exn_eq_dec : EqDecision exn.
Proof. solve_decision. Defined.

#[global] Instance result_eq_dec {A} `{EqDecision A} : EqDecision (result A).
Proof. solve_decision. Defined.

#[global] Instance num_eq_dec : EqDecision num.
Proof. solve_decision. Defined.

#[global] Instance stats_eq_dec : EqDecision stats.
Proof. solve_decision. Defined.

#[global] Instance node_eq_dec {position} `{EqDecision position}
  : EqDecision (node position).
Proof. solve_decision. Defined.

(** ** A small game for the examples

    A pile of tokens; a move takes one token or two; the player who takes
    the last token wins.  A position is the pile and whether player 1 is to
    move. *)

#[global] Instance pile_game : Game (nat * bool) := {|
  is_over := λ p : nat * bool, bool_decide (p.1 = 0%nat);
  get_winner := λ p : nat * bool, if p.2 then of_Z (-1) else of_Z 1;
  is_player_1_turn := λ p : nat * bool, p.2;
  get_possible_moves := λ p : nat * bool,
    match p.1 with
    | O => []
    | S O => [(0%nat, negb p.2)]
    | S (S n) => [(S n, negb p.2); (n, negb p.2)]
    end
|}.

(** The number of tokens left as the heuristic value: of no use to a player,
    good enough to watch the search. *)
Definition pile_heuristic (p : nat * bool) : num := of_Z (Z.of_nat p.1).

(** ** Concrete stores for the examples *)

(** A rollout node with the given statistics, not solved, without parent or
    children, at the start position of the pile game. *)
Definition rollout_leaf (rollout_sum rollout_count : Z) : node (nat * bool) :=
  Node (4%nat, true) None None false true
       (RolloutStats (of_Z rollout_sum) (of_Z rollout_count)).

(** The baseline of the merge example and its two clones. *)
Definition merge_example : list (node (nat * bool)) :=
  [rollout_leaf 3 10; rollout_leaf 5 15; rollout_leaf 6 20].

(** A heuristic node that was never expanded, as [HeuristicNode] creates it
    from a network result. *)
Definition heuristic_leaf (p : nat * bool) (par : option nat) (value : Z)
    : node (nat * bool) :=
  HeuristicNode p par ([], of_Z value).

(** A terminal position of the pile game as the root of a rollout search and
    of a heuristic search: solved from the start, player 1 has lost. *)
Definition solved_rollout_root : list (node (nat * bool)) :=
  [RolloutNode (0%nat, true) None].

Definition solved_heuristic_root : list (node (nat * bool)) :=
  [HeuristicNode (0%nat, true) None ([], of_Z 0)].

(** A network that knows nothing: value [0] and no priors, for every
    position. *)
Definition blind_network (ps : list (nat * bool)) : list (list num * num) :=
  (λ _, ([], of_Z 0)) <$> ps.

(** An exploration term that does not depend on the counts. *)
Definition flat_exploration (N n : num) : num := of_Z 1.

(** A rollout root whose two children are solved, with the values [-1] and
    [0]; the root itself is not marked yet. *)
Definition closure_root : node (nat * bool) :=
  Node (4%nat, true) None (Some [1%nat; 2%nat]) false true
       (RolloutStats (of_Z 0) (of_Z 2)).

Definition closure_example : list (node (nat * bool)) :=
  [closure_root;
   Node (3%nat, false) (Some 0%nat) None true false
     (RolloutStats (of_Z (-1)) PInf);
   Node (2%nat, false) (Some 0%nat) None true false
     (RolloutStats (of_Z 0) PInf)].

(** A rollout root after its first rollout, with its two children just
    created. *)
Definition fresh_children_example : list (node (nat * bool)) :=
  [Node (4%nat, true) None (Some [1%nat; 2%nat]) false true
     (RolloutStats (of_Z 1) (of_Z 1));
   RolloutNode (3%nat, false) (Some 0%nat);
   RolloutNode (2%nat, false) (Some 0%nat)].

(** A heuristic root of value [-1] with two children that were never
    expanded. *)
Definition heuristic_example : list (node (nat * bool)) :=
  [Node (4%nat, true) None (Some [1%nat; 2%nat]) false true
     (HeuristicStats (of_Z (-1)) (Some []) (of_Z 1));
   heuristic_leaf (3%nat, false) (Some 0%nat) (-1);
   heuristic_leaf (2%nat, false) (Some 0%nat) (-1)].

(** A rollout root with evaluation [1/2] (sum 5 of 10 rollouts), an
    unsolved child with 4 rollouts and a child solved as a draw. *)
Definition weights_root : node (nat * bool) :=
  Node (4%nat, true) None (Some [1%nat; 2%nat]) false true
       (RolloutStats (of_Z 5) (of_Z 10)).

Definition weights_example : list (node (nat * bool)) :=
  [weights_root;
   Node (3%nat, false) (Some 0%nat) None false false
     (RolloutStats (of_Z 1) (of_Z 4));
   Node (2%nat, false) (Some 0%nat) None true false
     (RolloutStats (of_Z 0) PInf)].

(** A rollout baseline without children (handle 0) and a clone of it (handle
    1) that went on searching and has two children (handles 2 and 3). *)
Definition adoption_example : list (node (nat * bool)) :=
  [rollout_leaf 3 10;
   Node (4%nat, true) None (Some [2%nat; 3%nat]) false true
     (RolloutStats (of_Z 5) (of_Z 15));
   Node (3%nat, false) (Some 1%nat) None false false
     (RolloutStats (of_Z 1) (of_Z 3));
   Node (2%nat, false) (Some 1%nat) None false false
     (RolloutStats (of_Z 1) (of_Z 2))].

(** The same store after the merge of the clone into the baseline: the
    baseline has the count of the clone and shares its children. *)
Definition adoption_merged : list (node (nat * bool)) :=
  <[0%nat := Node (4%nat, true) None (Some [2%nat; 3%nat]) false true
               (RolloutStats (of_Z 3) (of_Z 15))]> adoption_example.

(** A rollout search from the pile of two tokens, after three iterations
    with one playout each: the root (handle 0) is solved with the value [1],
    as taking both tokens wins; its first child was expanded once and is not
    solved. *)
Definition shortcut_example : list (node (nat * bool)) :=
  [Node (2%nat, true) None (Some [1%nat; 2%nat]) true true
     (RolloutStats (of_Z 1) PInf);
   Node (1%nat, false) (Some 0%nat) None false false
     (RolloutStats (of_Z (-1)) (of_Z 1));
   Node (0%nat, false) (Some 0%nat) None true false
     (RolloutStats (of_Z 1) PInf)].

(** A heuristic within [[-1, 1]]: a pile of three tokens is lost for the
    player to move, so won for player 1 when player 2 is to move. *)
Definition three_tokens_heuristic (p : nat * bool) : num :=
  if bool_decide (p.1 = 3%nat) then (if p.2 then of_Z (-1) else of_Z 1)
  else of_Z 0.

(** A stand-in for the random generator: the state counts the draws, and
    the [g]-th draw below [n] is [g mod n]. *)
Definition counting_randint (g n : nat) : nat * nat := (g mod n, S g)%nat.

(** A stand-in for [np.exp] on the rationals: positive and increasing, with
    the value [1] at [0]. *)
Definition rational_exp (x : num) : num :=
  match x with
  | Fin q => if bool_decide (0 ≤ q)%Qc then Fin (1 + q)%Qc
             else Fin (1 / (1 - q))%Qc
  | PInf => PInf
  | NInf => of_Z 0
  | NaN => NaN
  end.

(** The moves of the pile game as a mask over the two moves (take one
    token, take two), and a model that gives the first a quarter and the
    second three quarters, with the evaluation [0]. *)
Definition pile_legal_moves (p : nat * bool) : list bool :=
  [bool_decide (1 ≤ p.1)%nat; bool_decide (2 ≤ p.1)%nat].


#[global] Instance Node_eq_dec {position} `{EqDecision position} :
  EqDecision (Node_ position).
Proof. solve_decision. Defined.

(** The first search on the pile of one token after two iterations: the
    root and its only child, a terminal position, have a rollout each. *)
Definition first_search_example : list (Node_ (nat * bool)) :=
  [MakeNode (1%nat, true) None true (Some [1%nat]) (of_Z 2) (of_Z 2);
   MakeNode (0%nat, false) (Some 0%nat) false None (of_Z 1) (of_Z 1)].

(** *** Termination of the selection

    What the search with playouts relies on to return: every node is a
    [RolloutNode], and the count of a node that is not solved is a whole
    number of playouts. *)
Definition is_rollout {position} (nd : node position) : Prop :=
  ∃ rollout_sum rollout_count,
    node_stats nd = RolloutStats rollout_sum rollout_count
    ∧ (fully_expanded nd = false →
       ∃ z, (0 ≤ z)%Z ∧ rollout_count = of_Z z).

Definition rollout_tree {position} (s : list (node position)) : Prop :=
  ∀ x nd, s !! x = Some nd → is_rollout nd.

(** A node the selection can still descend into: visited, and not solved. *)
Definition pending {position} (nd : node position) : bool :=
  negb (fully_expanded nd) && negb (num_eqb (count_expansions nd) (of_Z 0)).

Definition pending_count {position} (s : list (node position)) : nat :=
  length (filter (λ nd, pending nd = true) s).

(** The recursion of [choose_expansion_node] at the handle [k] is bounded
    by this number: a descent moves to a pending node with a larger handle,
    and a step back to the parent follows the solving of a pending node. *)
Definition selection_measure {position} (s : list (node position)) (k : nat)
    : nat :=
  pending_count s * pending_count s + pending_count (drop (S k) s).

(** The store [s'] is a later state of the store [s] of a search: a node
    keeps its children, and a pending node stays pending until it is
    solved. *)
Definition grows {position} (s s' : list (node position)) : Prop :=
  ∀ x nd, s !! x = Some nd →
    ∃ nd', s' !! x = Some nd'
           ∧ (is_Some (children nd) → is_Some (children nd'))
           ∧ (fully_expanded nd = true → fully_expanded nd' = true)
           ∧ (pending nd = true →
              pending nd' = true ∨ fully_expanded nd' = true).

(** * Properties *)

(** ** Numbers: the order on numbers other than NaN is a strict weak order *)

Lemma num_ltb_irrefl a : num_ltb a a = false.
Proof.
  destruct a; unfold num_ltb; try done.
  apply bool_decide_eq_false. unfold Qclt. lra.
Qed.

Lemma num_ltb_asym a b : num_ltb a b = true → num_ltb b a = false.
Proof.
  destruct a, b; unfold num_ltb, num_eqb; try done.
  rewrite bool_decide_eq_true, bool_decide_eq_false. unfold Qclt. lra.
Qed.

Lemma num_ltb_trans a b c :
  num_ltb a b = true → num_ltb b c = true → num_ltb a c = true.
Proof.
  destruct a, b, c; unfold num_ltb; try done.
  rewrite !bool_decide_eq_true. unfold Qclt. lra.
Qed.

Lemma num_ltb_cotrans a b c :
  is_nan c = false →
  num_ltb a b = true → num_ltb a c = true ∨ num_ltb c b = true.
Proof.
  destruct a, b, c; unfold num_ltb; simpl; try done; auto.
  rewrite !bool_decide_eq_true. unfold Qclt. lra.
Qed.

Lemma num_ltb_not_nan_l a b : num_ltb a b = true → is_nan a = false.
Proof. by destruct a, b. Qed.

Lemma num_ltb_not_nan_r a b : num_ltb a b = true → is_nan b = false.
Proof. by destruct a, b. Qed.

Lemma of_Z_eqb (n m : Z) : num_eqb (of_Z n) (of_Z m) = bool_decide (n = m).
Proof.
  unfold of_Z, num_eqb. apply bool_decide_ext. apply Z2Qc_inj_iff.
Qed.

Lemma of_Z_sub (n m : Z) : num_sub (of_Z n) (of_Z m) = of_Z (n - m).
Proof.
  unfold of_Z, num_sub, num_add, num_opp. f_equal. by rewrite Z2Qc_inj_sub.
Qed.

Lemma mapR_Ok {A B} (f : A → result B) l ys :
  mapR f l = Ok ys → Forall2 (λ x y, f x = Ok y) l ys.
Proof.
  revert ys. induction l as [|x l IH]; intros ys; simpl.
  - intros [= <-]. constructor.
  - destruct (f x) as [y|] eqn:Hx; simpl; [|done].
    destruct (mapR f l) as [ys'|] eqn:Hl; simpl; [|done].
    intros [= <-]. constructor; auto.
Qed.

Lemma mapR_Forall2 {A B} (f : A → result B) l ys :
  Forall2 (λ x y, f x = Ok y) l ys → mapR f l = Ok ys.
Proof.
  induction 1 as [|x y l ys Hx _ IH]; simpl; [done|].
  by rewrite Hx, IH.
Qed.

(** ** MiniMax: pruning does not change the result *)

Section MiniMaxProperties.
Context {position : Type} `{Game position}.
Variable heuristic_func : position → num.
Hypothesis get_winner_not_nan : ∀ p, is_nan (get_winner p) = false.
Hypothesis heuristic_not_nan : ∀ p, is_nan (heuristic_func p) = false.

Lemma beats_flip m a b : beats (negb m) a b = beats m b a.
Proof. by destruct m. Qed.

Lemma beats_asym m a b : beats m a b = true → beats m b a = false.
Proof. destruct m; apply num_ltb_asym. Qed.

Lemma beats_trans m a b c :
  beats m a b = true → beats m b c = true → beats m a c = true.
Proof.
  destruct m; unfold beats, num_gtb; eauto using num_ltb_trans.
Qed.

Lemma beats_cotrans m a b c :
  is_nan c = false →
  beats m a b = true → beats m a c = true ∨ beats m c b = true.
Proof.
  intros Hc. destruct m; unfold beats, num_gtb; intros Hab.
  - destruct (num_ltb_cotrans _ _ c Hc Hab); auto.
  - by apply num_ltb_cotrans.
Qed.

Lemma within_refl m bound v : within m bound v v.
Proof. by split. Qed.

Lemma worst_not_nan m : is_nan (worst m) = false.
Proof. by destruct m. Qed.

Lemma best_of_cons m best v vs :
  best_of m best (v :: vs) = best_of m (if beats m v best then v else best) vs.
Proof. done. Qed.

Lemma best_of_not_nan m best vs :
  is_nan best = false → Forall (λ v, is_nan v = false) vs →
  is_nan (best_of m best vs) = false.
Proof.
  intros Hb Hvs. revert best Hb.
  induction Hvs as [|v vs Hv _ IH]; intros best Hb; [done|].
  rewrite best_of_cons. apply IH. by destruct (beats m v best).
Qed.

(** The running best value never gets worse. *)
Lemma best_of_not_worse m best vs : beats m best (best_of m best vs) = false.
Proof.
  revert best. induction vs as [|v vs IH]; intros best.
  - destruct m; apply num_ltb_irrefl.
  - rewrite best_of_cons. destruct (beats m v best) eqn:Hv; [|apply IH].
    destruct (beats m best (best_of m v vs)) eqn:Hb; [|done].
    specialize (IH v). by rewrite (beats_trans _ _ _ _ Hv Hb) in IH.
Qed.

(** One iteration of the loop of [evaluate_position_recursive], with the two
    tests on [is_maximizing] read as one. *)
Lemma scan_children_cons (ev : position → num → result num) m vtb c rest best :
  scan_children ev m vtb (c :: rest) best =
  (h ← ev c best;
   if beats m h best then
     if beats m h vtb then Ok h else scan_children ev m vtb rest h
   else scan_children ev m vtb rest best).
Proof.
  simpl. destruct (ev c best) as [h|]; simpl; [|done].
  by destruct m; simpl; destruct (num_gtb h best), (num_ltb h best).
Qed.

(** What a child returns under the bound [best] decides the test of its
    parent as its exact value does. *)
Lemma within_child_test m best v r :
  within (negb m) best v r →
  beats m r best = beats m v best ∧ (beats m v best = true → r = v).
Proof.
  intros [Hbeat Hexact].
  rewrite (beats_flip m v best) in Hbeat, Hexact.
  rewrite (beats_flip m r best) in Hbeat.
  destruct (beats m best v) eqn:Hbv.
  - rewrite (beats_asym _ _ _ Hbv), (beats_asym _ _ _ (Hbeat eq_refl)).
    by split.
  - by rewrite Hexact.
Qed.

Lemma scan_children_spec (ev : position → num → result num) m vtb moves vs :
  Forall2 (λ c v, is_nan v = false
                  ∧ ∀ b, ∃ r, ev c b = Ok r ∧ within (negb m) b v r) moves vs →
  ∀ best, is_nan best = false →
  ∃ r, scan_children ev m vtb moves best = Ok r
       ∧ within m vtb (best_of m best vs) r.
Proof.
  induction 1 as [|c v moves vs [Hv Hc] Hrest IH]; intros best Hbest.
  - exists best. split; [done|apply within_refl].
  - rewrite scan_children_cons, best_of_cons.
    destruct (Hc best) as (r & -> & Hr); simpl.
    destruct (within_child_test _ _ _ _ Hr) as [-> Hexact].
    destruct (beats m v best) eqn:Hvb; [|by apply IH].
    rewrite (Hexact eq_refl).
    destruct (beats m v vtb) eqn:Hprune; [|by apply IH].
    exists v. split; [done|]. split; [done|].
    intros Hfinal.
    assert (is_nan (best_of m v vs) = false) as Hnan.
    { apply best_of_not_nan; [done|].
      eapply Forall2_Forall_r; [exact Hrest|].
      apply Forall_forall. by intros ? _ ? [? _]. }
    destruct (beats_cotrans _ _ _ _ Hnan Hprune) as [Hbad|Hbad].
    + by rewrite best_of_not_worse in Hbad.
    + by rewrite Hfinal in Hbad.
Qed.

Lemma evaluate_refines fuel p depth m v :
  unpruned_evaluate heuristic_func fuel p depth m = Ok v →
  is_nan v = false
  ∧ ∀ vtb, ∃ r, evaluate_position_recursive heuristic_func fuel p depth m vtb
                = Ok r ∧ within m vtb v r.
Proof.
  revert p depth m v. induction fuel as [|fuel IH]; intros p depth m v; [done|].
  simpl. destruct (is_over p).
  { intros [= <-]. split; [done|]. intros vtb. eexists. split; [done|].
    apply within_refl. }
  destruct (num_eqb depth (of_Z 0)).
  { intros [= <-]. split; [done|]. intros vtb. eexists. split; [done|].
    apply within_refl. }
  destruct (mapR _ _) as [vs|] eqn:Hvs; simpl; [|done].
  intros [= <-]. apply mapR_Ok in Hvs.
  assert (Forall2 (λ c v, is_nan v = false ∧ ∀ b, ∃ r,
            evaluate_position_recursive heuristic_func fuel c
              (num_sub depth (of_Z 1)) (negb m) b = Ok r
            ∧ within (negb m) b v r) (get_possible_moves p) vs) as Hall.
  { induction Hvs; constructor; auto. }
  split.
  - apply best_of_not_nan; [apply worst_not_nan|].
    eapply Forall2_Forall_r; [exact Hall|].
    apply Forall_forall. by intros ? _ ? [? _].
  - intros vtb.
    by apply (scan_children_spec _ m vtb _ _ Hall), worst_not_nan.
Qed.

Lemma choose_loop_spec (ev : position → num → result num) m moves vs :
  Forall2 (λ c v, is_nan v = false
                  ∧ ∀ b, ∃ r, ev c b = Ok r ∧ within (negb m) b v r) moves vs →
  ∀ best_move best,
  choose_loop ev m moves best_move best
  = Ok (best_move_of m (best_move, best) (zip moves vs)).
Proof.
  induction 1 as [|c v moves vs [Hv Hc] Hrest IH]; intros best_move best;
    [done|].
  simpl. destruct (Hc best) as (r & -> & Hr); simpl.
  destruct (within_child_test _ _ _ _ Hr) as [Htest Hexact].
  replace ((m && num_gtb r best) || (negb m && num_ltb r best))
    with (beats m r best) by (by destruct m; simpl; rewrite ?orb_false_r).
  rewrite Htest. destruct (beats m v best) eqn:Hvb; [|apply IH].
  rewrite (Hexact eq_refl). apply IH.
Qed.

(** Whenever the search without pruning returns, the search with pruning
    returns the same move and the same value. *)
Lemma choose_move_refines fuel depth p out :
  unpruned_choose_move heuristic_func fuel depth p = Ok out →
  choose_move heuristic_func fuel depth p = Ok out.
Proof.
  unfold unpruned_choose_move, choose_move. destruct (is_over p); [done|].
  destruct (mapR _ _) as [vs|] eqn:Hvs; simpl; [|done].
  intros [= <-]. apply mapR_Ok in Hvs. apply choose_loop_spec.
  induction Hvs; constructor; auto using evaluate_refines.
Qed.

Lemma mapR_ext {A B} (f g : A → result B) l :
  (∀ x, x ∈ l → f x = g x) → mapR f l = mapR g l.
Proof.
  induction l as [|x l IH]; intros Hfg; [done|]. simpl.
  rewrite Hfg by (apply elem_of_cons; auto).
  rewrite IH; [done|]. intros y Hy. apply Hfg, elem_of_cons; auto.
Qed.

Lemma mapR_returns {A B} (f : A → result B) l :
  Forall (λ x, returns (f x)) l → returns (mapR f l).
Proof.
  induction 1 as [|x l [y Hy] _ [ys IH]]; simpl; [by eexists|].
  rewrite Hy, IH. by eexists.
Qed.

(** A search of finite depth [d] returns once the fuel exceeds [d]. *)
Lemma unpruned_evaluate_returns fuel (d : Z) p m :
  0 ≤ d → (Z.to_nat d < fuel)%nat →
  returns (unpruned_evaluate heuristic_func fuel p (of_Z d) m).
Proof.
  revert d p m. induction fuel as [|fuel IH]; intros d p m Hd Hfuel; [lia|].
  cbn [unpruned_evaluate]. destruct (is_over p); [by eexists|].
  rewrite of_Z_eqb. case_bool_decide; [by eexists|].
  rewrite of_Z_sub.
  destruct (mapR_returns
    (λ child, unpruned_evaluate heuristic_func fuel child (of_Z (d - 1)) (negb m))
    (get_possible_moves p)) as [vs ->]; [|by eexists].
  apply Forall_forall. intros c _. apply IH; lia.
Qed.

(** C5 (alpha-beta equivalence): for every position, every finite depth
    [d >= 1] and every heuristic function, [choose_move] with the prune rule
    of [evaluate_position_recursive] returns what the search without pruning
    of the same depth with the same heuristic returns: the same chosen move
    and the same reported value (and both raise 'Game Finished!' on a
    terminal position).  Neither runs out of fuel once the fuel reaches the
    depth. *)
Theorem alpha_beta_equivalence (p : position) (d : Z) (fuel : nat) :
  1 ≤ d → (Z.to_nat d ≤ fuel)%nat →
  choose_move heuristic_func fuel (of_Z d) p
  = unpruned_choose_move heuristic_func fuel (of_Z d) p
  ∧ (is_over p = false →
     returns (unpruned_choose_move heuristic_func fuel (of_Z d) p)).
Proof.
  intros Hd Hfuel.
  assert (is_over p = false →
          returns (unpruned_choose_move heuristic_func fuel (of_Z d) p)) as Hret.
  { intros Hp. unfold unpruned_choose_move. rewrite Hp, of_Z_sub.
    destruct (mapR_returns
      (λ move, unpruned_evaluate heuristic_func fuel move (of_Z (d - 1))
                 (negb (is_player_1_turn p)))
      (get_possible_moves p)) as [vs ->]; [|by eexists].
    apply Forall_forall. intros c _. apply unpruned_evaluate_returns; lia. }
  split; [|done].
  destruct (is_over p) eqn:Hp.
  - unfold choose_move, unpruned_choose_move. by rewrite Hp.
  - destruct (Hret eq_refl) as [out Hout].
    by rewrite Hout, (choose_move_refines _ _ _ _ Hout).
Qed.

End MiniMaxProperties.

(** ** Examples of the MiniMax search *)

Example pile_choose_move :
  choose_move pile_heuristic 3 (of_Z 3) (4%nat, true)
  = Ok (Some (3%nat, false), of_Z 1).
Proof. refine (bool_decide_unpack _ _). vm_compute. exact I. Qed.

(** ** Search nodes *)

(** Case analysis on the outcome of the first step of a computation. *)
Ltac step_result :=
  match goal with
  | |- context [@mbind result _ _ _ _ ?m] =>
      let E := fresh "E" in destruct m eqn:E; simpl
  end.

Lemma num_lt_neq a b : num_ltb a b = true → num_eqb b a = false.
Proof.
  destruct a, b; unfold num_ltb, num_eqb; try done.
  rewrite bool_decide_eq_true, bool_decide_eq_false. unfold Qclt.
  intros Hlt ->. lra.
Qed.

Lemma py_div_nonzero a b :
  num_gtb b (of_Z 0) = true → py_div a b = Ok (np_div a b).
Proof. intros Hb. unfold py_div. by rewrite (num_lt_neq _ _ Hb). Qed.

Lemma drop_cons_inv {A} (l : list A) i x rest :
  drop i l = x :: rest → l !! i = Some x ∧ drop (S i) l = rest.
Proof.
  revert i. induction l as [|y l IH]; intros [|i]; simpl; try done.
  - intros [= -> ->]. split; [done|]. by rewrite drop_0.
  - apply IH.
Qed.

Section NodeProperties.
Context {position : Type} `{Game position}.
Variable exploration : num → num → num.
Variable d : num.
Variable network_call : list position → list (list num * num).
Variable rollout_batch_size : num.

Implicit Types (s : list (node position)) (self child nd : node position).

Lemma get_Ok s k nd : get s k = Ok nd ↔ s !! k = Some nd.
Proof. unfold get. destruct (s !! k); split; congruence. Qed.

Lemma get_Raise s k e : get s k = Raise e → e = Dangling.
Proof. unfold get. destruct (s !! k); congruence. Qed.

(** *** No division by zero in the selection descent *)

Lemma get_evaluation_solved nd :
  fully_expanded nd = true → get_evaluation nd ≠ Raise ZeroDivisionError.
Proof. unfold get_evaluation. intros ->. by destruct (node_stats nd). Qed.

(** A child of a rollout node that has no rollouts yet gets the score
    [np.inf]. *)
Lemma puct_unvisited s self i cs c child rollout_sum rollout_count child_sum :
  children self = Some cs → cs !! i = Some c → s !! c = Some child →
  node_stats self = RolloutStats rollout_sum rollout_count →
  node_stats child = RolloutStats child_sum (of_Z 0) →
  get_puct_heuristic_for_child exploration d s self i = Ok PInf.
Proof.
  intros Hcs Hi Hc Hself Hchild. unfold get_puct_heuristic_for_child.
  rewrite Hcs; simpl. unfold index, get. rewrite Hi; simpl. rewrite Hc; simpl.
  by rewrite Hself, Hchild.
Qed.

(** A finite score means that the evaluation of the child can be read. *)
Lemma puct_finite_evaluable s self i cs c child puct :
  children self = Some cs → cs !! i = Some c → s !! c = Some child →
  get_puct_heuristic_for_child exploration d s self i = Ok puct →
  isinf puct = false →
  ∃ v, get_evaluation child = Ok v.
Proof.
  intros Hcs Hi Hc. unfold get_puct_heuristic_for_child.
  rewrite Hcs; simpl. unfold index, get. rewrite Hi; simpl. rewrite Hc; simpl.
  unfold get_evaluation.
  destruct (node_stats self), (node_stats child); try done; [|by eauto].
  destruct (num_gtb rollout_count0 (of_Z 0)) eqn:Hpos.
  - intros _ _. rewrite (py_div_nonzero _ _ Hpos).
    destruct (negb (fully_expanded child)); eauto.
  - by intros [= <-].
Qed.

Lemma scan_expansion_safe s self all :
  children self = Some all →
  ∀ cs i best_heuristic best_child,
  drop i all = cs →
  scan_expansion exploration d s self i cs best_heuristic best_child
    ≠ Raise ZeroDivisionError
  ∧ ∀ best, scan_expansion exploration d s self i cs best_heuristic best_child
            = Ok (Scanned best) → Forall (evaluable s) cs.
Proof.
  intros Hall. induction cs as [|c rest IH]; intros i best bc Hdrop; [by split|].
  apply drop_cons_inv in Hdrop as [Hi Hdrop]. simpl.
  destruct (get s c) as [child|e] eqn:Hc; simpl;
    [apply get_Ok in Hc|by apply get_Raise in Hc as ->].
  destruct (fully_expanded child) eqn:Hfe.
  - pose proof (get_evaluation_solved child Hfe).
    destruct (get_evaluation child) as [v|e] eqn:Hv; simpl; [|split; congruence].
    destruct (num_eqb v (optimal_value self)); [done|].
    destruct (IH (S i) best bc Hdrop) as [Hsafe Hscanned].
    split; [done|]. intros b Hb. constructor; [by exists child, v|eauto].
  - destruct (get_puct_heuristic_for_child exploration d s self i)
      as [puct|e] eqn:Hpuct; simpl.
    2:{ split; [|done]. intros [= ->]. revert Hpuct.
        unfold get_puct_heuristic_for_child, index, get.
        rewrite Hall; simpl. rewrite Hi; simpl. rewrite Hc; simpl.
        destruct (node_stats self), (node_stats child); try done.
        destruct policy; simpl; [|done]. by destruct (l !! i). }
    destruct (isinf puct) eqn:Hinf; [done|].
    destruct (puct_finite_evaluable _ _ _ _ _ _ _ Hall Hi Hc Hpuct Hinf)
      as [v Hv].
    rewrite Hv; simpl.
    assert (∀ b bc', scan_expansion exploration d s self (S i) rest b bc'
              ≠ Raise ZeroDivisionError
            ∧ ∀ best', scan_expansion exploration d s self (S i) rest b bc'
                       = Ok (Scanned best') → Forall (evaluable s) (c :: rest))
      as Hnext.
    { intros b bc'. destruct (IH (S i) b bc' Hdrop) as [Hsafe Hscanned].
      split; [done|]. intros b' Hb'. constructor; [by exists child, v|eauto]. }
    destruct (is_maximizing self).
    + destruct (num_gtb (num_add v puct) best); apply Hnext.
    + destruct (num_ltb (num_sub v puct) best); apply Hnext.
Qed.

Lemma minimax_of_children_safe s self cs :
  Forall (evaluable s) cs →
  minimax_of_children s self cs ≠ Raise ZeroDivisionError.
Proof.
  intros Hcs. unfold minimax_of_children.
  destruct (mapR_returns (λ c, child ← get s c; get_evaluation child) cs)
    as [vs ->]; simpl.
  - eapply Forall_impl; [exact Hcs|]. intros c (child & v & Hc & Hv).
    exists v. unfold get. by rewrite Hc.
  - by destruct (is_maximizing self), vs.
Qed.

Lemma ensure_children_safe s k moves results :
  ensure_children network_call s k moves results ≠ Raise ZeroDivisionError.
Proof.
  unfold ensure_children, get. destruct (s !! k) as [self|]; simpl; [|done].
  destruct (children self); [done|].
  destruct (node_stats self); [done|].
  destruct results; simpl; [done|]. by case_bool_decide.
Qed.

Lemma choose_expansion_node_safe fuel s k :
  choose_expansion_node exploration d network_call fuel s k
  ≠ Raise ZeroDivisionError.
Proof.
  revert s k. induction fuel as [|fuel IH]; intros s k; [done|].
  simpl.
  destruct (get s k) as [self|e] eqn:Hk; simpl;
    [|by apply get_Raise in Hk as ->].
  destruct (fully_expanded self); [done|].
  destruct (num_eqb (count_expansions self) (of_Z 0)); [done|].
  pose proof (ensure_children_safe s k None None).
  destruct (ensure_children network_call s k None None) as [s1|e] eqn:Hs1;
    simpl; [|congruence].
  destruct (get s1 k) as [self1|e] eqn:Hk1; simpl;
    [|by apply get_Raise in Hk1 as ->].
  destruct (children self1) as [cs|] eqn:Hcs; simpl; [|done].
  destruct (scan_expansion_safe s1 self1 cs Hcs cs 0
              (worst (is_maximizing self1)) None (drop_0 _))
    as [Hsafe Hscanned].
  destruct (scan_expansion _ _ _ _ _ _ _ _) as [[|c|[best|]]|e]; simpl;
    [| | | |congruence].
  - destruct (parent self1); [apply IH|done].
  - done.
  - apply IH.
  - pose proof (minimax_of_children_safe s1 self1 cs (Hscanned _ eq_refl)).
    destruct (minimax_of_children s1 self1 cs); simpl; [|congruence].
    destruct (parent self1); [apply IH|done].
Qed.

(** A child of a rollout node that is not solved and has no rollouts yet ends
    the loop: it is returned, and its evaluation is not read. *)
Lemma scan_expansion_unvisited s self i cs c rest child
    rollout_sum rollout_count child_sum best_heuristic best_child :
  children self = Some cs → cs !! i = Some c → s !! c = Some child →
  fully_expanded child = false →
  node_stats self = RolloutStats rollout_sum rollout_count →
  node_stats child = RolloutStats child_sum (of_Z 0) →
  scan_expansion exploration d s self i (c :: rest) best_heuristic best_child
  = Ok (Unvisited c).
Proof.
  intros Hcs Hi Hc Hfe Hself Hchild. simpl.
  rewrite (proj2 (get_Ok _ _ _) Hc); simpl. rewrite Hfe.
  by rewrite (puct_unvisited _ _ _ _ _ _ _ _ _ Hcs Hi Hc Hself Hchild).
Qed.

(** *** Proof closure *)

Lemma num_eqb_eq a b : num_eqb a b = true → a = b.
Proof.
  destruct a, b; unfold num_eqb; try done.
  by intros ->%bool_decide_eq_true.
Qed.

Lemma num_leb_not_gtb a b : num_leb a b = true → num_gtb a b = false.
Proof.
  unfold num_leb, num_gtb. intros [Hlt|Heq]%orb_true_iff.
  - by apply num_ltb_asym.
  - apply num_eqb_eq in Heq as ->. apply num_ltb_irrefl.
Qed.

Lemma num_leb_neq_ltb a b : num_leb a b = true → a ≠ b → num_ltb a b = true.
Proof.
  unfold num_leb. intros [Hlt|Heq]%orb_true_iff Hne; [done|].
  by apply num_eqb_eq in Heq.
Qed.

Lemma foldl_max_bounded M l m :
  num_leb m M = true → Forall (λ v, num_leb v M = true) l →
  m = M ∨ M ∈ l →
  foldl (λ m y, if num_gtb y m then y else m) m l = M.
Proof.
  intros Hm Hl. revert m Hm. induction Hl as [|y l Hy _ IH]; intros m Hm HM.
  - destruct HM as [->|HM]; [done|]. by apply elem_of_nil in HM.
  - simpl. destruct (decide (m = M)) as [->|Hne].
    + rewrite (num_leb_not_gtb _ _ Hy). apply IH; auto.
    + destruct HM as [->|[->|HM]%elem_of_cons]; [done| |].
      * unfold num_gtb. rewrite (num_leb_neq_ltb _ _ Hm Hne). apply IH; auto.
      * destruct (num_gtb y m); apply IH; auto.
Qed.

Lemma foldl_min_bounded M l m :
  num_leb M m = true → Forall (λ v, num_leb M v = true) l →
  m = M ∨ M ∈ l →
  foldl (λ m y, if num_ltb y m then y else m) m l = M.
Proof.
  intros Hm Hl. revert m Hm. induction Hl as [|y l Hy _ IH]; intros m Hm HM.
  - destruct HM as [->|HM]; [done|]. by apply elem_of_nil in HM.
  - simpl. destruct (decide (m = M)) as [->|Hne].
    + rewrite (num_leb_not_gtb _ _ Hy : num_ltb y M = false). apply IH; auto.
    + destruct HM as [->|[->|HM]%elem_of_cons]; [done| |].
      * rewrite (num_leb_neq_ltb _ _ Hm); [apply IH; auto|congruence].
      * destruct (num_ltb y m); apply IH; auto.
Qed.

Lemma num_max_bounded M vs :
  M ∈ vs → Forall (λ v, num_leb v M = true) vs → num_max vs = Ok M.
Proof.
  destruct vs as [|x l]; [by intros ?%elem_of_nil|].
  intros HM [Hx Hl]%Forall_cons. unfold num_max. f_equal.
  apply foldl_max_bounded; [done..|].
  apply elem_of_cons in HM as [->|HM]; auto.
Qed.

Lemma num_min_bounded M vs :
  M ∈ vs → Forall (λ v, num_leb M v = true) vs → num_min vs = Ok M.
Proof.
  destruct vs as [|x l]; [by intros ?%elem_of_nil|].
  intros HM [Hx Hl]%Forall_cons. unfold num_min. f_equal.
  apply foldl_min_bounded; [done..|].
  apply elem_of_cons in HM as [->|HM]; auto.
Qed.

(** Over solved children the loop ends in [Closed] when one of them has the
    optimal value, and finds no child to descend into otherwise. *)
Lemma scan_expansion_all_solved s self cs vs :
  Forall2 (solved_with s) cs vs →
  ∀ i best_heuristic best_child,
  scan_expansion exploration d s self i cs best_heuristic best_child
  = Ok (if existsb (λ v, num_eqb v (optimal_value self)) vs
        then Closed else Scanned best_child).
Proof.
  induction 1 as [|c v cs vs (child & Hc & Hfe & Hv) _ IH]; intros i best bc;
    [done|].
  simpl. rewrite (proj2 (get_Ok _ _ _) Hc); simpl. rewrite Hfe, Hv; simpl.
  destruct (num_eqb v (optimal_value self)); [done|]. apply IH.
Qed.

Lemma minimax_of_solved_children s self cs vs :
  Forall2 (solved_with s) cs vs →
  minimax_of_children s self cs
  = if is_maximizing self then num_max vs else num_min vs.
Proof.
  intros Hcs. unfold minimax_of_children.
  rewrite (mapR_Forall2 _ cs vs); [done|].
  induction Hcs as [|c v cs vs (child & Hc & _ & Hv) _ IH]; constructor; auto.
  by rewrite (proj2 (get_Ok _ _ _) Hc).
Qed.

Lemma ensure_children_present s k self cs moves results :
  s !! k = Some self → children self = Some cs →
  ensure_children network_call s k moves results = Ok s.
Proof.
  intros Hk Hcs. unfold ensure_children.
  rewrite (proj2 (get_Ok _ _ _) Hk); simpl. by rewrite Hcs.
Qed.

(** C4 (proof closure): when every child of a node is solved, one call of
    [choose_expansion_node] on the node marks it solved with the maximum
    (for a maximizing node) or the minimum (for a minimizing node) of the
    values of its children, and goes on with the selection at its parent; at
    the root it returns [None].  The node as marked is [fully_expanded], its
    evaluation is that maximum or minimum, its count is [np.inf], and it is
    the same node otherwise; it is what the store holds at [k] when the
    selection goes on.  The node is one the search has produced: not solved
    yet, expanded at least once, with at least one child, and the values of
    its solved children are values of the game. *)
Theorem proof_closure fuel s k self cs vs :
  s !! k = Some self →
  fully_expanded self = false →
  num_eqb (count_expansions self) (of_Z 0) = false →
  children self = Some cs → cs ≠ [] →
  Forall2 (solved_with s) cs vs → Forall in_range vs →
  ∃ v marked s',
    (if is_maximizing self then num_max vs else num_min vs) = Ok v
    ∧ fully_expanded marked = true
    ∧ get_evaluation marked = Ok v
    ∧ count_expansions marked = PInf
    ∧ position_of marked = position_of self
    ∧ parent marked = parent self
    ∧ children marked = children self
    ∧ is_maximizing marked = is_maximizing self
    ∧ s' !! k = Some marked
    ∧ length s' = length s
    ∧ (∀ x, x ≠ k → s' !! x = s !! x)
    ∧ choose_expansion_node exploration d network_call (S fuel) s k
      = match parent self with
        | Some p => choose_expansion_node exploration d network_call fuel s' p
        | None => Ok (s', None)
        end.
Proof.
  intros Hk Hfe Hcount Hcs Hne Hsolved Hrange.
  assert (k < length s)%nat as Hlt by (by eapply lookup_lt_Some).
  assert (∃ v,
            (if is_maximizing self then num_max vs else num_min vs) = Ok v
            ∧ choose_expansion_node exploration d network_call (S fuel) s k
              = match parent self with
                | Some p =>
                    choose_expansion_node exploration d network_call fuel
                      (<[k := set_fully_expanded v self]> s) p
                | None => Ok (<[k := set_fully_expanded v self]> s, None)
                end) as (v & Hv & Hrun).
  { cbn [choose_expansion_node].
    rewrite (proj2 (get_Ok _ _ _) Hk); simpl. rewrite Hfe, Hcount.
    rewrite (ensure_children_present _ _ _ _ _ _ Hk Hcs); simpl.
    rewrite (proj2 (get_Ok _ _ _) Hk); simpl. rewrite Hcs; simpl.
    rewrite (scan_expansion_all_solved _ _ _ _ Hsolved).
    destruct (existsb _ vs) eqn:Hex.
    - exists (optimal_value self). split; [|done].
      apply existsb_exists in Hex as (v & Hv%list_elem_of_In & Heq).
      apply num_eqb_eq in Heq as ->. unfold optimal_value in *.
      destruct (is_maximizing self).
      + apply num_max_bounded; [done|].
        eapply Forall_impl; [exact Hrange|]. by intros ? [_ ?].
      + apply num_min_bounded; [done|].
        eapply Forall_impl; [exact Hrange|]. by intros ? [? _].
    - rewrite (minimax_of_solved_children _ _ _ _ Hsolved).
      assert (∃ v, (if is_maximizing self then num_max vs else num_min vs)
                   = Ok v) as [v Hv].
      { destruct vs as [|x l]; [by inversion Hsolved; subst|].
        destruct (is_maximizing self); by eexists. }
      exists v. split; [done|]. by rewrite Hv. }
  exists v, (set_fully_expanded v self),
    (<[k := set_fully_expanded v self]> s).
  split; [done|].
  unfold get_evaluation, count_expansions, set_fully_expanded at 1 2 3 4 5 6 7.
  simpl.
  repeat split; try done; try (by destruct (node_stats self)).
  - by apply list_lookup_insert_eq.
  - apply length_insert.
  - intros x Hx. by apply list_lookup_insert_ne.
Qed.

(** *** Backup of [HeuristicNode.expand] *)

Lemma chain_insert s node l a x :
  chain s node l → a ∉ l → chain (<[a := x]> s) node l.
Proof.
  induction 1 as [|n nd l Hn _ IH]; intros Ha; [constructor|].
  apply not_elem_of_cons in Ha as [Hne Ha].
  apply (chain_step _ n nd); [|by apply IH].
  by rewrite list_lookup_insert_ne.
Qed.






Lemma beats_or m a b :
  (m && num_gtb a b) || (negb m && num_ltb a b) = beats m a b.
Proof. destruct m; simpl; [apply orb_false_r|done]. Qed.








(** C10 (no division by zero in a selection descent): in the loop of
    [choose_expansion_node], a child of a rollout node that is not solved and
    has no rollouts yet gets the score [np.inf] and is returned at once,
    before its evaluation is read; and no call of [choose_expansion_node],
    on any node of any store, ends in the division [rollout_sum /
    rollout_count] by zero. *)
Theorem selection_never_divides_by_zero s self i cs c rest child
    rollout_sum rollout_count child_sum best_heuristic best_child :
  children self = Some cs → cs !! i = Some c → s !! c = Some child →
  fully_expanded child = false →
  node_stats self = RolloutStats rollout_sum rollout_count →
  node_stats child = RolloutStats child_sum (of_Z 0) →
  get_evaluation child = Raise ZeroDivisionError
  ∧ get_puct_heuristic_for_child exploration d s self i = Ok PInf
  ∧ scan_expansion exploration d s self i (c :: rest) best_heuristic best_child
    = Ok (Unvisited c)
  ∧ ∀ fuel s' k,
      choose_expansion_node exploration d network_call fuel s' k
      ≠ Raise ZeroDivisionError.
Proof.
  intros Hcs Hi Hc Hfe Hself Hchild. split; [|split; [|split]].
  - unfold get_evaluation. by rewrite Hchild, Hfe.
  - by eapply puct_unvisited.
  - by eapply scan_expansion_unvisited.
  - intros fuel s' k. apply choose_expansion_node_safe.
Qed.

(** *** Weights of the best-move policy *)

Lemma get_evaluation_solved_value nd :
  fully_expanded nd = true → get_evaluation nd = Ok (solved_value nd).
Proof.
  unfold get_evaluation, solved_value. intros ->.
  by destruct (node_stats nd).
Qed.

Lemma argmax_from_bound l :
  ∀ i best_i best, (best_i < i)%nat →
  (argmax_from i best_i best l < i + length l)%nat.
Proof.
  induction l as [|x l IH]; intros i bi b Hbi; simpl; [lia|].
  destruct (is_nan b); [lia|].
  destruct (is_nan x || num_gtb x b).
  - specialize (IH (S i) i x). lia.
  - specialize (IH (S i) bi b). lia.
Qed.

Lemma argmax_bound l : l ≠ [] → ∃ i, argmax l = Ok i ∧ (i < length l)%nat.
Proof.
  destruct l as [|x l]; [done|]. intros _. eexists. split; [done|].
  pose proof (argmax_from_bound l 1 0 x). simpl. lia.
Qed.

Lemma num_gtb_nan_r w m : is_nan m = true → num_gtb w m = false.
Proof. by destruct m, w. Qed.

Lemma argmax_from_first l :
  ∀ pre best_i best,
  pre !! best_i = Some best → first_maximum pre best_i →
  first_maximum (pre ++ l) (argmax_from (length pre) best_i best l).
Proof.
  induction l as [|x l IH]; intros pre bi b Hbi Hpre; simpl.
  { by rewrite app_nil_r. }
  destruct Hpre as (m & Hm & Hmax & Hnan & Hfirst).
  assert (m = b) as -> by congruence.
  assert (bi < length pre)%nat as Hlt by (by eapply lookup_lt_Some).
  destruct (is_nan b) eqn:Hb.
  { exists b. split; [by rewrite lookup_app_l|].
    split; [intros; by apply num_gtb_nan_r|]. split; [congruence|].
    intros j w Hj Hw. rewrite lookup_app_l in Hw by lia.
    split; [by apply (Hfirst j w)|congruence]. }
  specialize (Hnan eq_refl).
  replace (pre ++ x :: l) with ((pre ++ [x]) ++ l) by (by rewrite <- app_assoc).
  replace (S (length pre)) with (length (pre ++ [x]))
    by (rewrite length_app; simpl; lia).
  destruct (is_nan x || num_gtb x b) eqn:Hx.
  - assert ((pre ++ [x]) !! length pre = Some x) as Hlast.
    { rewrite lookup_app_r by lia. by rewrite Nat.sub_diag. }
    apply IH; [done|]. exists x. split; [done|].
    assert (∀ j w, pre !! j = Some w →
              num_gtb w x = false
              ∧ (is_nan x = false → num_ltb w x = true)) as Hbelow.
    { intros j w Hw. pose proof (Hmax j w Hw) as Hwb.
      pose proof (Hnan j w Hw) as Hwn.
      destruct (is_nan x) eqn:Hxn; [split; [by apply num_gtb_nan_r|intros ?; discriminate]|].
      simpl in Hx. unfold num_gtb in *. split.
      - destruct (num_ltb x w) eqn:Hxw; [|done].
        by rewrite (num_ltb_trans _ _ _ Hx Hxw) in Hwb.
      - intros _. destruct (num_ltb_cotrans _ _ w Hwn Hx); congruence. }
    split; [|split].
    + intros j w [Hw|[_ Hw]]%lookup_app_Some; [by apply (Hbelow j w)|].
      destruct (j - length pre)%nat; [|done]. injection Hw as <-.
      apply num_ltb_irrefl.
    + intros Hxn j w [Hw|[_ Hw]]%lookup_app_Some; [by eapply Hnan|].
      destruct (j - length pre)%nat; [|done]. by injection Hw as <-.
    + intros j w Hj Hw. rewrite lookup_app_l in Hw by lia.
      split; [by eapply Hnan|]. by apply (Hbelow j w).
  - apply orb_false_iff in Hx as [Hxn Hx]. apply IH.
    { by rewrite lookup_app_l. }
    exists b. split; [by rewrite lookup_app_l|]. split; [|split].
    + intros j w [Hw|[_ Hw]]%lookup_app_Some; [by eapply Hmax|].
      destruct (j - length pre)%nat; [|done]. by injection Hw as <-.
    + intros _ j w [Hw|[_ Hw]]%lookup_app_Some; [by eapply Hnan|].
      destruct (j - length pre)%nat; [|done]. by injection Hw as <-.
    + intros j w Hj Hw. rewrite lookup_app_l in Hw by lia.
      destruct (Hfirst j w Hj Hw) as [Hwn Hwb]. split; [done|].
      intros _. by apply Hwb.
Qed.

(** [np.argmax] returns the index of the first maximum, or of the first NaN. *)
Lemma argmax_first l : l ≠ [] → ∃ r, argmax l = Ok r ∧ first_maximum l r.
Proof.
  destruct l as [|x l]; [done|]. intros _. eexists. split; [done|].
  apply (argmax_from_first l [x] 0 x); [done|].
  exists x. split; [done|]. split; [|split].
  - intros [|j] w; [|done]. intros [= <-]. apply num_ltb_irrefl.
  - intros Hx [|j] w; [|done]. by intros [= <-].
  - intros j w Hj. lia.
Qed.

(** What the weight of a child is, when the node is not solved. *)
Lemma unsolved_weight_cases s self c child evaluation :
  s !! c = Some child → get_evaluation self = Ok evaluation →
  ∃ w, unsolved_weight s self c = Ok w
       ∧ (fully_expanded child = false → w = count_expansions child)
       ∧ (fully_expanded child = true →
          num_eqb (solved_value child) (num_opp (optimal_value self)) = true →
          w = of_Z 0)
       ∧ (fully_expanded child = true →
          num_eqb (solved_value child) (num_opp (optimal_value self)) = false →
          w = num_mul (count_expansions self)
                (num_sub (of_Z 1) (winning_chance self evaluation))).
Proof.
  intros Hc Hself. unfold unsolved_weight.
  rewrite (proj2 (get_Ok _ _ _) Hc); simpl.
  destruct (fully_expanded child) eqn:Hfe; simpl.
  - rewrite (get_evaluation_solved_value _ Hfe); simpl.
    destruct (num_eqb (solved_value child) _); [by eexists|].
    rewrite Hself; simpl. by eexists.
  - by eexists.
Qed.

Lemma unsolved_weights_spec s self cs evaluation :
  get_evaluation self = Ok evaluation →
  Forall (λ c, is_Some (s !! c)) cs →
  ∃ ws, mapR (unsolved_weight s self) cs = Ok ws
        ∧ Forall2 (λ c w, ∃ child,
            s !! c = Some child
            ∧ (fully_expanded child = false → w = count_expansions child)
            ∧ (fully_expanded child = true →
               num_eqb (solved_value child) (num_opp (optimal_value self))
               = true → w = of_Z 0)
            ∧ (fully_expanded child = true →
               num_eqb (solved_value child) (num_opp (optimal_value self))
               = false →
               w = num_mul (count_expansions self)
                     (num_sub (of_Z 1) (winning_chance self evaluation))))
            cs ws.
Proof.
  intros Hself. induction 1 as [|c cs [child Hc] _ (ws & Hws & IH)].
  - exists []. split; [done|constructor].
  - destruct (unsolved_weight_cases s self c child evaluation Hc Hself)
      as (w & Hw & Hcases).
    exists (w :: ws). simpl. rewrite Hw, Hws. split; [done|].
    constructor; [by exists child|done].
Qed.

(** C2, as amended (weights of the best-move policy at a node that is not
    solved): a child solved as a loss for the mover gets the weight 0; a
    child that is not solved gets its own [count_expansions()], not scaled;
    a child solved with another value gets the [count_expansions()] of the
    node itself times [1 - winning_chance], where [winning_chance] is
    [(evaluation * sign) / 2 + 1/2] for the evaluation of the node itself.
    The distribution is each weight divided by the sum of the weights, and
    the chosen child is one of the children: the one at the arg-max of the
    distribution, where no entry of the distribution is greater and every
    entry before it is smaller (with a NaN in the distribution, as when the
    weights sum to 0, [np.argmax] picks the first NaN). *)
Theorem unsolved_node_weights (np_exp : num → num) fuel s k self cs evaluation :
  s !! k = Some self → fully_expanded self = false →
  children self = Some cs → cs ≠ [] →
  get_evaluation self = Ok evaluation →
  Forall (λ c, is_Some (s !! c)) cs →
  ∃ ws best,
    weights np_exp fuel s self = Ok ws
    ∧ Forall2 (λ c w, ∃ child,
        s !! c = Some child
        ∧ (fully_expanded child = false → w = count_expansions child)
        ∧ (fully_expanded child = true →
           num_eqb (solved_value child) (num_opp (optimal_value self)) = true →
           w = of_Z 0)
        ∧ (fully_expanded child = true →
           num_eqb (solved_value child) (num_opp (optimal_value self)) = false →
           w = num_mul (count_expansions self)
                 (num_sub (of_Z 1) (winning_chance self evaluation))))
        cs ws
    ∧ choose_best_node np_exp fuel s k
      = Ok (best, (λ w, np_div w (num_sum ws)) <$> ws)
    ∧ best ∈ cs
    ∧ ∃ idx, cs !! idx = Some best
             ∧ first_maximum ((λ w, np_div w (num_sum ws)) <$> ws) idx.
Proof.
  intros Hk Hfe Hcs Hne Hself Hall.
  destruct (unsolved_weights_spec s self cs evaluation Hself Hall)
    as (ws & Hws & Hspec).
  assert (weights np_exp fuel s self = Ok ws) as Hweights.
  { unfold weights. rewrite Hcs; simpl. by rewrite Hfe. }
  assert (length ws = length cs) as Hlen by (symmetry; by eapply Forall2_length).
  destruct (argmax_first (normalize ws)) as (idx & Hidx & Hfirst).
  { unfold normalize. destruct ws; [by destruct cs|done]. }
  assert (idx < length cs)%nat as Hlt.
  { destruct Hfirst as (m & Hm%lookup_lt_Some & _).
    unfold normalize in Hm. by rewrite length_fmap, Hlen in Hm. }
  destruct (lookup_lt_is_Some_2 cs idx Hlt) as [best Hbest].
  exists ws, best. split; [done|]. split; [done|]. split; [|split].
  - unfold choose_best_node. rewrite (proj2 (get_Ok _ _ _) Hk); simpl.
    rewrite Hweights; simpl. rewrite Hidx; simpl. rewrite Hcs; simpl.
    unfold index. by rewrite Hbest.
  - by eapply list_elem_of_lookup_2.
  - by exists idx.
Qed.

End NodeProperties.

(** ** Evaluation on concrete stores *)

(** Decides a closed equation between results of the model. *)
Ltac evaluate := refine (bool_decide_unpack _ _); vm_compute; exact I.

(** C1 (merge additivity): merging the clones (count 15, sum 5) and (count
    20, sum 6) into the baseline (count 10, sum 3) gives count 25, as the
    claim says, and leaves the sum at 3, where the claim says 8:
    [rollout_count] is updated first, and the clones that contribute to
    [rollout_sum] are selected against the updated count, which no clone
    exceeds. *)
Theorem rollout_merge_example :
  merge 1 merge_example 0 [1%nat; 2%nat]
  = Ok [rollout_leaf 3 25; rollout_leaf 5 15; rollout_leaf 6 20].
Proof. evaluate. Qed.

(** C9 (contract errors of [expand]): [HeuristicNode.expand] raises on a
    solved (here terminal) node, and [RolloutNode.expand] does not: on the
    solved root of a rollout search it returns, and the proven value [-1] of
    the root has become [-2]. *)
Theorem rollout_expand_accepts_solved_node :
  HeuristicNode_expand blind_network 1 solved_heuristic_root 0 None None
  = Raise (Exception "Node is terminal!")
  ∧ get solved_rollout_root 0
    = Ok (Node (0%nat, true) None None true true
            (RolloutStats (of_Z (-1)) PInf))
  ∧ RolloutNode_expand (of_Z 1) 1 solved_rollout_root 0 [of_Z (-1)]
    = Ok [Node (0%nat, true) None None true true
            (RolloutStats (of_Z (-2)) PInf)].
Proof. repeat split; evaluate. Qed.

(** C7 (merge of heuristic nodes): [HeuristicNode.merge] raises on a node
    without children: after [merge_children_clones] has returned, the
    maximum over [self.children], which is [None], is taken.  The merge of a
    node with children reaches such a node and raises there. *)
Theorem heuristic_merge_raises :
  merge 1 [heuristic_leaf (4%nat, true) None 0] 0 [] = Raise TypeError
  ∧ merge 2
      [Node (4%nat, true) None (Some [1%nat; 2%nat]) false true
         (HeuristicStats (of_Z 0) (Some []) (of_Z 1));
       heuristic_leaf (3%nat, false) (Some 0%nat) 1;
       heuristic_leaf (2%nat, false) (Some 0%nat) 0]
      0 []
    = Raise TypeError.
Proof. split; evaluate. Qed.

(** ** The theorems at concrete inputs *)

Lemma alpha_beta_equivalence_witness :
  choose_move pile_heuristic 3 (of_Z 3) (4%nat, true)
  = unpruned_choose_move pile_heuristic 3 (of_Z 3) (4%nat, true)
  ∧ (is_over (4%nat, true) = false →
     returns (unpruned_choose_move pile_heuristic 3 (of_Z 3) (4%nat, true))).
Proof.
  apply (alpha_beta_equivalence pile_heuristic).
  - intros [? []]; reflexivity.
  - intros ?; reflexivity.
  - lia.
  - simpl; lia.
Defined.

Lemma proof_closure_witness :
  ∃ v marked s',
    num_max [of_Z (-1); of_Z 0] = Ok v
    ∧ fully_expanded marked = true
    ∧ get_evaluation marked = Ok v
    ∧ count_expansions marked = PInf
    ∧ position_of marked = position_of closure_root
    ∧ parent marked = parent closure_root
    ∧ children marked = children closure_root
    ∧ is_maximizing marked = is_maximizing closure_root
    ∧ s' !! 0%nat = Some marked
    ∧ length s' = length closure_example
    ∧ (∀ x, x ≠ 0%nat → s' !! x = closure_example !! x)
    ∧ choose_expansion_node flat_exploration (of_Z 1) blind_network 1
        closure_example 0
      = Ok (s', None).
Proof.
  apply (proof_closure flat_exploration (of_Z 1) blind_network 0
           closure_example 0 closure_root [1%nat; 2%nat]
           [of_Z (-1); of_Z 0]).
  - reflexivity.
  - reflexivity.
  - vm_compute; reflexivity.
  - reflexivity.
  - discriminate.
  - repeat constructor; eexists; (split; [reflexivity|]); split; reflexivity.
  - repeat constructor; vm_compute; reflexivity.
Defined.


Lemma selection_never_divides_by_zero_witness :
  get_evaluation (RolloutNode (3%nat, false) (Some 0%nat))
  = Raise ZeroDivisionError
  ∧ get_puct_heuristic_for_child flat_exploration (of_Z 1)
      fresh_children_example
      (Node (4%nat, true) None (Some [1%nat; 2%nat]) false true
         (RolloutStats (of_Z 1) (of_Z 1))) 0
    = Ok PInf
  ∧ scan_expansion flat_exploration (of_Z 1) fresh_children_example
      (Node (4%nat, true) None (Some [1%nat; 2%nat]) false true
         (RolloutStats (of_Z 1) (of_Z 1))) 0 [1%nat; 2%nat] NInf None
    = Ok (Unvisited 1%nat)
  ∧ ∀ fuel s' k,
      choose_expansion_node flat_exploration (of_Z 1) blind_network fuel s' k
      ≠ Raise ZeroDivisionError.
Proof.
  apply (selection_never_divides_by_zero flat_exploration (of_Z 1)
           blind_network fresh_children_example
           (Node (4%nat, true) None (Some [1%nat; 2%nat]) false true
              (RolloutStats (of_Z 1) (of_Z 1)))
           0 [1%nat; 2%nat] 1 [2%nat]
           (RolloutNode (3%nat, false) (Some 0%nat))
           (of_Z 1) (of_Z 1) (of_Z 0) NInf None); reflexivity.
Defined.

(** C2, as stated, fails: at a root with evaluation [1/2] (a favourable
    position) the child that is not solved gets its 4 expansions as weight,
    not scaled by the factor [3/4], and the child solved as a draw gets
    [10 * (1 - 3/4) = 5/2], a multiple of the count of the root: no multiple
    of its own count, which is infinite. *)
Lemma unsolved_node_weights_counterexample :
  weights id 0 weights_example weights_root = Ok [of_Z 4; Fin (Q2Qc (5 # 2))]
  ∧ mapR (claimed_weight weights_example weights_root) [1%nat; 2%nat]
    = Ok [of_Z 3; PInf]
  ∧ weights id 0 weights_example weights_root
    ≠ mapR (claimed_weight weights_example weights_root) [1%nat; 2%nat]
  ∧ count_expansions (Node (2%nat, false) (Some 0%nat) None true false
                        (RolloutStats (of_Z 0) PInf)) = PInf
  ∧ ∀ factor, num_mul PInf factor ≠ Fin (Q2Qc (5 # 2)).
Proof.
  split; [evaluate|]. split; [evaluate|]. split; [evaluate|].
  split; [done|].
  intros [q| | |]; unfold num_mul; repeat case_bool_decide; done.
Qed.

Lemma unsolved_node_weights_witness :
  ∃ ws best,
    weights id 0 weights_example weights_root = Ok ws
    ∧ Forall2 (λ c w, ∃ child,
        weights_example !! c = Some child
        ∧ (fully_expanded child = false → w = count_expansions child)
        ∧ (fully_expanded child = true →
           num_eqb (solved_value child) (num_opp (optimal_value weights_root))
           = true → w = of_Z 0)
        ∧ (fully_expanded child = true →
           num_eqb (solved_value child) (num_opp (optimal_value weights_root))
           = false →
           w = num_mul (count_expansions weights_root)
                 (num_sub (of_Z 1)
                    (winning_chance weights_root (Fin (1 / 2)%Qc)))))
        [1%nat; 2%nat] ws
    ∧ choose_best_node id 0 weights_example 0
      = Ok (best, (λ w, np_div w (num_sum ws)) <$> ws)
    ∧ best ∈ [1%nat; 2%nat]
    ∧ ∃ idx, [1%nat; 2%nat] !! idx = Some best
             ∧ first_maximum ((λ w, np_div w (num_sum ws)) <$> ws) idx.
Proof.
  apply (unsolved_node_weights id 0 weights_example 0 weights_root
           [1%nat; 2%nat] (Fin (1 / 2)%Qc)).
  - reflexivity.
  - reflexivity.
  - reflexivity.
  - discriminate.
  - evaluate.
  - repeat constructor; eexists; reflexivity.
Defined.

(** C8 (merge idempotence): on rollout nodes a second merge of the same
    clones changes nothing, here on a baseline that adopts the children of
    its clone; on heuristic nodes there is no result of a first merge to
    compare with, since the first merge raises (see [heuristic_merge_raises]
    for the defect). *)
Theorem merge_twice_example :
  merge 2 adoption_example 0 [1%nat] = Ok adoption_merged
  ∧ merge 2 adoption_merged 0 [1%nat] = Ok adoption_merged
  ∧ merge 2 heuristic_example 0 [] = Raise TypeError.
Proof. repeat split; evaluate. Qed.

(** ** Exact values *)

Section GameValues.
Context {position : Type} `{Game position}.
Hypothesis get_winner_three_valued :
  ∀ p : position, is_over p = true → three_valued (get_winner p).

Lemma foldl_max_elem l m :
  let r := foldl (λ m y, if num_gtb y m then y else m) m l in
  r = m ∨ r ∈ l.
Proof.
  revert m. induction l as [|y l IH]; intros m; simpl; [by left|].
  destruct (IH (if num_gtb y m then y else m)) as [->|Hin].
  - destruct (num_gtb y m); [right; apply elem_of_cons|]; auto.
  - right. apply elem_of_cons. auto.
Qed.

Lemma foldl_min_elem l m :
  let r := foldl (λ m y, if num_ltb y m then y else m) m l in
  r = m ∨ r ∈ l.
Proof.
  revert m. induction l as [|y l IH]; intros m; simpl; [by left|].
  destruct (IH (if num_ltb y m then y else m)) as [->|Hin].
  - destruct (num_ltb y m); [right; apply elem_of_cons|]; auto.
  - right. apply elem_of_cons. auto.
Qed.

Lemma best_value_elem m vs v : best_value m vs = Ok v → v ∈ vs.
Proof.
  unfold best_value, num_max, num_min.
  destruct m, vs as [|x l]; try done; intros [= <-]; apply elem_of_cons.
  - apply foldl_max_elem.
  - apply foldl_min_elem.
Qed.

Lemma three_valued_in_range v : three_valued v → in_range v.
Proof. by intros [-> | [-> | ->]]; split; vm_compute. Qed.

Lemma three_valued_finite v : three_valued v → finite v.
Proof. intros [-> | [-> | ->]]; by eexists. Qed.

Lemma optimum_three_valued (p : position) : three_valued (optimum p).
Proof. unfold optimum, three_valued. destruct (is_player_1_turn p); auto. Qed.

(** When one value is the optimal outcome and none is beyond the outcomes of
    the game, the best value is the optimal outcome. *)
Lemma best_value_optimum (m : bool) vs :
  (if m then of_Z 1 else of_Z (-1)) ∈ vs → Forall in_range vs →
  best_value m vs = Ok (if m then of_Z 1 else of_Z (-1)).
Proof.
  intros Hin Hrange. destruct m; simpl.
  - apply num_max_bounded; [done|].
    eapply Forall_impl; [exact Hrange|]. by intros ? [_ ?].
  - apply num_min_bounded; [done|].
    eapply Forall_impl; [exact Hrange|]. by intros ? [? _].
Qed.

Lemma game_value_three_valued (p : position) v :
  game_value p v → three_valued v.
Proof.
  revert p v.
  apply (game_value_mut (λ _ v, three_valued v)
           (λ _ vs, Forall three_valued vs)).
  - intros p Hp. by apply get_winner_three_valued.
  - intros p move _ _ _ _. apply optimum_three_valued.
  - intros p vs v _ _ Hvs Hbest%best_value_elem.
    by eapply Forall_forall in Hvs.
  - constructor.
  - intros. by constructor.
Qed.

Lemma minimax_three_valued fuel (p : position) w :
  minimax fuel p = Ok w → three_valued w.
Proof.
  revert p w. induction fuel as [|fuel IH]; intros p w; [done|]. simpl.
  destruct (is_over p) eqn:Hp.
  - intros [= <-]. by apply get_winner_three_valued.
  - destruct (mapR _ _) as [ws|] eqn:Hws; simpl; [|done].
    intros Hw%best_value_elem. apply mapR_Ok in Hws.
    apply list_elem_of_lookup in Hw as [i Hi].
    destruct (Forall2_lookup_r _ _ _ _ _ Hws Hi) as (m & _ & Hm).
    by eapply IH.
Qed.

(** The value by proof is the value that minimax over the whole tree
    computes, whenever that tree is finite. *)
Lemma game_value_exact fuel :
  ∀ (p : position) v w, game_value p v → minimax fuel p = Ok w → w = v.
Proof.
  induction fuel as [|fuel IH]; intros p v w Hv; [done|]. simpl.
  inversion Hv as [? Hp|? move Hp Hmove Hopt|? vs ? Hp Hvs Hbest]; subst;
    rewrite Hp.
  - by intros [= <-].
  - destruct (mapR _ _) as [ws|] eqn:Hws; simpl; [|done].
    apply mapR_Ok in Hws. intros Hw.
    assert (optimum p ∈ ws) as Hin.
    { apply list_elem_of_lookup in Hmove as [i Hi].
      destruct (Forall2_lookup_l _ _ _ _ _ Hws Hi) as (w' & Hw' & Hrun).
      rewrite (IH _ _ _ Hopt Hrun) in Hw'.
      by eapply list_elem_of_lookup_2. }
    assert (Forall in_range ws) as Hrange.
    { apply Forall_forall. intros w' [i Hi]%list_elem_of_lookup.
      destruct (Forall2_lookup_r _ _ _ _ _ Hws Hi) as (m & _ & Hm).
      by eapply three_valued_in_range, minimax_three_valued. }
    unfold optimum in *.
    rewrite (best_value_optimum _ _ Hin Hrange) in Hw. congruence.
  - destruct (mapR _ _) as [ws|] eqn:Hws; simpl; [|done].
    apply mapR_Ok in Hws. intros Hw.
    assert (ws = vs) as ->; [|congruence].
    clear Hbest Hw Hv. revert ws Hws.
    induction Hvs as [|m v' ms vs' Hm _ IHvs]; intros ws Hws.
    + by inversion Hws.
    + inversion Hws as [|? w' ? ws' Hrun Hrest]; subst.
      f_equal; [by eapply IH|by apply IHvs].
Qed.

End GameValues.

(** ** Solved nodes stay solved *)

Section SearchSoundness.
Context {position : Type} `{Game position}.
Variable exploration : num → num → num.
Variable d : num.
Variable network_call : list position → list (list num * num).
Variable rollout_batch_size : num.

(** The contracts of the game and of the evaluator, and the parameters of a
    search: terminal outcomes are [-1], [0] or [1]; the network returns one
    result for each position, made of finite numbers; the exploration term
    is a number; [d] is finite. *)
Hypothesis get_winner_three_valued :
  ∀ p : position, is_over p = true → three_valued (get_winner p).
Hypothesis network_call_length :
  ∀ ps, length (network_call ps) = length ps.
Hypothesis network_call_finite :
  ∀ ps, Forall (λ r, Forall finite r.1 ∧ finite r.2) (network_call ps).
Hypothesis exploration_not_nan : ∀ N n, is_nan (exploration N n) = false.
Hypothesis d_finite : finite d.

Implicit Types (s : list (node position)) (self child nd : node position).

(** *** The effect of [ensure_children] *)

Lemma ensure_children_Ok s k s1 :
  ensure_children network_call s k None None = Ok s1 →
  ∃ self, s !! k = Some self
    ∧ ((is_Some (children self) ∧ s1 = s)
       ∨ (children self = None
          ∧ ∃ new st,
              s1 = <[k := set_stats st
                             (set_children
                                (Some (seq (length s) (length new))) self)]>
                     (s ++ new)
              ∧ match node_stats self with
                | RolloutStats _ _ =>
                    st = node_stats self
                    ∧ new = (λ move, RolloutNode move (Some k))
                              <$> get_possible_moves (position_of self)
                | HeuristicStats heuristic policy _ =>
                    st = HeuristicStats heuristic policy (of_Z 1)
                    ∧ new = (λ mr, HeuristicNode mr.1 (Some k) mr.2)
                              <$> zip (get_possible_moves (position_of self))
                                      (network_call
                                         (get_possible_moves
                                            (position_of self)))
                end)).
Proof.
  unfold ensure_children.
  destruct (get s k) as [self|] eqn:Hk; simpl; [|done].
  apply get_Ok in Hk. intros Hrun. exists self. split; [done|].
  destruct (children self) as [cs|]; [left; split; [by eexists|congruence]|].
  right. split; [done|].
  destruct (node_stats self) as [rs rc|h pol e] eqn:Hstats.
  - injection Hrun as <-. eexists _, _. split; [reflexivity|]. by split.
  - simpl in Hrun. case_bool_decide; [done|]. simpl in Hrun.
    injection Hrun as <-. eexists _, _. split; [reflexivity|]. by split.
Qed.

(** [ensure_children] changes no node but [k], and of [k] neither the
    position, nor the parent, nor the flags. *)
Lemma ensure_children_frame s k s1 :
  ensure_children network_call s k None None = Ok s1 →
  (length s ≤ length s1)%nat
  ∧ ∀ x nd, s !! x = Some nd →
      ∃ nd', s1 !! x = Some nd'
             ∧ (x ≠ k → nd' = nd)
             ∧ position_of nd' = position_of nd ∧ parent nd' = parent nd
             ∧ fully_expanded nd' = fully_expanded nd
             ∧ is_maximizing nd' = is_maximizing nd.
Proof.
  intros (self & Hk & [[_ ->]|(Hcs & new & st & -> & _)])%ensure_children_Ok.
  - split; [done|]. intros x nd Hx. by exists nd.
  - split; [rewrite length_insert, length_app; lia|].
    intros x nd Hx.
    assert (x < length s)%nat as Hlt by (by eapply lookup_lt_Some).
    destruct (decide (x = k)) as [->|Hne].
    + eexists. split.
      * apply list_lookup_insert_eq. rewrite length_app. lia.
      * assert (nd = self) as -> by congruence. done.
    + exists nd. rewrite list_lookup_insert_ne by done.
      by rewrite lookup_app_l.
Qed.
(** *** Selection leaves the solved nodes alone *)

Lemma evolves_refl s : evolves s s.
Proof. intros x nd Hx. by exists nd. Qed.

Lemma evolves_trans s1 s2 s3 : evolves s1 s2 → evolves s2 s3 → evolves s1 s3.
Proof.
  intros H12 H23 x nd Hx.
  destruct (H12 x nd Hx) as (nd2 & Hx2 & Hp2 & Hpar2 & Hm2 & Hfe2).
  destruct (H23 x nd2 Hx2) as (nd3 & Hx3 & Hp3 & Hpar3 & Hm3 & Hfe3).
  exists nd3. repeat split; try congruence.
  intros Hfe. rewrite <- (Hfe2 Hfe). apply Hfe3. by rewrite (Hfe2 Hfe).
Qed.

Lemma evolves_insert s k self self' :
  s !! k = Some self → fully_expanded self = false →
  position_of self' = position_of self → parent self' = parent self →
  is_maximizing self' = is_maximizing self →
  evolves s (<[k := self']> s).
Proof.
  intros Hk Hfe Hpos Hpar Hmax x nd Hx.
  assert (x < length s)%nat as Hlt by (by eapply lookup_lt_Some).
  destruct (decide (x = k)) as [->|Hne].
  - assert (nd = self) as -> by congruence.
    exists self'. rewrite list_lookup_insert_eq by done.
    repeat split; try done. congruence.
  - exists nd. by rewrite list_lookup_insert_ne.
Qed.

Lemma evolves_ensure_children s k self s1 :
  s !! k = Some self → fully_expanded self = false →
  ensure_children network_call s k None None = Ok s1 → evolves s s1.
Proof.
  intros Hk Hfe [_ Hframe]%ensure_children_frame x nd Hx.
  destruct (Hframe x nd Hx) as (nd' & Hx' & Hsame & Hpos & Hpar & Hfe' & Hmax).
  exists nd'. repeat split; try done.
  intros Hsolved. apply Hsame. intros ->. congruence.
Qed.

Lemma evolves_length s s' : evolves s s' → (length s ≤ length s')%nat.
Proof.
  intros Hev. destruct (decide (length s ≤ length s')%nat) as [|Hgt]; [done|].
  destruct (lookup_lt_is_Some_2 s (length s')) as [nd Hnd]; [lia|].
  destruct (Hev _ _ Hnd) as (nd' & Hnd' & _).
  apply lookup_lt_Some in Hnd'. lia.
Qed.

(** Whatever the store and the node it starts at, a selection does not
    change a solved node; no node moves or disappears. *)
Lemma choose_expansion_node_evolves fuel :
  ∀ s k s' r,
  choose_expansion_node exploration d network_call fuel s k = Ok (s', r) →
  evolves s s'.
Proof.
  induction fuel as [|fuel IH]; intros s k s' r; [done|]. simpl.
  destruct (get s k) as [self|] eqn:Hk; simpl; [|done]. apply get_Ok in Hk.
  destruct (fully_expanded self) eqn:Hfe.
  { intros [= <- _]. apply evolves_refl. }
  destruct (num_eqb (count_expansions self) (of_Z 0)).
  { intros [= <- _]. apply evolves_refl. }
  destruct (ensure_children network_call s k None None) as [s1|] eqn:Hs1;
    simpl; [|done].
  pose proof (evolves_ensure_children _ _ _ _ Hk Hfe Hs1) as Hev1.
  destruct (get s1 k) as [self1|] eqn:Hk1; simpl; [|done]. apply get_Ok in Hk1.
  assert (fully_expanded self1 = false) as Hfe1.
  { apply ensure_children_frame in Hs1 as [_ Hframe].
    destruct (Hframe _ _ Hk) as (nd' & Hnd' & _ & _ & _ & Hfe' & _).
    congruence. }
  destruct (children self1) as [cs|]; simpl; [|done].
  assert (∀ v, evolves s (<[k := set_fully_expanded v self1]> s1)) as Hev2.
  { intros v. eapply evolves_trans; [exact Hev1|].
    by eapply evolves_insert. }
  destruct (scan_expansion _ _ _ _ _ _ _ _) as [[|c|[best|]]|]; simpl;
    [| | | |done].
  - destruct (parent self1).
    + intros Hrun. eapply evolves_trans; [apply Hev2|by eapply IH].
    + intros [= <- _]. apply Hev2.
  - by intros [= <- _].
  - intros Hrun. eapply evolves_trans; [exact Hev1|by eapply IH].
  - destruct (minimax_of_children s1 self1 cs) as [v|]; simpl; [|done].
    destruct (parent self1).
    + intros Hrun. eapply evolves_trans; [apply Hev2|by eapply IH].
    + intros [= <- _]. apply Hev2.
Qed.

(** *** How the loop of the selection ends *)

Lemma scan_expansion_Closed s self cs :
  ∀ i best_heuristic best_child,
  scan_expansion exploration d s self i cs best_heuristic best_child
  = Ok Closed →
  ∃ c child, c ∈ cs ∧ s !! c = Some child ∧ fully_expanded child = true
             ∧ solved_value child = optimal_value self.
Proof.
  induction cs as [|c cs IH]; intros i best bc; [done|]. simpl.
  destruct (get s c) as [child|] eqn:Hc; simpl; [|done]. apply get_Ok in Hc.
  assert (∀ i best bc,
            scan_expansion exploration d s self i cs best bc = Ok Closed →
            ∃ c' child', c' ∈ c :: cs ∧ s !! c' = Some child'
              ∧ fully_expanded child' = true
              ∧ solved_value child' = optimal_value self) as Hnext.
  { intros i' best' bc' (c' & child' & Hin & Hrest)%IH.
    exists c', child'. split; [apply elem_of_cons; auto|done]. }
  destruct (fully_expanded child) eqn:Hfe.
  - rewrite (get_evaluation_solved_value _ Hfe). simpl.
    destruct (num_eqb (solved_value child) (optimal_value self)) eqn:Heq;
      [|apply Hnext].
    intros _. exists c, child. split; [apply elem_of_cons; auto|].
    by apply num_eqb_eq in Heq.
  - destruct (get_puct_heuristic_for_child _ _ _ _ _) as [puct|]; simpl;
      [|done].
    destruct (isinf puct); [done|].
    destruct (get_evaluation child) as [ev|]; simpl; [|done].
    destruct (is_maximizing self).
    + destruct (num_gtb _ _); apply Hnext.
    + destruct (num_ltb _ _); apply Hnext.
Qed.

Lemma scan_expansion_Unvisited s self cs :
  ∀ i best_heuristic best_child c,
  scan_expansion exploration d s self i cs best_heuristic best_child
  = Ok (Unvisited c) →
  c ∈ cs ∧ ∃ child, s !! c = Some child ∧ fully_expanded child = false.
Proof.
  induction cs as [|c' cs IH]; intros i best bc c; [done|]. simpl.
  destruct (get s c') as [child|] eqn:Hc; simpl; [|done]. apply get_Ok in Hc.
  assert (∀ i best bc,
            scan_expansion exploration d s self i cs best bc
            = Ok (Unvisited c) →
            c ∈ c' :: cs
            ∧ ∃ child, s !! c = Some child ∧ fully_expanded child = false)
    as Hnext.
  { intros i' best' bc' [Hin Hrest]%IH. split; [apply elem_of_cons; auto|done]. }
  destruct (fully_expanded child) eqn:Hfe.
  - destruct (get_evaluation child) as [ev|]; simpl; [|done].
    destruct (num_eqb ev (optimal_value self)); [done|apply Hnext].
  - destruct (get_puct_heuristic_for_child _ _ _ _ _) as [puct|]; simpl;
      [|done].
    destruct (isinf puct).
    { intros [= <-]. split; [apply elem_of_cons; auto|by exists child]. }
    destruct (get_evaluation child) as [ev|]; simpl; [|done].
    destruct (is_maximizing self).
    + destruct (num_gtb _ _); apply Hnext.
    + destruct (num_ltb _ _); apply Hnext.
Qed.

Lemma scan_expansion_Scanned s self cs :
  ∀ i best_heuristic best_child r,
  scan_expansion exploration d s self i cs best_heuristic best_child
  = Ok (Scanned r) →
  r = best_child
  ∨ ∃ c child, r = Some c ∧ c ∈ cs ∧ s !! c = Some child
               ∧ fully_expanded child = false.
Proof.
  induction cs as [|c cs IH]; intros i best bc r; simpl.
  { intros [= <-]. by left. }
  destruct (get s c) as [child|] eqn:Hc; simpl; [|done]. apply get_Ok in Hc.
  assert (∀ i best,
            scan_expansion exploration d s self i cs best bc
            = Ok (Scanned r) →
            r = bc ∨ ∃ c' child', r = Some c' ∧ c' ∈ c :: cs
                       ∧ s !! c' = Some child'
                       ∧ fully_expanded child' = false) as Hnext.
  { intros i' best' [->|(c' & child' & -> & Hin & Hrest)]%IH; [by left|].
    right. exists c', child'. split; [done|].
    split; [apply elem_of_cons; auto|done]. }
  destruct (fully_expanded child) eqn:Hfe.
  - destruct (get_evaluation child) as [ev|]; simpl; [|done].
    destruct (num_eqb ev (optimal_value self)); [done|apply Hnext].
  - assert (∀ i best,
              scan_expansion exploration d s self i cs best (Some c)
              = Ok (Scanned r) →
              r = bc ∨ ∃ c' child', r = Some c' ∧ c' ∈ c :: cs
                         ∧ s !! c' = Some child'
                         ∧ fully_expanded child' = false) as Hnew.
    { intros i' best' [->|(c' & child' & -> & Hin & Hrest)]%IH; right.
      - exists c, child. split; [done|]. split; [apply elem_of_cons; auto|done].
      - exists c', child'. split; [done|].
        split; [apply elem_of_cons; auto|done]. }
    destruct (get_puct_heuristic_for_child _ _ _ _ _) as [puct|]; simpl;
      [|done].
    destruct (isinf puct); [done|].
    destruct (get_evaluation child) as [ev|]; simpl; [|done].
    destruct (is_maximizing self).
    + destruct (num_gtb _ _); [apply Hnew|apply Hnext].
    + destruct (num_ltb _ _); [apply Hnew|apply Hnext].
Qed.

Lemma finite_not_inf a : is_nan a = false → isinf a = false → finite a.
Proof. destruct a; try done. by eexists. Qed.

(** A finite selection score comes with a finite evaluation of the child. *)
Lemma finite_scores s self all i c child puct ev :
  children self = Some all → all !! i = Some c → s !! c = Some child →
  fully_expanded child = false → sound_stats self → sound_stats child →
  get_puct_heuristic_for_child exploration d s self i = Ok puct →
  isinf puct = false → get_evaluation child = Ok ev →
  finite puct ∧ finite ev.
Proof.
  intros Hall Hi Hc Hfe Hself Hchild.
  unfold get_puct_heuristic_for_child, get_evaluation, index, get.
  rewrite Hall; simpl. rewrite Hi; simpl. rewrite Hc, Hfe; simpl.
  unfold sound_stats in *.
  destruct (node_stats self) as [rs rc|h pol e],
    (node_stats child) as [crs crc|ch cpol ce]; try done.
  - destruct Hchild as [q ->].
    destruct (num_gtb crc (of_Z 0)) eqn:Hpos; [|by intros [= <-]].
    intros [= <-] Hinf. rewrite (py_div_nonzero _ _ Hpos). intros [= <-].
    split; [by apply finite_not_inf|].
    unfold np_div. destruct crc as [y| | |]; try done; [|by eexists].
    case_bool_decide as Hy; [|by eexists].
    subst y. unfold num_gtb, of_Z in Hpos. rewrite Z2Qc_inj_0 in Hpos.
    by rewrite num_ltb_irrefl in Hpos.
  - destruct Hself as [_ (priors & -> & Hpriors)]. simpl.
    destruct (priors !! i) as [prior|] eqn:Hprior; simpl; [|done].
    intros [= <-] Hinf [= <-]. split; [|by destruct Hchild].
    apply (Forall_lookup_1 _ _ _ _ Hpriors) in Hprior as [p ->].
    destruct d_finite as [dq ->].
    pose proof (exploration_not_nan e (num_add ce (of_Z 1))) as Hnan.
    destruct (exploration e (num_add ce (of_Z 1))); try done.
    by eexists.
Qed.

Lemma scan_expansion_keeps_choice s self cs i best_heuristic c :
  scan_expansion exploration d s self i cs best_heuristic (Some c)
  ≠ Ok (Scanned None).
Proof.
  intros [Heq|(c' & child' & Heq & _)]%scan_expansion_Scanned; done.
Qed.

(** When the loop finds no child to descend into, every child is solved. *)
Lemma scan_expansion_none_solved s self all :
  children self = Some all → sound_stats self →
  (∀ c child, c ∈ all → s !! c = Some child →
     fully_expanded child = false → sound_stats child) →
  ∀ cs i, drop i all = cs →
  scan_expansion exploration d s self i cs (worst (is_maximizing self)) None
  = Ok (Scanned None) →
  Forall (solved s) cs.
Proof.
  intros Hall Hself Hchildren.
  induction cs as [|c cs IH]; intros i Hdrop; [constructor|].
  apply drop_cons_inv in Hdrop as [Hi Hdrop]. simpl.
  destruct (get s c) as [child|] eqn:Hc; simpl; [|done]. apply get_Ok in Hc.
  destruct (fully_expanded child) eqn:Hfe.
  - destruct (get_evaluation child) as [ev|]; simpl; [|done].
    destruct (num_eqb ev (optimal_value self)); [done|].
    intros Hrest. constructor; [by exists child|by eapply IH].
  - destruct (get_puct_heuristic_for_child _ _ _ _ _) as [puct|] eqn:Hpuct;
      simpl; [|done].
    destruct (isinf puct) eqn:Hinf; [done|].
    destruct (get_evaluation child) as [ev|] eqn:Hev; simpl; [|done].
    destruct (finite_scores s self all i c child puct ev) as [[p ->] [v ->]];
      try done.
    { eapply Hchildren; [|done..]. by eapply list_elem_of_lookup_2. }
    destruct (is_maximizing self); simpl.
    + replace (num_gtb (num_add (Fin v) (Fin p)) NInf) with true by done.
      intros Hbad. by apply scan_expansion_keeps_choice in Hbad.
    + replace (num_ltb (num_sub (Fin v) (Fin p)) PInf) with true by done.
      intros Hbad. by apply scan_expansion_keeps_choice in Hbad.
Qed.

(** *** The invariant is kept *)

Lemma node_ok_evolves s s' x nd :
  evolves s s' → node_ok s x nd → node_ok s' x nd.
Proof.
  intros Hev [Hmover Hchildren Hparent Hsolved Hunsolved].
  split; try done.
  intros cs Hcs. specialize (Hchildren cs Hcs).
  eapply Forall2_impl; [exact Hchildren|].
  intros c move (child & Hc & Hpos & Hpar).
  destruct (Hev c child Hc) as (child' & Hc' & Hpos' & Hpar' & _).
  exists child'. repeat split; congruence.
Qed.

(** An update of a node that is not solved keeps the invariant, when the
    updated node satisfies it. *)
Lemma search_inv_insert s k self self' :
  search_inv s → s !! k = Some self → fully_expanded self = false →
  position_of self' = position_of self → parent self' = parent self →
  is_maximizing self' = is_maximizing self →
  node_ok (<[k := self']> s) k self' →
  search_inv (<[k := self']> s).
Proof.
  intros Hinv Hk Hfe Hpos Hpar Hmax Hok x nd Hx.
  assert (k < length s)%nat as Hlt by (by eapply lookup_lt_Some).
  destruct (decide (x = k)) as [->|Hne].
  - rewrite list_lookup_insert_eq in Hx by done. by injection Hx as <-.
  - rewrite list_lookup_insert_ne in Hx by done.
    eapply node_ok_evolves; [by eapply evolves_insert|by apply Hinv].
Qed.

Lemma node_ok_same_children s k self self' :
  s !! k = Some self → fully_expanded self = false →
  position_of self' = position_of self → parent self' = parent self →
  is_maximizing self' = is_maximizing self →
  children self' = children self →
  node_ok s k self →
  (fully_expanded self' = true →
   game_value (position_of self') (solved_value self')) →
  (fully_expanded self' = false → sound_stats self') →
  node_ok (<[k := self']> s) k self'.
Proof.
  intros Hk Hfe Hpos Hpar Hmax Hcs Hok Hsolved Hunsolved.
  pose proof (node_ok_evolves _ _ _ _
                (evolves_insert s k self self' Hk Hfe Hpos Hpar Hmax) Hok)
    as [Hmover Hchildren Hparent _ Hover].
  split.
  - by rewrite Hmax, Hpos.
  - rewrite Hcs, Hpos. apply Hchildren.
  - by rewrite Hpar.
  - done.
  - intros Hfe'. split; [|by apply Hunsolved].
    rewrite Hpos. by apply Hover.
Qed.

Lemma evolves_app s new : evolves s (s ++ new).
Proof.
  intros x nd Hx. exists nd. split; [|done].
  rewrite lookup_app_l; [done|]. by eapply lookup_lt_Some.
Qed.

Lemma fresh_child_ok s k new child move x :
  (k < length s)%nat → (length s ≤ x)%nat →
  fresh_child k child move → node_ok (s ++ new) x child.
Proof.
  intros Hk Hx (Hpos & Hpar & Hcs & Hmax & Hfe & Hover & Hstats).
  split.
  - by rewrite Hmax, Hpos.
  - by rewrite Hcs.
  - rewrite Hpar. intros p [= <-]. lia.
  - rewrite Hfe, Hpos. intros Hmove. rewrite (Hover Hmove).
    by apply value_terminal.
  - rewrite Hfe, Hpos. intros Hmove. split; [done|by apply Hstats].
Qed.

Lemma search_inv_app s k new moves :
  search_inv s → (k < length s)%nat →
  Forall2 (fresh_child k) new moves →
  search_inv (s ++ new).
Proof.
  intros Hinv Hk Hnew x nd Hx.
  destruct (decide (x < length s)%nat) as [Hlt|Hge].
  - rewrite lookup_app_l in Hx by done.
    eapply node_ok_evolves; [apply evolves_app|by apply Hinv].
  - rewrite lookup_app_r in Hx by lia.
    destruct (Forall2_lookup_l _ _ _ _ _ Hnew Hx) as (move & _ & Hfresh).
    eapply fresh_child_ok; [done|lia|done].
Qed.

Lemma RolloutNode_fresh k (moves : list position) :
  Forall2 (fresh_child k) ((λ move, RolloutNode move (Some k)) <$> moves)
          moves.
Proof.
  induction moves as [|move moves IH]; constructor; [|done].
  unfold fresh_child, RolloutNode, sound_stats, solved_value. simpl.
  repeat split; try done.
  - by intros ->.
  - intros ->. by eexists.
Qed.

Lemma HeuristicNode_fresh k (moves : list position) results :
  length results = length moves →
  Forall (λ r, Forall finite r.1 ∧ finite r.2) results →
  Forall2 (fresh_child k)
          ((λ mr, HeuristicNode mr.1 (Some k) mr.2) <$> zip moves results)
          moves.
Proof.
  revert results.
  induction moves as [|move moves IH]; intros [|r results] Hlen Hfin;
    simpl in *; try done; try (by constructor).
  apply Forall_cons in Hfin as [[Hpol Hval] Hfin].
  constructor; [|apply IH; [lia|done]].
  unfold fresh_child, HeuristicNode, sound_stats, solved_value. simpl.
  repeat split; try done.
  - by intros ->.
  - intros ->. simpl. split; [done|]. by eexists.
Qed.

(** [ensure_children] keeps the invariant. *)
Lemma ensure_children_inv s k self s1 :
  search_inv s → s !! k = Some self → fully_expanded self = false →
  ensure_children network_call s k None None = Ok s1 →
  search_inv s1.
Proof.
  intros Hinv Hk Hfe Hrun.
  destruct (ensure_children_Ok _ _ _ Hrun)
    as (self' & Hk' & [[_ ->]|(Hcs & new & st & -> & Hnew)]); [done|].
  assert (self' = self) as -> by congruence.
  assert (k < length s)%nat as Hlt by (by eapply lookup_lt_Some).
  set (moves := get_possible_moves (position_of self)) in *.
  assert (Forall2 (fresh_child k) new moves
          ∧ (sound_stats self →
             sound_stats (set_stats st
                            (set_children (Some (seq (length s) (length new)))
                               self)))) as [Hfresh Hstats].
  { unfold sound_stats. simpl.
    destruct (node_stats self) as [rs rc|h pol e].
    - destruct Hnew as [-> ->]. split; [apply RolloutNode_fresh|done].
    - destruct Hnew as [-> ->].
      split; [by apply HeuristicNode_fresh|done]. }
  pose proof (search_inv_app s k new moves Hinv Hlt Hfresh) as Hinv'.
  assert ((s ++ new) !! k = Some self) as Hk2 by (by rewrite lookup_app_l).
  eapply search_inv_insert; try done.
  destruct (Hinv' k self Hk2) as [Hmover _ Hparent _ Hunsolved].
  split; simpl; try done.
  - intros cs [= <-].
    assert (length new = length moves) as Hlen by (by eapply Forall2_length).
    apply Forall2_same_length_lookup_2.
    { by rewrite length_seq. }
    intros i c move [-> Hi]%lookup_seq Hmove.
    destruct (lookup_lt_is_Some_2 new i Hi) as [child Hchild].
    destruct (Forall2_lookup_lr _ _ _ _ _ _ Hfresh Hchild Hmove)
      as (Hpos & Hpar & _).
    exists child. split; [|done].
    rewrite list_lookup_insert_ne by lia.
    rewrite lookup_app_r by lia. by rewrite Nat.add_comm, Nat.add_sub.
  - congruence.
  - intros _. split; [by apply Hunsolved|]. apply Hstats. by apply Hunsolved.
Qed.

(** *** Chains of nodes that are not solved *)

Lemma unsolved_chain_same_flags s s' node :
  (∀ y nd, s !! y = Some nd →
     ∃ nd', s' !! y = Some nd' ∧ parent nd' = parent nd
            ∧ fully_expanded nd' = fully_expanded nd) →
  unsolved_chain s node → unsolved_chain s' node.
Proof.
  intros Hsame. induction 1 as [|n nd Hn Hfe _ IH]; [constructor|].
  destruct (Hsame n nd Hn) as (nd' & Hn' & Hpar & Hfe').
  apply (unsolved_step _ n nd'); [done|congruence|by rewrite Hpar].
Qed.

(** A chain lies below the handle it starts at: an update above it does not
    touch it. *)
Lemma unsolved_chain_below s k self' node :
  search_inv s → unsolved_chain s node →
  (∀ n, node = Some n → (n < k)%nat) →
  unsolved_chain (<[k := self']> s) node.
Proof.
  intros Hinv. induction 1 as [|n nd Hn Hfe _ IH]; intros Hlt; [constructor|].
  specialize (Hlt n eq_refl).
  apply (unsolved_step _ n nd); [|done|].
  - rewrite list_lookup_insert_ne; [done|lia].
  - apply IH. intros p Hp. apply (ok_parent _ _ _ (Hinv n nd Hn)) in Hp. lia.
Qed.

Lemma solved_value_set_fully_expanded v nd :
  solved_value (set_fully_expanded v nd) = v.
Proof. unfold solved_value, set_fully_expanded. simpl. by destruct (node_stats nd). Qed.

Lemma game_values_Forall2 (ms : list position) vs :
  Forall2 game_value ms vs → game_values ms vs.
Proof. induction 1; by constructor. Qed.

(** The values of the solved children of a node are the values of the
    successors of its position. *)
Lemma solved_children_values s k self cs :
  search_inv s → node_ok s k self → children self = Some cs →
  Forall (solved s) cs →
  ∃ vs, Forall2 (solved_with s) cs vs
        ∧ game_values (get_possible_moves (position_of self)) vs.
Proof.
  intros Hinv Hok Hcs Hsolved.
  pose proof (ok_children _ _ _ Hok cs Hcs) as Hchildren.
  clear Hcs Hok. revert Hsolved.
  induction Hchildren as [|c move cs' moves (child & Hc & Hpos & _) _ IH];
    intros Hsolved.
  - exists []. split; constructor.
  - apply Forall_cons in Hsolved as [(child' & Hc' & Hfe) Hsolved].
    assert (child' = child) as -> by congruence.
    destruct (IH Hsolved) as (vs & Hvs & Hvalues).
    exists (solved_value child :: vs). split.
    + constructor; [|done]. exists child.
      by rewrite (get_evaluation_solved_value _ Hfe).
    + constructor; [|done]. rewrite <- Hpos.
      by apply (ok_solved _ _ _ (Hinv c child Hc)).
Qed.

(** Marking a node with a proved value keeps the invariant. *)
Lemma search_inv_mark s k self v :
  search_inv s → s !! k = Some self → fully_expanded self = false →
  game_value (position_of self) v →
  search_inv (<[k := set_fully_expanded v self]> s).
Proof.
  intros Hinv Hk Hfe Hv.
  eapply search_inv_insert; try done.
  eapply node_ok_same_children; try done.
  - by apply Hinv.
  - intros _. by rewrite solved_value_set_fully_expanded.
Qed.

(** A child listed by a node of a sound store points back to the node. *)
Lemma child_parent s k self cs c child :
  node_ok s k self → children self = Some cs → c ∈ cs →
  s !! c = Some child →
  parent child = Some k ∧ position_of child ∈ get_possible_moves (position_of self).
Proof.
  intros Hok Hcs [i Hi]%list_elem_of_lookup Hc.
  pose proof (ok_children _ _ _ Hok cs Hcs) as Hchildren.
  destruct (Forall2_lookup_l _ _ _ _ _ Hchildren Hi)
    as (move & Hmove & child' & Hc' & Hpos & Hpar).
  assert (child' = child) as -> by congruence.
  split; [done|]. rewrite Hpos. by eapply list_elem_of_lookup_2.
Qed.

(** After marking [k] solved the selection goes on at the parent of [k],
    whose own ancestors are still not solved. *)
Lemma unsolved_chain_parent s k self self' p :
  search_inv s → s !! k = Some self → parent self = Some p →
  unsolved_chain s (Some p) →
  ∀ pn, <[k := self']> s !! p = Some pn →
  unsolved_chain (<[k := self']> s) (parent pn).
Proof.
  intros Hinv Hk Hpar Hchain pn Hp.
  pose proof (ok_parent _ _ _ (Hinv k self Hk) p Hpar) as Hlt.
  rewrite list_lookup_insert_ne in Hp by lia.
  inversion Hchain as [|? pn' Hp' Hfe Hrest]; subst.
  assert (pn' = pn) as -> by congruence.
  apply unsolved_chain_below; [done..|].
  intros pp Hpp. apply (ok_parent _ _ _ (Hinv p pn Hp)) in Hpp. lia.
Qed.

(** The selection keeps the invariant, and the node it returns for
    expansion has no solved node on its parent chain, when the selection
    starts at a node without solved ancestors (such as the root). *)
Lemma selection_sound fuel :
  ∀ s k s' r,
  search_inv s →
  (∀ self, s !! k = Some self → unsolved_chain s (parent self)) →
  choose_expansion_node exploration d network_call fuel s k = Ok (s', r) →
  search_inv s' ∧ ∀ t, r = Some t → unsolved_chain s' (Some t).
Proof.
  induction fuel as [|fuel IH]; intros s k s' r Hinv Habove; [done|]. simpl.
  destruct (get s k) as [self|] eqn:Hk; simpl; [|done]. apply get_Ok in Hk.
  specialize (Habove self Hk).
  destruct (fully_expanded self) eqn:Hfe.
  { intros [= <- <-]. by split. }
  destruct (num_eqb (count_expansions self) (of_Z 0)).
  { intros [= <- <-]. split; [done|]. intros t [= <-].
    by apply (unsolved_step _ k self). }
  destruct (ensure_children network_call s k None None) as [s1|] eqn:Hs1;
    simpl; [|done].
  pose proof (ensure_children_inv _ _ _ _ Hinv Hk Hfe Hs1) as Hinv1.
  pose proof (ensure_children_frame _ _ _ Hs1) as [_ Hframe].
  destruct (get s1 k) as [self1|] eqn:Hk1; simpl; [|done]. apply get_Ok in Hk1.
  destruct (Hframe k self Hk) as (nd' & Hnd' & _ & _ & Hpar1 & Hfe1 & _).
  assert (nd' = self1) as -> by congruence.
  rewrite Hfe in Hfe1.
  assert (unsolved_chain s1 (Some k)) as Hchain.
  { apply (unsolved_step _ k self1); [done..|]. rewrite Hpar1.
    eapply unsolved_chain_same_flags; [|exact Habove].
    intros y nd Hy.
    destruct (Hframe y nd Hy) as (nd' & Hy' & _ & _ & Hpar' & Hfe' & _).
    by exists nd'. }
  pose proof (Hinv1 k self1 Hk1) as Hok.
  destruct (children self1) as [cs|] eqn:Hcs; simpl; [|done].
  (* what happens once [k] is marked with a proved value *)
  assert (∀ v, game_value (position_of self1) v →
            match parent self1 with
            | Some p =>
                choose_expansion_node exploration d network_call fuel
                  (<[k := set_fully_expanded v self1]> s1) p
            | None => Ok (<[k := set_fully_expanded v self1]> s1, None)
            end = Ok (s', r) →
            search_inv s' ∧ ∀ t, r = Some t → unsolved_chain s' (Some t))
    as Hmark.
  { intros v Hv.
    pose proof (search_inv_mark _ _ _ v Hinv1 Hk1 Hfe1 Hv) as Hinv2.
    destruct (parent self1) as [p|] eqn:Hp.
    - apply IH; [done|].
      apply (unsolved_chain_parent s1 k self1 _ p); try done.
      inversion Hchain as [|? nd' Hnd'' _ Hrest]; subst.
      assert (nd' = self1) as -> by congruence. by rewrite Hp in Hrest.
    - intros [= <- <-]. by split. }
  destruct (scan_expansion _ _ _ _ _ _ _ _) as [[|c|[best|]]|] eqn:Hscan;
    simpl; [| | | |done].
  - (* a solved child has the optimal value *)
    apply Hmark.
    destruct (scan_expansion_Closed _ _ _ _ _ _ Hscan)
      as (c & child & Hin & Hc & Hcfe & Hvalue).
    destruct (child_parent _ _ _ _ _ _ Hok Hcs Hin Hc) as [_ Hmove].
    pose proof (ok_solved _ _ _ (Hinv1 c child Hc) Hcfe) as Hchild.
    assert (optimal_value self1 = optimum (position_of self1)) as Hopt.
    { unfold optimal_value, optimum. by rewrite (ok_mover _ _ _ Hok). }
    rewrite Hopt. eapply value_optimal; [|exact Hmove|].
    + by apply (ok_unsolved _ _ _ Hok).
    + by rewrite <- Hopt, <- Hvalue.
  - (* a child with an infinite score *)
    intros [= <- <-]. split; [done|]. intros t [= <-].
    destruct (scan_expansion_Unvisited _ _ _ _ _ _ _ Hscan)
      as (Hin & child & Hc & Hcfe).
    destruct (child_parent _ _ _ _ _ _ Hok Hcs Hin Hc) as [Hpar _].
    apply (unsolved_step _ c child); [done..|]. by rewrite Hpar.
  - (* the best child by score *)
    apply IH; [done|]. intros bn Hbn.
    destruct (scan_expansion_Scanned _ _ _ _ _ _ _ Hscan)
      as [|(c & child & [= ->] & Hin & Hc & _)]; [done|].
    assert (bn = child) as -> by congruence.
    destruct (child_parent _ _ _ _ _ _ Hok Hcs Hin Hc) as [Hpar _].
    by rewrite Hpar.
  - (* every child is solved *)
    assert (Forall (solved s1) cs) as Hsolved.
    { eapply (scan_expansion_none_solved s1 self1 cs Hcs);
        [by apply (ok_unsolved _ _ _ Hok)| |apply drop_0|exact Hscan].
      intros c child _ Hc Hcfe.
      by apply (ok_unsolved _ _ _ (Hinv1 c child Hc)). }
    destruct (solved_children_values _ _ _ _ Hinv1 Hok Hcs Hsolved)
      as (vs & Hvs & Hvalues).
    rewrite (minimax_of_solved_children _ _ _ _ Hvs).
    destruct (if is_maximizing self1 then num_max vs else num_min vs)
      as [v|] eqn:Hv; simpl; [|done].
    apply Hmark. eapply value_minimax; [|exact Hvalues|].
    + by apply (ok_unsolved _ _ _ Hok).
    + unfold best_value. by rewrite <- (ok_mover _ _ _ Hok).
Qed.

(** *** Expansion never touches a solved flag *)

Lemma same_flags_refl s : same_flags s s.
Proof. intros x nd Hx. by exists nd. Qed.

Lemma same_flags_trans s1 s2 s3 :
  same_flags s1 s2 → same_flags s2 s3 → same_flags s1 s3.
Proof.
  intros H12 H23 x nd Hx.
  destruct (H12 x nd Hx) as (nd2 & Hx2 & Hpar2 & Hfe2).
  destruct (H23 x nd2 Hx2) as (nd3 & Hx3 & Hpar3 & Hfe3).
  exists nd3. repeat split; congruence.
Qed.

Lemma same_flags_set_stats s n nd st :
  s !! n = Some nd → same_flags s (<[n := set_stats st nd]> s).
Proof.
  intros Hn x ndx Hx.
  assert (x < length s)%nat as Hlt by (by eapply lookup_lt_Some).
  destruct (decide (x = n)) as [->|Hne].
  - assert (ndx = nd) as -> by congruence.
    eexists. by rewrite list_lookup_insert_eq.
  - exists ndx. by rewrite list_lookup_insert_ne.
Qed.

Lemma same_flags_ensure_children s k moves results s1 :
  ensure_children network_call s k moves results = Ok s1 → same_flags s s1.
Proof.
  unfold ensure_children.
  destruct (get s k) as [self|] eqn:Hk; simpl; [|done]. apply get_Ok in Hk.
  assert (k < length s)%nat as Hlt by (by eapply lookup_lt_Some).
  assert (∀ new self',
            parent self' = parent self →
            fully_expanded self' = fully_expanded self →
            same_flags s (<[k := self']> (s ++ new))) as Hadd.
  { intros new self' Hpar Hfe x nd Hx.
    assert (x < length s)%nat by (by eapply lookup_lt_Some).
    destruct (decide (x = k)) as [->|Hne].
    - assert (nd = self) as -> by congruence. exists self'.
      rewrite list_lookup_insert_eq; [done|]. rewrite length_app. lia.
    - exists nd. rewrite list_lookup_insert_ne by done.
      by rewrite lookup_app_l. }
  destruct (children self); [intros [= <-]; apply same_flags_refl|].
  destruct (node_stats self).
  - intros [= <-]. by apply Hadd.
  - destruct results as [rs|]; simpl.
    + intros [= <-]. by apply Hadd.
    + case_bool_decide; [done|]. simpl. intros [= <-]. by apply Hadd.
Qed.

Lemma rollout_backup_same_flags fuel :
  ∀ s node total s',
  rollout_backup rollout_batch_size fuel s node total = Ok s' →
  same_flags s s'.
Proof.
  induction fuel as [|fuel IH]; intros s [n|] total s'; simpl; try done;
    try (intros [= <-]; apply same_flags_refl).
  destruct (get s n) as [nd|] eqn:Hn; simpl; [|done]. apply get_Ok in Hn.
  destruct (node_stats nd); [|done].
  intros Hrun%IH. eapply same_flags_trans; [|exact Hrun].
  by apply same_flags_set_stats.
Qed.

Lemma heuristic_backup_same_flags fuel :
  ∀ s node critical s' stop,
  heuristic_backup fuel s node critical = Ok (s', stop) → same_flags s s'.
Proof.
  induction fuel as [|fuel IH]; intros s [n|] critical s' stop; simpl;
    try done; try (intros [= <- _]; apply same_flags_refl).
  destruct (get s n) as [nd|] eqn:Hn; simpl; [|done]. apply get_Ok in Hn.
  destruct (node_stats nd); [done|].
  destruct (_ || _).
  - intros Hrun%IH. eapply same_flags_trans; [|exact Hrun].
    by apply same_flags_set_stats.
  - intros [= <- _]. by apply same_flags_set_stats.
Qed.

Lemma expansions_backup_same_flags fuel :
  ∀ s node s', expansions_backup fuel s node = Ok s' → same_flags s s'.
Proof.
  induction fuel as [|fuel IH]; intros s [n|] s'; simpl; try done;
    try (intros [= <-]; apply same_flags_refl).
  destruct (get s n) as [nd|] eqn:Hn; simpl; [|done]. apply get_Ok in Hn.
  destruct (node_stats nd); [done|].
  intros Hrun%IH. eapply same_flags_trans; [|exact Hrun].
  by apply same_flags_set_stats.
Qed.

(** Whatever the store and the node, [expand] of either class leaves every
    solved flag as it is. *)
Lemma expand_same_flags fuel s k rollouts moves results s' :
  expand network_call rollout_batch_size fuel s k rollouts moves results
  = Ok s' →
  same_flags s s'.
Proof.
  unfold expand.
  destruct (get s k) as [self|] eqn:Hk; simpl; [|done]. apply get_Ok in Hk.
  destruct (node_stats self) eqn:Hstats.
  - apply rollout_backup_same_flags.
  - unfold HeuristicNode_expand. rewrite (proj2 (get_Ok _ _ _) Hk). simpl.
    case_bool_decide; [done|].
    destruct (fully_expanded self); [done|].
    destruct (ensure_children _ _ _ _ _) as [s1|] eqn:Hs1; simpl; [|done].
    apply same_flags_ensure_children in Hs1.
    destruct (get s1 k) as [self1|] eqn:Hk1; simpl; [|done].
    apply get_Ok in Hk1.
    destruct (children self1); [|done].
    destruct (critical_value_of _ _ _) as [critical|]; simpl; [|done].
    destruct (node_stats self1); [done|].
    destruct (heuristic_backup _ _ _ _) as [[s3 stop]|] eqn:Hs3; simpl;
      [|done].
    apply heuristic_backup_same_flags in Hs3.
    intros Hs4%expansions_backup_same_flags.
    eapply same_flags_trans; [exact Hs1|].
    eapply same_flags_trans; [by apply same_flags_set_stats|].
    by eapply same_flags_trans.
Qed.

(** *** Expansion of a node without solved ancestors *)

Lemma finite_add a b : finite a → finite b → finite (num_add a b).
Proof. intros [x ->] [y ->]. by eexists. Qed.

Lemma finite_sum l : Forall finite l → finite (num_sum l).
Proof.
  unfold num_sum. assert (finite (of_Z 0)) as H0 by (by eexists).
  revert H0. generalize (of_Z 0).
  induction l as [|x l IH]; intros a Ha Hl; [done|].
  apply Forall_cons in Hl as [Hx Hl]. simpl. apply IH; [|done].
  by apply finite_add.
Qed.

Lemma search_inv_set_stats s n nd st :
  search_inv s → s !! n = Some nd → fully_expanded nd = false →
  sound_stats (set_stats st nd) →
  search_inv (<[n := set_stats st nd]> s)
  ∧ evolves s (<[n := set_stats st nd]> s).
Proof.
  intros Hinv Hn Hfe Hstats. split.
  - eapply search_inv_insert; try done.
    eapply node_ok_same_children; try done.
    + by apply Hinv.
    + simpl. congruence.
  - by eapply evolves_insert.
Qed.

Lemma rollout_backup_sound fuel :
  ∀ s node total s',
  search_inv s → unsolved_chain s node → finite total →
  rollout_backup rollout_batch_size fuel s node total = Ok s' →
  search_inv s' ∧ evolves s s'.
Proof.
  induction fuel as [|fuel IH]; intros s node total s' Hinv Hchain Htotal;
    destruct Hchain as [|n nd Hn Hfe Hrest]; simpl; try done;
    try (intros [= <-]; split; [done|apply evolves_refl]).
  rewrite (proj2 (get_Ok _ _ _) Hn). simpl.
  destruct (node_stats nd) as [rs rc|] eqn:Hstats; [|done].
  set (st := RolloutStats _ _).
  destruct (search_inv_set_stats s n nd st Hinv Hn Hfe) as [Hinv1 Hev1].
  { unfold sound_stats, st. simpl. apply finite_add; [|done].
    pose proof (ok_unsolved _ _ _ (Hinv n nd Hn) Hfe) as [_ Hsound].
    unfold sound_stats in Hsound. by rewrite Hstats in Hsound. }
  intros Hrun. apply IH in Hrun as [Hinv' Hev']; try done.
  - split; [done|by eapply evolves_trans].
  - eapply unsolved_chain_same_flags; [|exact Hrest].
    by apply same_flags_set_stats.
Qed.

Lemma heuristic_backup_sound fuel :
  ∀ s node critical s' stop,
  search_inv s → unsolved_chain s node → finite critical →
  heuristic_backup fuel s node critical = Ok (s', stop) →
  search_inv s' ∧ evolves s s' ∧ unsolved_chain s' stop.
Proof.
  induction fuel as [|fuel IH]; intros s node critical s' stop Hinv Hchain Hc;
    destruct Hchain as [|n nd Hn Hfe Hrest]; simpl; try done;
    try (intros [= <- <-]; split; [done|split; [apply evolves_refl|constructor]]).
  rewrite (proj2 (get_Ok _ _ _) Hn). simpl.
  destruct (node_stats nd) as [|h pol e] eqn:Hstats; [done|].
  pose proof (ok_unsolved _ _ _ (Hinv n nd Hn) Hfe) as [_ Hsound].
  unfold sound_stats in Hsound. rewrite Hstats in Hsound.
  destruct Hsound as [Hh Hpol].
  destruct (_ || _).
  - set (st := HeuristicStats _ _ _).
    destruct (search_inv_set_stats s n nd st Hinv Hn Hfe) as [Hinv1 Hev1];
      [by unfold sound_stats, st|].
    intros Hrun. apply IH in Hrun as (Hinv' & Hev' & Hstop); try done.
    + split; [done|]. split; [by eapply evolves_trans|done].
    + eapply unsolved_chain_same_flags; [|exact Hrest].
      by apply same_flags_set_stats.
  - set (st := HeuristicStats _ _ _).
    destruct (search_inv_set_stats s n nd st Hinv Hn Hfe) as [Hinv1 Hev1];
      [by unfold sound_stats, st|].
    intros [= <- <-]. split; [done|]. split; [done|].
    eapply unsolved_chain_same_flags; [|exact Hrest].
    by apply same_flags_set_stats.
Qed.

Lemma expansions_backup_sound fuel :
  ∀ s node s',
  search_inv s → unsolved_chain s node →
  expansions_backup fuel s node = Ok s' →
  search_inv s' ∧ evolves s s'.
Proof.
  induction fuel as [|fuel IH]; intros s node s' Hinv Hchain;
    destruct Hchain as [|n nd Hn Hfe Hrest]; simpl; try done;
    try (intros [= <-]; split; [done|apply evolves_refl]).
  rewrite (proj2 (get_Ok _ _ _) Hn). simpl.
  destruct (node_stats nd) as [|h pol e] eqn:Hstats; [done|].
  pose proof (ok_unsolved _ _ _ (Hinv n nd Hn) Hfe) as [_ Hsound].
  unfold sound_stats in Hsound. rewrite Hstats in Hsound.
  set (st := HeuristicStats _ _ _).
  destruct (search_inv_set_stats s n nd st Hinv Hn Hfe) as [Hinv1 Hev1];
    [by unfold sound_stats, st|].
  intros Hrun. apply IH in Hrun as [Hinv' Hev']; try done.
  - split; [done|by eapply evolves_trans].
  - eapply unsolved_chain_same_flags; [|exact Hrest].
    by apply same_flags_set_stats.
Qed.

Lemma heuristic_finite s c child h :
  search_inv s → s !! c = Some child → heuristic_of child = Ok h → finite h.
Proof.
  intros Hinv Hc Hh. pose proof (Hinv c child Hc) as Hok.
  unfold heuristic_of in Hh.
  destruct (node_stats child) as [|h' pol e] eqn:Hstats; [done|].
  injection Hh as ->.
  destruct (fully_expanded child) eqn:Hfe.
  - apply three_valued_finite.
    pose proof (ok_solved _ _ _ Hok Hfe) as Hv.
    apply (game_value_three_valued get_winner_three_valued) in Hv.
    unfold solved_value in Hv. by rewrite Hstats in Hv.
  - pose proof (ok_unsolved _ _ _ Hok Hfe) as [_ Hsound].
    unfold sound_stats in Hsound. rewrite Hstats in Hsound. by destruct Hsound.
Qed.

Lemma critical_value_finite s self cs critical :
  search_inv s → critical_value_of s self cs = Ok critical → finite critical.
Proof.
  intros Hinv. unfold critical_value_of.
  destruct (mapR _ cs) as [hs|] eqn:Hhs; simpl; [|done].
  intros Hbest. apply mapR_Ok in Hhs.
  apply (best_value_elem (is_maximizing self)) in Hbest.
  apply list_elem_of_lookup in Hbest as [i Hi].
  destruct (Forall2_lookup_r _ _ _ _ _ Hhs Hi) as (c & _ & Hc).
  destruct (get s c) as [child|] eqn:Hchild; simpl in Hc; [|done].
  apply get_Ok in Hchild. by eapply heuristic_finite.
Qed.

Lemma HeuristicNode_expand_sound fuel s t s' :
  search_inv s → unsolved_chain s (Some t) →
  HeuristicNode_expand network_call fuel s t None None = Ok s' →
  search_inv s' ∧ evolves s s'.
Proof.
  intros Hinv Hchain. unfold HeuristicNode_expand.
  inversion Hchain as [|? self Ht Hfe Habove]; subst.
  rewrite (proj2 (get_Ok _ _ _) Ht). simpl.
  case_bool_decide; [done|]. rewrite Hfe.
  destruct (ensure_children network_call s t None None) as [s1|] eqn:Hs1;
    simpl; [|done].
  pose proof (ensure_children_inv _ _ _ _ Hinv Ht Hfe Hs1) as Hinv1.
  pose proof (evolves_ensure_children _ _ _ _ Ht Hfe Hs1) as Hev1.
  pose proof (same_flags_ensure_children _ _ _ _ _ Hs1) as Hflags1.
  destruct (get s1 t) as [self1|] eqn:Ht1; simpl; [|done]. apply get_Ok in Ht1.
  destruct (Hflags1 t self Ht) as (nd' & Hnd' & Hpar1 & Hfe1).
  assert (nd' = self1) as -> by congruence. rewrite Hfe in Hfe1.
  destruct (children self1) as [cs|]; [|done].
  destruct (critical_value_of s1 self1 cs) as [critical|] eqn:Hcritical;
    simpl; [|done].
  pose proof (critical_value_finite _ _ _ _ Hinv1 Hcritical) as Hfin.
  destruct (node_stats self1) as [|h pol e] eqn:Hstats1; [done|].
  pose proof (ok_unsolved _ _ _ (Hinv1 t self1 Ht1) Hfe1) as [_ Hsound].
  unfold sound_stats in Hsound. rewrite Hstats1 in Hsound.
  set (st := HeuristicStats critical pol e).
  destruct (search_inv_set_stats s1 t self1 st Hinv1 Ht1 Hfe1)
    as [Hinv2 Hev2]; [unfold sound_stats, st; simpl; by destruct Hsound|].
  pose proof (same_flags_set_stats s1 t self1 st Ht1) as Hflags2.
  assert (unsolved_chain (<[t := set_stats st self1]> s1) (parent self1))
    as Habove2.
  { rewrite Hpar1. eapply unsolved_chain_same_flags; [|exact Habove].
    by eapply same_flags_trans. }
  destruct (heuristic_backup _ _ _ _) as [[s3 stop]|] eqn:Hs3; simpl; [|done].
  apply heuristic_backup_sound in Hs3 as (Hinv3 & Hev3 & Hstop); try done.
  intros Hs4. apply expansions_backup_sound in Hs4 as [Hinv4 Hev4]; try done.
  split; [done|].
  eapply evolves_trans; [exact Hev1|].
  eapply evolves_trans; [exact Hev2|].
  by eapply evolves_trans.
Qed.

(** The expansion of a node without solved ancestors keeps the invariant
    and leaves the solved nodes as they are. *)
Lemma expand_sound fuel s t rollouts s' :
  search_inv s → unsolved_chain s (Some t) → Forall finite rollouts →
  expand network_call rollout_batch_size fuel s t rollouts None None = Ok s' →
  search_inv s' ∧ evolves s s'.
Proof.
  intros Hinv Hchain Hrollouts. unfold expand.
  destruct (get s t) as [self|]; simpl; [|done].
  destruct (node_stats self).
  - apply rollout_backup_sound; [done..|by apply finite_sum].
  - by apply HeuristicNode_expand_sound.
Qed.

(** The store of a search that starts satisfies the invariant. *)
Lemma search_inv_rollout_root (p : position) :
  search_inv [RolloutNode p None].
Proof.
  intros [|x] nd; [|done]. intros [= <-].
  unfold RolloutNode. split; simpl; try done.
  - intros Hp. rewrite Hp. unfold solved_value. simpl. by apply value_terminal.
  - intros Hp. rewrite Hp. split; [done|]. unfold sound_stats. simpl.
    by eexists.
Qed.

Lemma search_inv_heuristic_root (p : position) root :
  HeuristicRoot network_call p = Ok root → search_inv [root].
Proof.
  unfold HeuristicRoot.
  assert (∀ r, (is_over p = false → Forall finite r.1 ∧ finite r.2) →
            search_inv [HeuristicNode p None r]) as Hroot.
  { intros r Hr [|x] nd; [|done]. intros [= <-].
    unfold HeuristicNode. split; simpl; try done.
    - intros Hp. rewrite Hp. unfold solved_value. simpl.
      by apply value_terminal.
    - intros Hp. rewrite Hp. split; [done|]. unfold sound_stats. simpl.
      destruct (Hr Hp). split; [done|]. by eexists. }
  destruct (is_over p) eqn:Hp.
  - intros [= <-]. by apply Hroot.
  - unfold index. destruct (network_call [p] !! 0%nat) as [r|] eqn:Hr; [|done].
    simpl. intros [= <-]. apply Hroot. intros _.
    pose proof (network_call_finite [p]) as Hfin.
    by apply (Forall_lookup_1 _ _ _ _ Hfin) in Hr.
Qed.

(** The loop of a driver keeps the invariant and the solved nodes. *)
Lemma search_loop_sound fuel batches :
  ∀ s root s',
  search_inv s →
  (∀ nd, s !! root = Some nd → parent nd = None) →
  Forall (Forall finite) batches →
  search_loop exploration d network_call rollout_batch_size fuel batches s root
  = Ok s' →
  search_inv s' ∧ evolves s s'.
Proof.
  induction batches as [|rollouts batches IH];
    intros s root s' Hinv Hroot Hfin; simpl.
  { intros [= <-]. split; [done|apply evolves_refl]. }
  apply Forall_cons in Hfin as [Hrollouts Hfin].
  destruct (choose_expansion_node _ _ _ _ _ _) as [[s1 best]|] eqn:Hs1; simpl;
    [|done].
  assert (∃ nd0, s !! root = Some nd0) as [nd0 Hnd0].
  { destruct fuel as [|fuel']; [done|]. simpl in Hs1.
    destruct (get s root) as [self|] eqn:Hk; [|done].
    apply get_Ok in Hk. by exists self. }
  pose proof (choose_expansion_node_evolves _ _ _ _ _ Hs1) as Hev1.
  apply selection_sound in Hs1 as [Hinv1 Hbest]; [|done|].
  2:{ intros self Hself. rewrite (Hroot self Hself). constructor. }
  destruct best as [t|]; [|by intros [= <-]].
  destruct (expand _ _ _ _ _ _ _ _) as [s2|] eqn:Hs2; simpl; [|done].
  apply expand_sound in Hs2 as [Hinv2 Hev2]; [|done|by apply Hbest|done].
  assert (evolves s s2) as Hev by (by eapply evolves_trans).
  intros Hrun. apply IH in Hrun as [Hinv' Hev']; [|done| |done].
  - split; [done|]. by eapply evolves_trans.
  - intros nd Hnd.
    destruct (Hev _ _ Hnd0) as (nd' & Hnd' & _ & Hparent & _).
    rewrite Hnd in Hnd'. injection Hnd' as <-.
    rewrite Hparent. by apply Hroot.
Qed.

(** *** The solved nodes of a search *)

(** C3 (monotone solved flag), as the code has it.  In a store [s] that
    satisfies the invariant of a search, which the store of a new root does
    and every step of a search keeps:
    - a solved node's evaluation is the exact value of its position, one of
      [-1], [0] and [1], and the value that minimax over the whole game tree
      returns;
    - [choose_expansion_node], started at a node below no solved node (the
      root, say), leaves every solved node as it is, flag and evaluation,
      and returns a node that is not solved and below no solved node;
    - [expand] on a node that is not solved and below no solved node leaves
      every solved node as it is;
    - so does the loop of the drivers, started at the root.
    In any store at all, [choose_expansion_node] at any node leaves every
    solved node as it is, and [expand] at any node, with any arguments,
    keeps every solved flag.  What [expand] does not keep in general is the
    evaluation of a solved node on the parent chain of the expanded node. *)
Theorem solved_nodes_stay_solved s :
  search_inv s →
  (∀ x nd, s !! x = Some nd → fully_expanded nd = true →
     get_evaluation nd = Ok (solved_value nd)
     ∧ three_valued (solved_value nd)
     ∧ game_value (position_of nd) (solved_value nd)
     ∧ ∀ fuel w, minimax fuel (position_of nd) = Ok w → w = solved_value nd)
  ∧ (∀ fuel k s' r,
       (∀ self, s !! k = Some self → unsolved_chain s (parent self)) →
       choose_expansion_node exploration d network_call fuel s k = Ok (s', r) →
       search_inv s' ∧ evolves s s'
       ∧ ∀ t, r = Some t → unsolved_chain s' (Some t))
  ∧ (∀ fuel t rollouts s',
       unsolved_chain s (Some t) → Forall finite rollouts →
       expand network_call rollout_batch_size fuel s t rollouts None None
       = Ok s' →
       search_inv s' ∧ evolves s s')
  ∧ (∀ fuel batches root s',
       (∀ nd, s !! root = Some nd → parent nd = None) →
       Forall (Forall finite) batches →
       search_loop exploration d network_call rollout_batch_size fuel batches
         s root = Ok s' →
       search_inv s' ∧ evolves s s')
  ∧ (∀ fuel s0 k s' r,
       choose_expansion_node exploration d network_call fuel s0 k
       = Ok (s', r) →
       evolves s0 s')
  ∧ (∀ fuel s0 k rollouts moves results s',
       expand network_call rollout_batch_size fuel s0 k rollouts moves results
       = Ok s' →
       same_flags s0 s').
Proof.
  intros Hinv. split; [|split; [|split; [|split; [|split]]]].
  - intros x nd Hnd Hfe.
    pose proof (ok_solved _ _ _ (Hinv _ _ Hnd) Hfe) as Hvalue.
    split; [by apply get_evaluation_solved_value|].
    split; [by eapply game_value_three_valued|]. split; [done|].
    intros fuel w Hw. by eapply game_value_exact.
  - intros fuel k s' r Hk Hrun.
    pose proof (choose_expansion_node_evolves _ _ _ _ _ Hrun).
    apply selection_sound in Hrun as [? ?]; done.
  - intros fuel t rollouts s' Ht Hrollouts Hrun. by eapply expand_sound.
  - intros fuel batches root s' Hroot Hbatches Hrun.
    by eapply search_loop_sound.
  - intros fuel s0 k s' r. apply choose_expansion_node_evolves.
  - intros fuel s0 k rollouts moves results s'. apply expand_same_flags.
Qed.

End SearchSoundness.


Lemma pile_winner_three_valued (p : nat * bool) :
  is_over p = true → three_valued (get_winner p).
Proof.
  intros _. unfold three_valued. simpl. destruct p.2; [by left|by right; right].
Qed.

Lemma blind_network_length ps : length (blind_network ps) = length ps.
Proof. unfold blind_network. by rewrite length_fmap. Qed.

Lemma blind_network_finite ps :
  Forall (λ r : list num * num, Forall finite r.1 ∧ finite r.2)
    (blind_network ps).
Proof.
  unfold blind_network. apply Forall_fmap, Forall_forall. intros p _. simpl.
  split; [constructor|]. unfold of_Z. by eexists.
Qed.

Lemma finite_of_Z z : finite (of_Z z).
Proof. unfold of_Z. by eexists. Qed.

(** C3, as stated, fails for [expand]: the search from the pile of two
    tokens reaches, in three iterations, a store whose root is solved with
    the value [1], the value of the position, while its first child is
    neither solved nor terminal and has no children.  [expand] on that child,
    its playout returning [-1], adds [-1] to the sum of the root: the
    evaluation of the solved root turns from [1] into [0]. *)
Lemma solved_nodes_stay_solved_counterexample :
  search_loop flat_exploration (of_Z 1) blind_network (of_Z 1) 3
    [[of_Z 1]; [of_Z (-1)]; []] [RolloutNode (2%nat, true) None] 0
  = Ok shortcut_example
  ∧ minimax 3 (2%nat, true) = Ok (of_Z 1)
  ∧ (get_evaluation <$> shortcut_example !! 0%nat) = Some (Ok (of_Z 1))
  ∧ (fully_expanded <$> shortcut_example !! 1%nat) = Some false
  ∧ (children <$> shortcut_example !! 1%nat) = Some None
  ∧ (is_over ∘ position_of <$> shortcut_example !! 1%nat) = Some false
  ∧ ∃ s',
      expand blind_network (of_Z 1) 3 shortcut_example 1 [of_Z (-1)] None None
      = Ok s'
      ∧ (fully_expanded <$> s' !! 0%nat) = Some true
      ∧ (get_evaluation <$> s' !! 0%nat) = Some (Ok (of_Z 0)).
Proof.
  split; [evaluate|]. split; [evaluate|]. split; [evaluate|].
  split; [reflexivity|]. split; [reflexivity|]. split; [reflexivity|].
  eexists. split; [vm_compute; reflexivity|]. split; [reflexivity|evaluate].
Qed.

(** The search from the pile of two tokens: the store of the new root
    satisfies the invariant, so every store of the search does, and the
    solved nodes are kept. *)
Lemma solved_nodes_stay_solved_witness :
  search_inv [RolloutNode (2%nat, true) None]
  ∧ search_inv shortcut_example
  ∧ evolves [RolloutNode (2%nat, true) None] shortcut_example.
Proof.
  pose proof (solved_nodes_stay_solved flat_exploration (of_Z 1) blind_network
                (of_Z 1) pile_winner_three_valued blind_network_length
                blind_network_finite (λ _ _, eq_refl) (finite_of_Z 1)
                [RolloutNode (2%nat, true) None]
                (search_inv_rollout_root (2%nat, true)))
    as (_ & _ & _ & Hloop & _).
  split; [exact (search_inv_rollout_root (2%nat, true))|].
  apply (Hloop 3%nat [[of_Z 1]; [of_Z (-1)]; []] 0%nat).
  - intros nd [= <-]. reflexivity.
  - repeat constructor; apply finite_of_Z.
  - evaluate.
Defined.


(** ** [HeuristicNode.merge] never returns *)

(** In a tree of heuristic nodes, [merge] returns at no node, for no clones:
    the recursion into the children ends at a node without children, where
    the maximum over [self.children], which is [None], raises; a node whose
    list of children is empty raises on the maximum of no values. *)
Theorem heuristic_merge_never_returns {position : Type} `{Game position}
    fuel :
  ∀ (s : list (node position)) k clones s',
  (∀ x nd, s !! x = Some nd →
     ∃ heuristic policy expansions,
       node_stats nd = HeuristicStats heuristic policy expansions) →
  merge fuel s k clones ≠ Ok s'.
Proof.
  induction fuel as [|fuel IH]; intros s k clones s' Hall; [done|]. simpl.
  destruct (get s k) as [self|] eqn:Hk; simpl; [|done]. apply get_Ok in Hk.
  destruct (Hall _ _ Hk) as (heuristic & policy & expansions & Hstats).
  rewrite Hstats.
  assert (∀ (s0 : list (node position)) cs cl,
           (∀ x nd, s0 !! x = Some nd →
             ∃ h p e, node_stats nd = HeuristicStats h p e) →
           cs ≠ [] → ∀ s1, merge_loop (merge fuel) s0 0 cs cl ≠ Ok s1)
    as Hloop.
  { intros s0 [|c cs] cl Hall0 Hne s1; [done|]. simpl.
    destruct (children_at s0 0 cl) as [child_clones|]; simpl; [|done].
    destruct (merge fuel s0 c child_clones) as [s2|] eqn:Hmerge; simpl;
      [|done].
    by apply IH in Hmerge. }
  unfold merge_children_clones. rewrite (proj2 (get_Ok s k self) Hk). simpl.
  destruct (children self) as [cs|] eqn:Hcs.
  - destruct cs as [|c cs].
    + simpl. rewrite (proj2 (get_Ok s k self) Hk). simpl. rewrite Hcs. simpl.
      unfold critical_value_of. simpl.
      by destruct (is_maximizing self).
    + destruct (merge_loop _ _ _ _ _) as [s1|] eqn:Hrun; simpl; [|done].
      by apply Hloop in Hrun.
  - destruct (first_with_children s clones) as [[[cs rest]|]|]; simpl;
      [| |done].
    + destruct cs as [|c cs].
      * simpl. unfold get. rewrite list_lookup_insert_eq;
          [|by eapply lookup_lt_Some].
        simpl. unfold critical_value_of. simpl.
        by destruct (is_maximizing self).
      * destruct (merge_loop _ _ _ _ _) as [s1|] eqn:Hrun; simpl; [|done].
        apply Hloop in Hrun; [done| |done].
        intros x nd Hx.
        destruct (decide (x = k)) as [->|Hne].
        -- rewrite list_lookup_insert_eq in Hx; [|by eapply lookup_lt_Some].
           injection Hx as <-. simpl. eauto.
        -- rewrite list_lookup_insert_ne in Hx; [|done]. by eapply Hall.
    + rewrite (proj2 (get_Ok s k self) Hk). simpl. by rewrite Hcs.
Qed.

Lemma heuristic_merge_never_returns_witness :
  merge 2 heuristic_example 0 [] ≠ Ok heuristic_example.
Proof.
  apply (heuristic_merge_never_returns 2 heuristic_example 0 []).
  intros [|[|[|x]]] nd; [| | |done]; intros [= <-]; simpl; eauto.
Defined.

(** ** [RolloutNode.merge]: the statistics of the node itself *)

Lemma num_add_0_r a : num_add a (of_Z 0) = a.
Proof.
  unfold of_Z. rewrite Z2Qc_inj_0. destruct a; unfold num_add; try done.
  f_equal. ring.
Qed.

(** Decides an order fact on numbers by the cases of its arguments. *)
Ltac order_cases :=
  intros;
  unfold num_gtb, num_ltb, num_sub, num_add, num_opp, is_nan, of_Z in *;
  rewrite ?Z2Qc_inj_0 in *;
  repeat match goal with a : num |- _ => destruct a end;
  repeat match goal with
         | H : bool_decide _ = true |- _ => apply bool_decide_eq_true in H
         | H : bool_decide _ = false |- _ => apply bool_decide_eq_false in H
         end;
  rewrite ?bool_decide_eq_true, ?bool_decide_eq_false;
  try done; unfold Qclt, Qcle in *; simpl in *;
  repeat match goal with
         | H : context [Qred _] |- _ => rewrite Qred_correct in H
         end;
  rewrite ?Qred_correct; try done; try lra.

(** An excess [count - self_count] that the comprehension keeps is positive. *)
Lemma excess_positive count self_count :
  num_gtb count self_count = true →
  num_gtb (num_sub count self_count) (of_Z 0) = true.
Proof. order_cases. Qed.

Lemma add_positive acc e :
  is_nan acc = false → num_ltb acc (of_Z 0) = false →
  num_gtb e (of_Z 0) = true →
  is_nan (num_add acc e) = false
  ∧ num_ltb (num_add acc e) (of_Z 0) = false
  ∧ num_gtb acc (num_add acc e) = false
  ∧ num_gtb e (num_add acc e) = false.
Proof. repeat split; order_cases. Qed.

(** The sum of positive numbers is a number, not negative and not below any
    of them. *)
Lemma sum_positive l :
  ∀ acc, is_nan acc = false → num_ltb acc (of_Z 0) = false →
  Forall (λ e, num_gtb e (of_Z 0) = true) l →
  is_nan (foldl num_add acc l) = false
  ∧ num_ltb (foldl num_add acc l) (of_Z 0) = false
  ∧ num_gtb acc (foldl num_add acc l) = false
  ∧ Forall (λ e, num_gtb e (foldl num_add acc l) = false) l.
Proof.
  induction l as [|e l IH]; intros acc Hnan Hacc Hl; simpl.
  { repeat split; [done|done|apply num_ltb_irrefl|constructor]. }
  apply Forall_cons in Hl as [He Hl].
  destruct (add_positive acc e Hnan Hacc He) as (Hnan' & Hacc' & Hle & Hle').
  destruct (IH _ Hnan' Hacc' Hl) as (Hr & Hr0 & Hrle & Hall).
  assert (∀ x, num_gtb x (num_add acc e) = false →
            num_gtb x (foldl num_add (num_add acc e) l) = false) as Hstep.
  { intros x Hx. unfold num_gtb in *.
    destruct (num_ltb (foldl num_add (num_add acc e) l) x) eqn:Hlt; [|done].
    destruct (num_ltb_cotrans _ _ (num_add acc e) Hnan' Hlt) as [Hc|Hc];
      congruence. }
  repeat split; auto.
Qed.

(** No count exceeds the merged count [self_count + sum(excesses)]. *)
Lemma merged_count_bound count self_count total :
  is_nan total = false → num_ltb total (of_Z 0) = false →
  (num_gtb count self_count = true →
   num_gtb (num_sub count self_count) total = false) →
  num_gtb count (num_add self_count total) = false.
Proof.
  intros Hnan Htotal Hexcess.
  destruct (num_gtb count self_count) eqn:Hgt.
  - specialize (Hexcess eq_refl). order_cases.
  - clear Hexcess. order_cases.
Qed.

Section RolloutMerge.
Context {position : Type} `{Game position}.
Implicit Types (s : list (node position)) (self clone : node position).

(** The clones of a merge are rollout nodes of the store. *)
Local Abbreviation rollout_clones s clones :=
  (Forall (λ c, ∃ clone rollout_sum rollout_count,
                  s !! c = Some clone
                  ∧ node_stats clone = RolloutStats rollout_sum rollout_count)
          clones).

(** The first comprehension of [RolloutNode.merge]: the excesses are
    positive, and every clone with more rollouts than [self] contributes. *)
Lemma excesses_counts s self_count clones :
  rollout_clones s clones →
  ∃ counts,
    excesses s rollout_count_of self_count self_count clones = Ok counts
    ∧ Forall (λ e, num_gtb e (of_Z 0) = true) counts
    ∧ Forall (λ c, ∀ clone count,
                s !! c = Some clone → rollout_count_of clone = Ok count →
                num_gtb count self_count = true →
                num_sub count self_count ∈ counts) clones.
Proof.
  induction 1 as [|c clones (clone & rollout_sum & count & Hc & Hstats) _
                    (counts & Hcounts & Hpos & Hin)]; simpl.
  { exists []. repeat split; constructor. }
  rewrite (proj2 (get_Ok s c clone) Hc). simpl.
  assert (rollout_count_of clone = Ok count) as Hcount.
  { unfold rollout_count_of. by rewrite Hstats. }
  rewrite Hcount. simpl. rewrite Hcounts. simpl.
  destruct (num_gtb count self_count) eqn:Hgt.
  - exists (num_sub count self_count :: counts). split; [done|]. split.
    + constructor; [by apply excess_positive|done].
    + constructor.
      * intros clone' count' Hc' Hcount' _. rewrite Hc in Hc'.
        injection Hc' as <-. unfold rollout_count_of in Hcount'.
        rewrite Hstats in Hcount'. injection Hcount' as <-.
        apply elem_of_cons. by left.
      * eapply Forall_impl; [exact Hin|]. intros c' Hc' clone' count' ? ? ?.
        apply elem_of_cons. right. by eapply Hc'.
  - exists counts. split; [done|]. split; [done|]. constructor; [|done].
    intros clone' count' Hc' Hcount' Hgt'. rewrite Hc in Hc'.
    injection Hc' as <-. unfold rollout_count_of in Hcount'.
    rewrite Hstats in Hcount'. injection Hcount' as <-. congruence.
Qed.

(** A comprehension that no clone passes is empty. *)
Lemma excesses_none s field self_field self_count clones :
  Forall (λ c, ∃ clone count,
            s !! c = Some clone ∧ rollout_count_of clone = Ok count
            ∧ num_gtb count self_count = false) clones →
  excesses s field self_field self_count clones = Ok [].
Proof.
  induction 1 as [|c clones (clone & count & Hc & Hcount & Hgt) _ IH]; simpl;
    [done|].
  rewrite (proj2 (get_Ok s c clone) Hc). simpl. rewrite Hcount. simpl.
  by rewrite Hgt.
Qed.

(** The two assignments of [RolloutNode.merge]: the count of [self] becomes
    its count plus the excesses of the clones with more rollouts; against
    that count no clone has more rollouts, so nothing is added to the sum. *)
Lemma merge_rollout_step fuel s k self rollout_sum rollout_count clones :
  s !! k = Some self →
  node_stats self = RolloutStats rollout_sum rollout_count →
  rollout_clones s clones →
  ∃ counts,
    excesses s rollout_count_of rollout_count rollout_count clones = Ok counts
    ∧ let merged_count := num_add rollout_count (num_sum counts) in
      let s' := <[k := set_stats (RolloutStats rollout_sum merged_count) self]>
                  s in
      Forall (λ c, ∃ clone count,
                s' !! c = Some clone ∧ rollout_count_of clone = Ok count
                ∧ num_gtb count merged_count = false) clones
      ∧ merge (S fuel) s k clones
        = merge_children_clones (merge fuel) s' k clones.
Proof.
  intros Hk Hstats Hclones.
  destruct (excesses_counts s rollout_count clones Hclones)
    as (counts & Hcounts & Hpos & Hin).
  exists counts. split; [done|]. simpl.
  set (merged_count := num_add rollout_count (num_sum counts)).
  destruct (sum_positive counts (of_Z 0)) as (Hnan & Htotal & _ & Hle);
    [done|apply num_ltb_irrefl|done|].
  fold (num_sum counts) in Hnan, Htotal, Hle.
  assert (Forall (λ c, ∃ clone count,
            <[k := set_stats (RolloutStats rollout_sum merged_count) self]> s
              !! c = Some clone
            ∧ rollout_count_of clone = Ok count
            ∧ num_gtb count merged_count = false) clones) as Hbound.
  { apply Forall_forall. intros c Hc.
    destruct (decide (c = k)) as [->|Hne].
    - eexists _, merged_count.
      rewrite list_lookup_insert_eq; [|by eapply lookup_lt_Some].
      split; [done|]. split; [done|]. apply num_ltb_irrefl.
    - rewrite list_lookup_insert_ne; [|done].
      pose proof (proj1 (Forall_forall _ _) Hclones c Hc)
        as (clone & clone_sum & count & Hclone & Hclone_stats).
      exists clone, count. split; [done|].
      split; [unfold rollout_count_of; by rewrite Hclone_stats|].
      apply merged_count_bound; [done|done|]. intros Hgt.
      pose proof (proj1 (Forall_forall _ _) Hin c Hc clone count Hclone) as He.
      eapply (proj1 (Forall_forall _ _) Hle). apply He; [|done].
      unfold rollout_count_of. by rewrite Hclone_stats. }
  split; [done|].
  rewrite (proj2 (get_Ok s k self) Hk). simpl. rewrite Hstats.
  rewrite Hcounts. simpl. fold merged_count.
  rewrite (excesses_none _ _ _ _ _ Hbound). simpl.
  change (num_sum []) with (of_Z 0). rewrite num_add_0_r.
  by rewrite list_insert_insert_eq.
Qed.

Lemma first_with_children_none s clones :
  Forall (λ c, ∃ clone, s !! c = Some clone ∧ children clone = None) clones →
  first_with_children s clones = Ok None.
Proof.
  induction 1 as [|c clones (clone & Hc & Hcs) _ IH]; simpl; [done|].
  rewrite (proj2 (get_Ok s c clone) Hc). simpl. by rewrite Hcs.
Qed.

(** [RolloutNode.merge], at a node and with clones that are rollout nodes:
    the count of the node becomes its count plus the excesses of the clones
    with more rollouts, and its sum stays as it is, whatever the clones
    hold, before the merge goes on with the children.  Where neither the
    node nor a clone has children, that is the whole merge, and merging the
    same clones once more changes nothing. *)
Theorem rollout_merge_keeps_sum fuel s k self rollout_sum rollout_count
    clones :
  s !! k = Some self →
  node_stats self = RolloutStats rollout_sum rollout_count →
  rollout_clones s clones →
  ∃ counts,
    excesses s rollout_count_of rollout_count rollout_count clones = Ok counts
    ∧ let s' := <[k := set_stats
                         (RolloutStats rollout_sum
                            (num_add rollout_count (num_sum counts))) self]>
                  s in
      merge (S fuel) s k clones
      = merge_children_clones (merge fuel) s' k clones
      ∧ (children self = None →
         Forall (λ c, ∀ clone, s !! c = Some clone → children clone = None)
           clones →
         merge (S fuel) s k clones = Ok s'
         ∧ merge (S fuel) s' k clones = Ok s').
Proof.
  intros Hk Hstats Hclones.
  destruct (merge_rollout_step fuel s k self rollout_sum rollout_count clones
              Hk Hstats Hclones) as (counts & Hcounts & Hbound & Hmerge).
  exists counts. split; [done|]. simpl in *.
  set (merged_count := num_add rollout_count (num_sum counts)) in *.
  set (self' := set_stats (RolloutStats rollout_sum merged_count) self) in *.
  split; [done|]. intros Hleaf Hleaves.
  assert (<[k:=self']> s !! k = Some self') as Hk'.
  { apply list_lookup_insert_eq. by eapply lookup_lt_Some. }
  assert (Forall (λ c, ∃ clone, <[k:=self']> s !! c = Some clone
                                ∧ children clone = None) clones) as Hnone.
  { apply Forall_forall. intros c Hc.
    destruct (decide (c = k)) as [->|Hne]; [by exists self'|].
    rewrite list_lookup_insert_ne; [|done].
    pose proof (proj1 (Forall_forall _ _) Hclones c Hc)
      as (clone & ? & ? & Hclone & _).
    exists clone. split; [done|].
    by eapply (proj1 (Forall_forall _ _) Hleaves c Hc). }
  assert (merge_children_clones (merge fuel) (<[k:=self']> s) k clones
          = Ok (<[k:=self']> s)) as Hdone.
  { unfold merge_children_clones.
    rewrite (proj2 (get_Ok _ k self') Hk'). simpl. rewrite Hleaf.
    by rewrite (first_with_children_none _ _ Hnone). }
  split; [by rewrite Hmerge|].
  assert (rollout_clones (<[k:=self']> s) clones) as Hclones'.
  { apply Forall_forall. intros c Hc.
    destruct (decide (c = k)) as [->|Hne]; [by eexists self', _, _|].
    rewrite list_lookup_insert_ne; [|done].
    by apply (proj1 (Forall_forall _ _) Hclones c Hc). }
  destruct (merge_rollout_step fuel (<[k:=self']> s) k self' rollout_sum
              merged_count clones Hk' eq_refl Hclones')
    as (counts' & Hcounts' & _ & Hmerge').
  rewrite (excesses_none _ _ _ _ _ Hbound) in Hcounts'.
  injection Hcounts' as <-. simpl in Hmerge'.
  change (num_sum []) with (of_Z 0) in Hmerge'.
  rewrite num_add_0_r, list_insert_insert_eq in Hmerge'.
  by rewrite Hmerge'.
Qed.

End RolloutMerge.

Lemma rollout_merge_keeps_sum_witness :
  merge 1 merge_example 0 [1%nat; 2%nat]
  = Ok [rollout_leaf 3 25; rollout_leaf 5 15; rollout_leaf 6 20]
  ∧ merge 1 [rollout_leaf 3 25; rollout_leaf 5 15; rollout_leaf 6 20] 0
      [1%nat; 2%nat]
    = Ok [rollout_leaf 3 25; rollout_leaf 5 15; rollout_leaf 6 20].
Proof.
  destruct (rollout_merge_keeps_sum 0 merge_example 0 (rollout_leaf 3 10)
              (of_Z 3) (of_Z 10) [1%nat; 2%nat] eq_refl eq_refl)
    as (counts & Hcounts & _ & Hleaf).
  { repeat constructor; eexists _, _, _; split; reflexivity. }
  injection Hcounts as <-.
  destruct Hleaf as [Hfirst Hsecond]; [done| |].
  { repeat constructor; by intros clone [= <-]. }
  assert (<[0%nat:=set_stats
              (RolloutStats (of_Z 3)
                 (num_add (of_Z 10)
                    (num_sum [num_sub (of_Z 15) (of_Z 10);
                              num_sub (of_Z 20) (of_Z 10)])))
              (rollout_leaf 3 10)]> merge_example
          = [rollout_leaf 3 25; rollout_leaf 5 15; rollout_leaf 6 20])
    as Hstore by evaluate.
  rewrite Hstore in Hfirst, Hsecond. by split.
Defined.

(** ** MiniMax as a solver *)

Lemma num_sub_1_of_Z depth z :
  num_sub depth (of_Z 1) = of_Z z → depth = of_Z (z + 1).
Proof.
  unfold num_sub, num_opp, num_add, of_Z. destruct depth; try done.
  intros Hq. f_equal.
  apply (f_equal (λ a, match a with Fin x => x | _ => 0%Qc end)) in Hq.
  simpl in Hq. rewrite Z2Qc_inj_add, <- Hq, Z2Qc_inj_1. ring.
Qed.

Section MiniMaxSolver.
Context {position : Type} `{Game position}.

(** The contracts of a game with two players who move in turn: terminal
    outcomes are [-1], [0] or [1], and a move passes the turn. *)
Hypothesis get_winner_three_valued :
  ∀ p : position, is_over p = true → three_valued (get_winner p).
Hypothesis turns_alternate :
  ∀ p move : position, is_over p = false → move ∈ get_possible_moves p →
  is_player_1_turn move = negb (is_player_1_turn p).

(** The depths that [depth - 1], taken again and again, never turns into
    [0]: the test [depth == 0] of the search never holds. *)
Local Abbreviation never_zero depth := (∀ z, 0 ≤ z → depth ≠ of_Z z).

Lemma never_zero_pred depth :
  never_zero depth → never_zero (num_sub depth (of_Z 1)).
Proof.
  intros Hdepth z Hz Heq%num_sub_1_of_Z. apply (Hdepth (z + 1)); [lia|done].
Qed.

Lemma never_zero_test depth :
  never_zero depth → num_eqb depth (of_Z 0) = false.
Proof.
  intros Hdepth. destruct (num_eqb depth (of_Z 0)) eqn:Heq; [|done].
  apply num_eqb_eq in Heq. by destruct (Hdepth 0).
Qed.

Lemma scan_children_ext (ev ev' : position → num → result num) m vtb moves :
  (∀ c b, c ∈ moves → ev c b = ev' c b) →
  ∀ best, scan_children ev m vtb moves best
          = scan_children ev' m vtb moves best.
Proof.
  induction moves as [|c moves IH]; intros Hev best; [done|]. simpl.
  rewrite <- Hev by (apply elem_of_cons; auto).
  destruct (ev c best) as [heuristic|]; simpl; [|done].
  assert (∀ b, scan_children ev m vtb moves b
               = scan_children ev' m vtb moves b) as Hrest.
  { apply IH. intros c' b Hc'. apply Hev, elem_of_cons. auto. }
  by rewrite !Hrest.
Qed.

Lemma choose_loop_ext (ev ev' : position → num → result num) m moves :
  (∀ c b, c ∈ moves → ev c b = ev' c b) →
  ∀ best_move best, choose_loop ev m moves best_move best
                    = choose_loop ev' m moves best_move best.
Proof.
  induction moves as [|c moves IH]; intros Hev best_move best; [done|]. simpl.
  rewrite <- Hev by (apply elem_of_cons; auto).
  destruct (ev c best) as [heuristic|]; simpl; [|done].
  assert (∀ bm b, choose_loop ev m moves bm b
                  = choose_loop ev' m moves bm b) as Hrest.
  { apply IH. intros c' b Hc'. apply Hev, elem_of_cons. auto. }
  by rewrite !Hrest.
Qed.

(** The game with a winner at every position: the winner of the game where
    it is over, a draw elsewhere.  The search never asks for the winner of a
    position that is not terminal. *)
Let total_game : Game position := {|
  is_over := is_over;
  get_winner := λ p, if is_over p then get_winner p else of_Z 0;
  is_player_1_turn := is_player_1_turn;
  get_possible_moves := get_possible_moves
|}.

Lemma evaluate_total_game heuristic_func fuel :
  ∀ p depth m vtb,
  @evaluate_position_recursive position total_game heuristic_func fuel p depth
    m vtb
  = evaluate_position_recursive heuristic_func fuel p depth m vtb.
Proof.
  induction fuel as [|fuel IH]; intros p depth m vtb; [done|]. simpl.
  destruct (is_over p) eqn:Hp; [done|].
  destruct (num_eqb depth (of_Z 0)); [done|].
  apply scan_children_ext. intros c b _. apply IH.
Qed.

(** A search whose depth never turns into [0] does not look at the
    heuristic function. *)
Lemma evaluate_ignores_heuristic (h h' : position → num) fuel :
  ∀ p depth m vtb, never_zero depth →
  evaluate_position_recursive h fuel p depth m vtb
  = evaluate_position_recursive h' fuel p depth m vtb.
Proof.
  induction fuel as [|fuel IH]; intros p depth m vtb Hdepth; [done|]. simpl.
  destruct (is_over p); [done|]. rewrite (never_zero_test _ Hdepth).
  apply scan_children_ext. intros c b _. by apply IH, never_zero_pred.
Qed.

Lemma unpruned_total_game heuristic_func fuel :
  ∀ p depth m,
  @unpruned_evaluate position total_game heuristic_func fuel p depth m
  = unpruned_evaluate heuristic_func fuel p depth m.
Proof.
  induction fuel as [|fuel IH]; intros p depth m; [done|]. simpl.
  destruct (is_over p) eqn:Hp; [done|].
  destruct (num_eqb depth (of_Z 0)); [done|].
  by rewrite (mapR_ext _ (λ child, unpruned_evaluate heuristic_func fuel child
                                      (num_sub depth (of_Z 1)) (negb m))).
Qed.

Lemma total_game_not_nan p : is_nan (@get_winner position total_game p) = false.
Proof.
  simpl. destruct (is_over p) eqn:Hp; [|done].
  by destruct (get_winner_three_valued p Hp) as [-> | [-> | ->]].
Qed.

(** The running maximum from the worst value is the maximum of the values
    of a game. *)
Lemma best_of_best_value m values v :
  Forall three_valued values → best_value m values = Ok v →
  best_of m (worst m) values = v.
Proof.
  intros Hvalues. unfold best_value, num_max, num_min.
  destruct values as [|x values]; [by destruct m|].
  apply Forall_cons in Hvalues as [Hx _]. rewrite best_of_cons.
  assert (beats m x (worst m) = true) as ->.
  { by destruct m, Hx as [-> | [-> | ->]]. }
  unfold best_of, beats. destruct m; by intros [= <-].
Qed.

(** Without pruning, and with a depth that never turns into [0], the search
    is minimax over the whole game tree. *)
Lemma unpruned_evaluate_minimax heuristic_func fuel :
  ∀ p depth v, never_zero depth →
  minimax fuel p = Ok v →
  unpruned_evaluate heuristic_func fuel p depth (is_player_1_turn p) = Ok v.
Proof.
  induction fuel as [|fuel IH]; intros p depth v Hdepth; [done|]. simpl.
  destruct (is_over p) eqn:Hp; [done|]. rewrite (never_zero_test _ Hdepth).
  destruct (mapR (minimax fuel) _) as [values|] eqn:Hvalues; simpl; [|done].
  intros Hv. apply mapR_Ok in Hvalues.
  assert (Forall three_valued values) as Hthree.
  { apply Forall_forall. intros w Hw.
    apply list_elem_of_lookup in Hw as [i Hi].
    destruct (Forall2_lookup_r _ _ _ _ _ Hvalues Hi) as (c & _ & Hc).
    by eapply minimax_three_valued. }
  rewrite (mapR_Forall2 _ _ values); simpl.
  - f_equal. by apply best_of_best_value.
  - apply Forall2_same_length_lookup. split; [by eapply Forall2_length|].
    intros i c w Hc Hw.
    pose proof (Forall2_lookup_lr _ _ _ _ _ _ Hvalues Hc Hw) as Hcw.
    rewrite <- (turns_alternate p c Hp) by (by eapply list_elem_of_lookup_2).
    apply IH; [by apply never_zero_pred|done].
Qed.

(** The first best move: its value is the best value, and it is one of the
    moves. *)
Lemma best_move_of_spec m (moves : list position) values v :
  length moves = length values → Forall three_valued values →
  best_value m values = Ok v →
  ∃ i move, best_move_of m (None, worst m) (zip moves values) = (Some move, v)
            ∧ moves !! i = Some move ∧ values !! i = Some v.
Proof.
  intros Hlen Hthree Hv.
  assert (∀ (valued : list (position * num)) start,
            let out := best_move_of m start valued in
            out.2 = best_of m start.2 valued.*2
            ∧ (out = start ∨ ∃ mv, mv ∈ valued ∧ out = (Some mv.1, mv.2)))
    as Hfold.
  { induction valued as [|mv valued IH]; intros start; simpl; [auto|].
    destruct (IH (if beats m mv.2 start.2 then (Some mv.1, mv.2) else start))
      as [Hval Hmove].
    split.
    - rewrite Hval. by destruct (beats m mv.2 start.2).
    - destruct Hmove as [Hmove|(mv' & Hin & Hmove)].
      + unfold best_move_of in *. simpl. rewrite Hmove.
        destruct (beats m mv.2 start.2); [|by left].
        right. exists mv. split; [apply elem_of_cons; by left|done].
      + right. exists mv'. split; [apply elem_of_cons; by right|done]. }
  destruct (Hfold (zip moves values) (None, worst m)) as [Hval Hmove].
  rewrite snd_zip in Hval by lia. simpl in Hval.
  rewrite (best_of_best_value _ _ _ Hthree Hv) in Hval.
  destruct Hmove as [Hmove|(mv & Hin & Hmove)].
  - rewrite Hmove in Hval. simpl in Hval. exfalso.
    assert (three_valued v) as Hv3.
    { apply best_value_elem in Hv.
      by apply (proj1 (Forall_forall _ _) Hthree). }
    by destruct m, Hv3 as [-> | [-> | ->]].
  - rewrite Hmove in Hval. simpl in Hval. subst v.
    apply list_elem_of_lookup in Hin as [i Hi].
    apply lookup_zip_with_Some in Hi as (move & w & -> & Hmv & Hw).
    exists i, move. by rewrite Hmove.
Qed.

(** [MiniMax.solver] (the depth [np.inf]), and every search whose depth is
    not a positive integer (so [0] and the negative depths): [choose_move]
    never reads the heuristic function and searches to the end of the game.
    Where the game tree below the position is finite, it returns a legal
    move and the exact value of the position, and that move leads to a
    position of that value. *)
Theorem solver_exact (heuristic_func : position → num) depth fuel p v :
  (∀ z, 1 ≤ z → depth ≠ of_Z z) →
  is_over p = false →
  minimax (S fuel) p = Ok v →
  ∃ move,
    choose_move heuristic_func fuel depth p = Ok (Some move, v)
    ∧ move ∈ get_possible_moves p
    ∧ minimax fuel move = Ok v.
Proof.
  intros Hdepth Hp. simpl. rewrite Hp.
  destruct (mapR (minimax fuel) _) as [values|] eqn:Hvalues; simpl; [|done].
  intros Hv. apply mapR_Ok in Hvalues.
  assert (never_zero (num_sub depth (of_Z 1))) as Hdepth'.
  { intros z Hz Heq%num_sub_1_of_Z. apply (Hdepth (z + 1)); [lia|done]. }
  assert (Forall three_valued values) as Hthree.
  { apply Forall_forall. intros w Hw.
    apply list_elem_of_lookup in Hw as [i Hi].
    destruct (Forall2_lookup_r _ _ _ _ _ Hvalues Hi) as (c & _ & Hc).
    by eapply minimax_three_valued. }
  destruct (best_move_of_spec (is_player_1_turn p) (get_possible_moves p)
              values v) as (i & move & Hbest & Hmove & Hvalue);
    [by eapply Forall2_length|done|done|].
  exists move. split; [|split].
  - set (h0 := λ _ : position, of_Z 0).
    assert (unpruned_choose_move h0 fuel depth p = Ok (Some move, v)) as Hun.
    { unfold unpruned_choose_move. rewrite Hp.
      rewrite (mapR_Forall2 _ _ values); simpl; [by rewrite Hbest|].
      apply Forall2_same_length_lookup. split; [by eapply Forall2_length|].
      intros j c w Hc Hw.
      pose proof (Forall2_lookup_lr _ _ _ _ _ _ Hvalues Hc Hw) as Hcw.
      rewrite <- (turns_alternate p c Hp) by (by eapply list_elem_of_lookup_2).
      by apply unpruned_evaluate_minimax. }
    assert (@unpruned_choose_move position total_game h0 fuel depth p
            = Ok (Some move, v)) as Hun'.
    { unfold unpruned_choose_move in *. simpl. rewrite Hp in *.
      rewrite (mapR_ext _ (λ move, unpruned_evaluate h0 fuel move
                             (num_sub depth (of_Z 1))
                             (negb (is_player_1_turn p))))
        by (intros; apply unpruned_total_game).
      exact Hun. }
    apply (choose_move_refines (H := total_game) h0 total_game_not_nan)
      in Hun'; [|done].
    rewrite <- Hun'. unfold choose_move. simpl. rewrite Hp.
    apply choose_loop_ext. intros c b _.
    rewrite evaluate_total_game. by apply evaluate_ignores_heuristic.
  - by eapply list_elem_of_lookup_2.
  - by eapply (Forall2_lookup_lr _ _ _ _ _ _ Hvalues).
Qed.

End MiniMaxSolver.

Lemma pile_turns_alternate (p move : nat * bool) :
  is_over p = false → move ∈ get_possible_moves p →
  is_player_1_turn move = negb (is_player_1_turn p).
Proof.
  intros _. destruct p as [[|[|n]] turn]; simpl.
  - by intros ?%elem_of_nil.
  - by intros ->%list_elem_of_singleton.
  - intros [-> | ->%list_elem_of_singleton]%elem_of_cons; done.
Qed.

Lemma solver_exact_witness :
  ∃ move,
    choose_move pile_heuristic 4 PInf (4%nat, true) = Ok (Some move, of_Z 1)
    ∧ move ∈ get_possible_moves (4%nat, true)
    ∧ minimax 4 move = Ok (of_Z 1).
Proof.
  apply (solver_exact pile_winner_three_valued pile_turns_alternate
           pile_heuristic PInf 4 (4%nat, true) (of_Z 1)).
  - done.
  - reflexivity.
  - evaluate.
Defined.

(** ** MiniMax: the chosen move and its value *)

Section MiniMaxRange.
Context {position : Type} `{Game position}.
Variable heuristic_func : position → num.

(** The contract of [heuristic_func] ("a heuristic approximation in
    [[-1, 1]]"), the same for the outcomes, and a move at every position
    that is not terminal. *)
Hypothesis get_winner_in_range :
  ∀ p : position, is_over p = true → in_range (get_winner p).
Hypothesis heuristic_in_range : ∀ p, in_range (heuristic_func p).
Hypothesis moves_exist :
  ∀ p : position, is_over p = false → get_possible_moves p ≠ [].

Lemma in_range_beats_worst m v : in_range v → beats m v (worst m) = true.
Proof.
  intros [Hlo Hhi]. unfold num_leb in *.
  destruct v, m; try done; by vm_compute in Hlo, Hhi.
Qed.

Lemma scan_children_in_range (ev : position → num → result num) m vtb moves :
  (∀ c b r, c ∈ moves → ev c b = Ok r → in_range r) →
  ∀ best r, (in_range best ∨ best = worst m ∧ moves ≠ []) →
  scan_children ev m vtb moves best = Ok r → in_range r.
Proof.
  induction moves as [|c moves IH]; intros Hev best r Hbest; simpl.
  { intros [= <-]. by destruct Hbest as [?|[_ ?]]. }
  destruct (ev c best) as [heuristic|] eqn:Hc; simpl; [|done].
  assert (in_range heuristic) as Hheuristic.
  { eapply Hev; [|done]. apply elem_of_cons. by left. }
  assert (∀ b r, in_range b → scan_children ev m vtb moves b = Ok r →
                 in_range r) as Hrest.
  { intros b r' Hb. apply IH; [|by left].
    intros c' b' r'' Hc'. apply Hev, elem_of_cons. by right. }
  assert (in_range best ∨
          (m && num_gtb heuristic best = true ∧ m = true)
          ∨ (negb m && num_ltb heuristic best = true ∧ m = false)) as Hcases.
  { destruct Hbest as [?|[-> _]]; [by left|right].
    pose proof (in_range_beats_worst m _ Hheuristic) as Hbeats.
    destruct m; simpl in *; [left|right]; by rewrite Hbeats. }
  destruct (m && num_gtb heuristic best) eqn:Hmax.
  { destruct (num_gtb heuristic vtb); [by intros [= <-]|by apply Hrest]. }
  destruct (negb m && num_ltb heuristic best) eqn:Hmin.
  { destruct (num_ltb heuristic vtb); [by intros [= <-]|by apply Hrest]. }
  destruct Hcases as [?|[[? _]|[? _]]]; [by apply Hrest|done|done].
Qed.

Lemma evaluate_in_range fuel :
  ∀ p depth m vtb r,
  evaluate_position_recursive heuristic_func fuel p depth m vtb = Ok r →
  in_range r.
Proof.
  induction fuel as [|fuel IH]; intros p depth m vtb r; [done|]. simpl.
  destruct (is_over p) eqn:Hp.
  { intros [= <-]. by apply get_winner_in_range. }
  destruct (num_eqb depth (of_Z 0)).
  { intros [= <-]. apply heuristic_in_range. }
  apply scan_children_in_range.
  - intros c b r' _. apply IH.
  - right. split; [done|by apply moves_exist].
Qed.

Lemma choose_loop_legal (ev : position → num → result num) m moves :
  (∀ c b r, c ∈ moves → ev c b = Ok r → in_range r) →
  ∀ best_move best out,
  (in_range best ∧ (∃ move, best_move = Some move)
   ∨ best = worst m ∧ moves ≠ []) →
  choose_loop ev m moves best_move best = Ok out →
  in_range out.2
  ∧ ∃ move, out.1 = Some move ∧ (best_move = Some move ∨ move ∈ moves).
Proof.
  induction moves as [|c moves IH]; intros Hev best_move best out Hbest; simpl.
  { intros [= <-]. destruct Hbest as [[? [move ->]]|[_ ?]]; [|done].
    split; [done|]. exists move. auto. }
  destruct (ev c best) as [heuristic|] eqn:Hc; simpl; [|done].
  assert (in_range heuristic) as Hheuristic.
  { eapply Hev; [|done]. apply elem_of_cons. by left. }
  assert (∀ bm b, in_range b → (∃ move, bm = Some move) →
            choose_loop ev m moves bm b = Ok out →
            in_range out.2
            ∧ ∃ move, out.1 = Some move ∧ (bm = Some move ∨ move ∈ moves))
    as Hrest.
  { intros bm b Hb Hbm. apply IH; [|by left].
    intros c' b' r Hc'. apply Hev, elem_of_cons. by right. }
  destruct ((m && num_gtb heuristic best)
            || (negb m && num_ltb heuristic best)) eqn:Htest.
  - intros Hout. apply Hrest in Hout as [? (move & ? & Hmove)];
      [|done|by eexists].
    split; [done|]. exists move. split; [done|]. right.
    apply elem_of_cons. destruct Hmove as [[= ->]|?]; auto.
  - destruct Hbest as [[? [move0 ->]]|[-> _]].
    + intros Hout. apply Hrest in Hout as [? (move & ? & Hmove)];
        [|done|by eexists].
      split; [done|]. exists move. split; [done|].
      destruct Hmove as [?|?]; [by left|right]. apply elem_of_cons. auto.
    + pose proof (in_range_beats_worst m _ Hheuristic) as Hbeats.
      destruct m; simpl in *; by rewrite Hbeats in Htest.
Qed.

Lemma scan_children_returns (ev : position → num → result num) m vtb moves :
  (∀ c b, c ∈ moves → returns (ev c b)) →
  ∀ best, returns (scan_children ev m vtb moves best).
Proof.
  induction moves as [|c moves IH]; intros Hev best; simpl; [by eexists|].
  destruct (Hev c best) as [heuristic ->]; [apply elem_of_cons; by left|].
  simpl.
  assert (∀ b, returns (scan_children ev m vtb moves b)) as Hrest.
  { apply IH. intros c' b Hc'. apply Hev, elem_of_cons. by right. }
  destruct (m && num_gtb heuristic best).
  { destruct (num_gtb heuristic vtb); [by eexists|apply Hrest]. }
  destruct (negb m && num_ltb heuristic best); [|apply Hrest].
  destruct (num_ltb heuristic vtb); [by eexists|apply Hrest].
Qed.

Lemma evaluate_returns fuel :
  ∀ (d : Z) p m vtb, 0 ≤ d → (Z.to_nat d < fuel)%nat →
  returns (evaluate_position_recursive heuristic_func fuel p (of_Z d) m vtb).
Proof.
  induction fuel as [|fuel IH]; intros d p m vtb Hd Hfuel; [lia|].
  cbn [evaluate_position_recursive]. destruct (is_over p); [by eexists|].
  rewrite of_Z_eqb. case_bool_decide; [by eexists|].
  rewrite of_Z_sub. apply scan_children_returns.
  intros c b _. apply IH; lia.
Qed.

Lemma choose_loop_returns (ev : position → num → result num) m moves :
  (∀ c b, c ∈ moves → returns (ev c b)) →
  ∀ best_move best, returns (choose_loop ev m moves best_move best).
Proof.
  induction moves as [|c moves IH]; intros Hev best_move best; simpl;
    [by eexists|].
  destruct (Hev c best) as [heuristic ->]; [apply elem_of_cons; by left|].
  simpl.
  assert (∀ bm b, returns (choose_loop ev m moves bm b)) as Hrest.
  { apply IH. intros c' b Hc'. apply Hev, elem_of_cons. by right. }
  destruct (_ || _); apply Hrest.
Qed.

(** [choose_move] at a position that is not terminal, whatever the depth:
    when it returns, the move is one of the possible moves (never [None])
    and the value is within [[-1, 1]].  With a depth [d >= 1] it does return
    once the fuel reaches the depth. *)
Theorem choose_move_legal fuel depth p :
  is_over p = false →
  (∀ out, choose_move heuristic_func fuel depth p = Ok out →
     in_range out.2
     ∧ ∃ move, out.1 = Some move ∧ move ∈ get_possible_moves p)
  ∧ (∀ d : Z, depth = of_Z d → 1 ≤ d → (Z.to_nat d ≤ fuel)%nat →
     returns (choose_move heuristic_func fuel depth p)).
Proof.
  intros Hp. unfold choose_move. rewrite Hp. split.
  - intros out Hout. apply choose_loop_legal in Hout.
    + destruct Hout as [? (move & ? & [?|?])]; [done|]. split; [done|].
      by exists move.
    + intros c b r _. apply evaluate_in_range.
    + right. split; [done|by apply moves_exist].
  - intros d -> Hd Hfuel. apply choose_loop_returns. intros c b _.
    rewrite of_Z_sub. apply evaluate_returns; lia.
Qed.

End MiniMaxRange.

Lemma pile_moves_exist (p : nat * bool) :
  is_over p = false → get_possible_moves p ≠ [].
Proof. by destruct p as [[|[|n]] turn]. Qed.

Lemma three_tokens_heuristic_in_range (p : nat * bool) :
  in_range (three_tokens_heuristic p).
Proof.
  unfold three_tokens_heuristic. by case_bool_decide; [destruct p.2|];
    vm_compute.
Qed.

Lemma choose_move_legal_witness :
  choose_move three_tokens_heuristic 1 (of_Z 1) (4%nat, true)
  = Ok (Some (3%nat, false), of_Z 1)
  ∧ in_range (of_Z 1)
  ∧ ∃ move, Some (3%nat, false) = Some move
            ∧ move ∈ get_possible_moves (4%nat, true).
Proof.
  assert (choose_move three_tokens_heuristic 1 (of_Z 1) (4%nat, true)
          = Ok (Some (3%nat, false), of_Z 1)) as Hrun by evaluate.
  split; [done|].
  exact (proj1 (choose_move_legal three_tokens_heuristic
                  (λ p Hp, three_valued_in_range _
                             (pile_winner_three_valued p Hp))
                  three_tokens_heuristic_in_range pile_moves_exist
                  1 (of_Z 1) (4%nat, true) eq_refl)
               (Some (3%nat, false), of_Z 1) Hrun).
Defined.

(** ** [RolloutNode.expand]: the backup of a batch of playouts *)

Section RolloutBackup.
Context {position : Type} `{Game position}.
Variable rollout_batch_size : num.
Implicit Types (s : list (node position)) (nd : node position).

(** A rollout node after the backup of a batch with the sum [total]. *)
Local Abbreviation with_batch total nd :=
  (match node_stats nd with
   | RolloutStats rollout_sum rollout_count =>
       set_stats (RolloutStats (num_add rollout_sum total)
                    (num_add rollout_count rollout_batch_size)) nd
   | HeuristicStats _ _ _ => nd
   end).

Lemma rollout_backup_spec fuel :
  ∀ s node anc total,
  chain s node anc → NoDup anc →
  Forall (λ a, ∃ nd rollout_sum rollout_count,
            s !! a = Some nd
            ∧ node_stats nd = RolloutStats rollout_sum rollout_count) anc →
  (length anc ≤ fuel)%nat →
  ∃ s', rollout_backup rollout_batch_size fuel s node total = Ok s'
        ∧ length s' = length s
        ∧ (∀ a nd, a ∈ anc → s !! a = Some nd →
             s' !! a = Some (with_batch total nd))
        ∧ (∀ x, x ∉ anc → s' !! x = s !! x).
Proof.
  induction fuel as [|fuel IH]; intros s node anc total Hchain Hnd Hall Hfuel;
    destruct Hchain as [|n nd anc Hn Hchain]; simpl in *; try lia.
  { exists s. split; [done|]. split; [done|].
    split; [by intros a nd ?%elem_of_nil|done]. }
  { exists s. split; [done|]. split; [done|].
    split; [by intros a nd ?%elem_of_nil|done]. }
  apply NoDup_cons in Hnd as [Hn_anc Hnd].
  apply Forall_cons in Hall as [(nd0 & rs & rc & Hn0 & Hstats) Hall].
  rewrite Hn in Hn0. injection Hn0 as <-.
  rewrite (proj2 (get_Ok _ _ _) Hn). simpl. rewrite Hstats.
  set (nd' := set_stats _ nd).
  destruct (IH (<[n:=nd']> s) (parent nd) anc total) as (s' & Hrun & Hlen & Hin & Hout).
  - by apply chain_insert.
  - done.
  - eapply Forall_impl; [apply Forall_and; split; [exact Hall|]|].
    + apply Forall_forall. intros a Ha. exact Ha.
    + intros a [(nda & rsa & rca & Ha & Hsa) Ha_in]. simpl in *.
      exists nda, rsa, rca. split; [|done].
      rewrite list_lookup_insert_ne; [done|]. by intros ->.
  - lia.
  - exists s'. rewrite Hrun, Hlen, length_insert. repeat split.
    + intros a nda [->|Ha]%elem_of_cons Hnda.
      * rewrite Hout by done. rewrite Hn in Hnda. injection Hnda as <-.
        rewrite Hstats. apply list_lookup_insert_eq. by eapply lookup_lt_Some.
      * apply Hin; [done|]. rewrite list_lookup_insert_ne; [done|].
        by intros ->.
    + intros x [Hne Hx]%not_elem_of_cons. rewrite Hout by done.
      by rewrite list_lookup_insert_ne.
Qed.

(** [RolloutNode.expand] on a node whose parent chain [anc] (the node
    itself first, the root last) has no cycle and holds rollout nodes: the
    call returns; every node of the chain, solved or not, gets the sum of
    the playouts added to its [rollout_sum] and the batch size added to its
    [rollout_count]; no other node changes and no node is created. *)
Theorem rollout_expand_backup fuel s k anc rollouts :
  chain s (Some k) anc → NoDup anc →
  Forall (λ a, ∃ nd rollout_sum rollout_count,
            s !! a = Some nd
            ∧ node_stats nd = RolloutStats rollout_sum rollout_count) anc →
  (length anc ≤ fuel)%nat →
  ∃ s', RolloutNode_expand rollout_batch_size fuel s k rollouts = Ok s'
        ∧ length s' = length s
        ∧ (∀ a nd rollout_sum rollout_count,
             a ∈ anc → s !! a = Some nd →
             node_stats nd = RolloutStats rollout_sum rollout_count →
             s' !! a
             = Some (set_stats
                       (RolloutStats (num_add rollout_sum (num_sum rollouts))
                          (num_add rollout_count rollout_batch_size)) nd))
        ∧ (∀ x, x ∉ anc → s' !! x = s !! x).
Proof.
  intros Hchain Hnd Hall Hfuel. unfold RolloutNode_expand.
  destruct (rollout_backup_spec fuel s (Some k) anc (num_sum rollouts)
              Hchain Hnd Hall Hfuel) as (s' & Hrun & Hlen & Hin & Hout).
  exists s'. repeat split; try done.
  intros a nd rs rc Ha Hnda Hstats. rewrite (Hin a nd Ha Hnda).
  by rewrite Hstats.
Qed.

End RolloutBackup.

Lemma rollout_expand_backup_witness :
  ∃ s', RolloutNode_expand (of_Z 1) 2 shortcut_example 1 [of_Z (-1)] = Ok s'
        ∧ length s' = length shortcut_example
        ∧ (∀ a nd rollout_sum rollout_count,
             a ∈ [1%nat; 0%nat] → shortcut_example !! a = Some nd →
             node_stats nd = RolloutStats rollout_sum rollout_count →
             s' !! a
             = Some (set_stats
                       (RolloutStats
                          (num_add rollout_sum (num_sum [of_Z (-1)]))
                          (num_add rollout_count (of_Z 1))) nd))
        ∧ (∀ x, x ∉ [1%nat; 0%nat] → s' !! x = shortcut_example !! x).
Proof.
  apply (rollout_expand_backup (of_Z 1) 2 shortcut_example 1
           [1%nat; 0%nat] [of_Z (-1)]).
  - eapply chain_step; [reflexivity|]. eapply chain_step; [reflexivity|].
    constructor.
  - apply NoDup_cons. split; [by intros ?%list_elem_of_singleton|].
    apply NoDup_singleton.
  - repeat constructor; eexists _, _, _; split; reflexivity.
  - simpl. lia.
Defined.

(** ** Random playouts *)

Section PlayoutProperties.
Context {position : Type} `{Game position}.
Variable rng : Type.
Variable randint : rng → nat → nat * rng.

(** The contract of [np.random.randint(n)]: a number below [n]. *)
Hypothesis randint_bound : ∀ g n, (0 < n)%nat → ((randint g n).1 < n)%nat.

Lemma execute_single_rollout_final fuel :
  ∀ g state outcome g',
  execute_single_rollout rng randint fuel g state = Ok (outcome, g') →
  ∃ final, reaches state final ∧ is_over final = true
           ∧ outcome = get_winner final.
Proof.
  induction fuel as [|fuel IH]; intros g state outcome g'; [done|]. simpl.
  destruct (is_over state) eqn:Hstate.
  { intros [= <- <-]. exists state. split; [constructor|done]. }
  case_bool_decide; [done|].
  destruct (randint g _) as [i g1]. unfold index.
  destruct (get_possible_moves state !! i) as [next|] eqn:Hnext; [|done].
  simpl. intros (final & Hpath & Hfinal & ->)%IH.
  exists final. split; [|done].
  eapply reaches_move; [done| |exact Hpath].
  by eapply list_elem_of_lookup_2.
Qed.

Lemma execute_single_rollout_returns fuel :
  ∀ g state w, minimax fuel state = Ok w →
  returns (execute_single_rollout rng randint fuel g state).
Proof.
  induction fuel as [|fuel IH]; intros g state w; [done|]. simpl.
  destruct (is_over state); [by eexists|].
  destruct (mapR _ _) as [values|] eqn:Hvalues; simpl; [|done].
  apply mapR_Ok in Hvalues. intros Hbest.
  assert (length (get_possible_moves state) ≠ 0%nat) as Hmoves.
  { rewrite (Forall2_length _ _ _ Hvalues).
    destruct values; [|done]. by destruct (is_player_1_turn state). }
  rewrite bool_decide_eq_false_2 by done.
  pose proof (randint_bound g (length (get_possible_moves state))) as Hi.
  destruct (randint g _) as [i g1]. simpl in Hi. unfold index.
  destruct (lookup_lt_is_Some_2 (get_possible_moves state) i) as [next Hnext];
    [lia|].
  rewrite Hnext. simpl.
  destruct (Forall2_lookup_l _ _ _ _ _ Hvalues Hnext) as (v & _ & Hv).
  by eapply IH.
Qed.

Lemma playouts_final fuel p n :
  ∀ g outcomes g',
  playouts rng randint fuel g p n = Ok (outcomes, g') →
  length outcomes = n
  ∧ Forall (λ outcome, ∃ final, reaches p final ∧ is_over final = true
                                ∧ outcome = get_winner final) outcomes.
Proof.
  induction n as [|n IH]; intros g outcomes g'; simpl.
  { by intros [= <- <-]. }
  destruct (execute_single_rollout _ _ _ _ _) as [[outcome g1]|] eqn:Hone;
    simpl; [|done].
  destruct (playouts _ _ _ _ _ _) as [[rest g2]|] eqn:Hrest; simpl; [|done].
  intros [= <- <-]. apply IH in Hrest as [Hlen Hall].
  split; [by rewrite <- Hlen|]. constructor; [|done].
  by eapply execute_single_rollout_final.
Qed.

(** A playout ends at a terminal position that legal moves reach from its
    start, and returns the outcome there; from a terminal position it
    returns the outcome at once, with no draw.  Where the game tree below
    the start is finite (minimax over it returns), the playout returns,
    whatever the draws.  A batch of [n] playouts that returns has [n]
    outcomes of that kind. *)
Theorem playout_outcome fuel g state :
  (∀ outcome g',
     execute_single_rollout rng randint fuel g state = Ok (outcome, g') →
     ∃ final, reaches state final ∧ is_over final = true
              ∧ outcome = get_winner final)
  ∧ (∀ w, minimax fuel state = Ok w →
     returns (execute_single_rollout rng randint fuel g state))
  ∧ (is_over state = true →
     execute_single_rollout rng randint (S fuel) g state
     = Ok (get_winner state, g))
  ∧ (∀ n outcomes g',
     playouts rng randint fuel g state n = Ok (outcomes, g') →
     length outcomes = n
     ∧ Forall (λ outcome, ∃ final, reaches state final ∧ is_over final = true
                                   ∧ outcome = get_winner final) outcomes).
Proof.
  split; [|split; [|split]].
  - apply execute_single_rollout_final.
  - intros w. apply execute_single_rollout_returns.
  - simpl. by intros ->.
  - intros n. apply playouts_final.
Qed.

End PlayoutProperties.

Lemma counting_randint_bound g n :
  (0 < n)%nat → ((counting_randint g n).1 < n)%nat.
Proof. intros Hn. simpl. apply Nat.mod_upper_bound. lia. Qed.

Lemma playout_outcome_witness :
  execute_single_rollout nat counting_randint 5 0%nat (4%nat, true)
  = Ok (of_Z 1, 3%nat)
  ∧ ∃ final, reaches (4%nat, true) final ∧ is_over final = true
             ∧ of_Z 1 = get_winner final.
Proof.
  assert (execute_single_rollout nat counting_randint 5 0%nat (4%nat, true)
          = Ok (of_Z 1, 3%nat)) as Hrun by evaluate.
  split; [done|].
  exact (proj1 (playout_outcome nat counting_randint counting_randint_bound
                  5 0%nat (4%nat, true)) (of_Z 1) 3%nat Hrun).
Defined.

(** ** [MCTS.choose_move] *)

Section DriverProperties.
Context {position : Type} `{Game position}.
Variable exploration : num → num → num.
Variable d : num.
Variable network_call : list position → list (list num * num).
Variable rollout_batch_size : num.
Variable np_exp : num → num.

Hypothesis get_winner_three_valued :
  ∀ p : position, is_over p = true → three_valued (get_winner p).
Hypothesis network_call_length :
  ∀ ps, length (network_call ps) = length ps.
Hypothesis network_call_finite :
  ∀ ps, Forall (λ r, Forall finite r.1 ∧ finite r.2) (network_call ps).
Hypothesis exploration_not_nan : ∀ N n, is_nan (exploration N n) = false.
Hypothesis d_finite : finite d.

Lemma choose_best_node_child fuel (s : list (node position)) k best
    distribution :
  choose_best_node np_exp fuel s k = Ok (best, distribution) →
  ∃ self cs, s !! k = Some self ∧ children self = Some cs ∧ best ∈ cs.
Proof.
  unfold choose_best_node.
  destruct (get s k) as [self|] eqn:Hk; simpl; [|done]. apply get_Ok in Hk.
  destruct (weights _ _ _ _) as [ws|]; simpl; [|done].
  destruct (argmax _) as [idx|]; simpl; [|done].
  destruct (children self) as [cs|] eqn:Hcs; simpl; [|done].
  unfold index. destruct (cs !! idx) as [c|] eqn:Hc; simpl; [|done].
  intros [= <- _]. exists self, cs. split; [done|]. split; [done|].
  by eapply list_elem_of_lookup_2.
Qed.

(** [MCTS.choose_move] returns a legal move: whenever it returns, the
    position it returns is one of the possible moves at the position it was
    asked about.  It raises 'Game Finished!' on a terminal position. *)
Theorem mcts_move_legal network fuel batches p :
  Forall (Forall finite) batches →
  (∀ q, MCTS_choose_move exploration d network_call rollout_batch_size np_exp
          network fuel batches p = Ok q →
        q ∈ get_possible_moves p)
  ∧ (is_over p = true →
     MCTS_choose_move exploration d network_call rollout_batch_size np_exp
       network fuel batches p = Raise (Exception "Game Finished!")).
Proof.
  intros Hbatches. unfold MCTS_choose_move. split; [|by intros ->].
  intros q. destruct (is_over p) eqn:Hp; [done|].
  destruct (if network then _ else _) as [root|] eqn:Hroot; simpl; [|done].
  assert (search_inv [root] ∧ position_of root = p ∧ parent root = None)
    as (Hinv & Hpos & Hpar).
  { destruct network.
    - split; [by eapply search_inv_heuristic_root|].
      unfold HeuristicRoot in Hroot. rewrite Hp in Hroot.
      destruct (index _ _); simpl in Hroot; [|done]. by injection Hroot as <-.
    - injection Hroot as <-. split; [apply search_inv_rollout_root|done]. }
  destruct (search_loop _ _ _ _ _ _ _ _) as [s|] eqn:Hs; simpl; [|done].
  apply search_loop_sound in Hs as [Hinv' Hev]; try done.
  2:{ intros nd [= <-]. done. }
  destruct (choose_best_node _ _ _ _) as [[best distribution]|] eqn:Hbest;
    simpl; [|done].
  apply choose_best_node_child in Hbest as (self & cs & Hself & Hcs & Hin).
  destruct (get s best) as [child|] eqn:Hchild; simpl; [|done].
  apply get_Ok in Hchild. intros [= <-].
  destruct (Hev 0%nat root eq_refl) as (root' & Hroot' & Hpos' & _).
  rewrite Hself in Hroot'. injection Hroot' as <-.
  pose proof (ok_children _ _ _ (Hinv' _ _ Hself) cs Hcs) as Hmoves.
  rewrite Hpos', Hpos in Hmoves.
  apply list_elem_of_lookup in Hin as [i Hi].
  destruct (Forall2_lookup_l _ _ _ _ _ Hmoves Hi)
    as (move & Hmove & child' & Hchild' & <- & _).
  rewrite Hchild in Hchild'. injection Hchild' as <-.
  by eapply list_elem_of_lookup_2.
Qed.

(** With a time limit that leaves a rollout search fewer than two
    iterations, or a search with a network none, the root has no children
    when the loop ends, and [choose_move] raises [TypeError] where it
    iterates over them. *)
Theorem mcts_too_few_iterations fuel batches p :
  is_over p = false →
  ((length batches ≤ 1)%nat →
   MCTS_choose_move exploration d network_call rollout_batch_size np_exp
     false (S fuel) batches p = Raise TypeError)
  ∧ (batches = [] →
     MCTS_choose_move exploration d network_call rollout_batch_size np_exp
       true fuel batches p = Raise TypeError).
Proof.
  intros Hp. unfold MCTS_choose_move. rewrite Hp. split.
  - destruct batches as [|rollouts [|? ?]]; simpl; try lia; intros _.
    + by unfold choose_best_node, weights, RolloutNode.
    + unfold RolloutNode at 1 2 3. rewrite Hp. simpl.
      unfold expand, RolloutNode_expand. simpl.
      by destruct fuel.
  - intros ->. unfold HeuristicRoot. rewrite Hp.
    pose proof (network_call_length [p]) as Hlen.
    unfold index. destruct (network_call [p]) as [|r rs]; [done|]. simpl.
    by unfold choose_best_node, weights, HeuristicNode.
Qed.

End DriverProperties.

Lemma mcts_move_legal_witness :
  MCTS_choose_move flat_exploration (of_Z 1) blind_network (of_Z 1)
    rational_exp false 3 [[of_Z 1]; [of_Z (-1)]; []] (2%nat, true)
  = Ok (0%nat, false)
  ∧ (0%nat, false) ∈ get_possible_moves (2%nat, true).
Proof.
  assert (MCTS_choose_move flat_exploration (of_Z 1) blind_network (of_Z 1)
            rational_exp false 3 [[of_Z 1]; [of_Z (-1)]; []] (2%nat, true)
          = Ok (0%nat, false)) as Hrun by evaluate.
  split; [done|].
  refine (proj1 (mcts_move_legal flat_exploration (of_Z 1) blind_network
                   (of_Z 1) rational_exp pile_winner_three_valued
                   blind_network_length blind_network_finite
                   (λ _ _, eq_refl) (finite_of_Z 1) false 3
                   [[of_Z 1]; [of_Z (-1)]; []] (2%nat, true) _)
                (0%nat, false) Hrun).
  repeat constructor; apply finite_of_Z.
Defined.

Lemma mcts_too_few_iterations_witness :
  MCTS_choose_move flat_exploration (of_Z 1) blind_network (of_Z 1)
    rational_exp false 1 [[of_Z 1]] (2%nat, true)
  = Raise TypeError.
Proof.
  apply (mcts_too_few_iterations flat_exploration (of_Z 1) blind_network
           (of_Z 1) rational_exp blind_network_length 0 [[of_Z 1]]
           (2%nat, true)); [reflexivity|simpl; lia].
Defined.

(** ** The move of a solved search *)

(** Decides an order fact on rationals in canonical form. *)
Ltac qc_arith :=
  unfold Qcle, Qclt in *; simpl in *;
  repeat match goal with
         | H : context [Qred _] |- _ => rewrite Qred_correct in H
         end;
  rewrite ?Qred_correct; lra.

Section ProofTrees.
Context {position : Type} `{Game position}.
Variable exploration : num → num → num.
Variable d : num.
Variable network_call : list position → list (list num * num).
Variable rollout_batch_size : num.
Variable np_exp : num → num.

Hypothesis get_winner_three_valued :
  ∀ p : position, is_over p = true → three_valued (get_winner p).
Hypothesis network_call_length :
  ∀ ps, length (network_call ps) = length ps.
Hypothesis network_call_finite :
  ∀ ps, Forall (λ r, Forall finite r.1 ∧ finite r.2) (network_call ps).
Hypothesis exploration_not_nan : ∀ N n, is_nan (exploration N n) = false.
Hypothesis d_finite : finite d.
(** [np.exp] of a number is a positive number. *)
Hypothesis np_exp_positive :
  ∀ x, finite x → finite (np_exp x) ∧ num_gtb (np_exp x) (of_Z 0) = true.

Implicit Types (s : list (node position)) (self child nd : node position).

(** *** The search keeps the proofs *)

Lemma proof_tree_later s s' :
  proof_tree s → evolves s s' →
  (∀ x nd', s' !! x = Some nd' → fully_expanded nd' = true →
     (∃ nd, s !! x = Some nd ∧ fully_expanded nd = true)
     ∨ (children nd' = None ∧ is_over (position_of nd') = true)) →
  proof_tree s'.
Proof.
  intros Hproof Hev Hnew x nd' Hx Hfe.
  destruct (Hnew x nd' Hx Hfe) as [(nd & Hnd & Hndfe)|[-> Hover]]; [|done].
  destruct (Hev x nd Hnd) as (nd2 & Hx2 & _ & _ & _ & Hsame).
  rewrite Hx in Hx2. injection Hx2 as <-. rewrite (Hsame Hndfe).
  specialize (Hproof x nd Hnd Hndfe).
  destruct (children nd) as [cs|]; [|done].
  destruct Hproof as (c & child & Hin & Hc & Hcfe & Hvalue).
  exists c, child. repeat split; try done.
  destruct (Hev c child Hc) as (child' & Hc' & _ & _ & _ & Hsame').
  by rewrite Hc', (Hsame' Hcfe).
Qed.

Lemma ensure_children_solved s k self s1 :
  s !! k = Some self → fully_expanded self = false →
  ensure_children network_call s k None None = Ok s1 →
  ∀ x nd', s1 !! x = Some nd' → fully_expanded nd' = true →
    (∃ nd, s !! x = Some nd ∧ fully_expanded nd = true)
    ∨ (children nd' = None ∧ is_over (position_of nd') = true).
Proof.
  intros Hk Hfe Hrun x nd' Hx Hfe'.
  destruct (ensure_children_Ok _ _ _ _ Hrun)
    as (self' & Hk' & [[_ ->]|(Hcs & new & st & -> & Hnew)]).
  { left. by exists nd'. }
  assert (self' = self) as -> by congruence.
  assert (k < length s)%nat as Hlt by (by eapply lookup_lt_Some).
  destruct (decide (x = k)) as [->|Hne].
  { rewrite list_lookup_insert_eq in Hx by (rewrite length_app; lia).
    injection Hx as <-. simpl in Hfe'. congruence. }
  rewrite list_lookup_insert_ne in Hx by done.
  destruct (decide (x < length s)%nat) as [Hxs|Hxs].
  { rewrite lookup_app_l in Hx by done. left. by exists nd'. }
  rewrite lookup_app_r in Hx by lia. right.
  apply list_elem_of_lookup_2 in Hx.
  destruct (node_stats self); destruct Hnew as [_ ->];
    apply list_elem_of_fmap in Hx as (m & -> & _); simpl in *; done.
Qed.

Lemma proof_tree_ensure_children s k self s1 :
  proof_tree s → s !! k = Some self → fully_expanded self = false →
  ensure_children network_call s k None None = Ok s1 →
  proof_tree s1.
Proof.
  intros Hproof Hk Hfe Hrun.
  eapply proof_tree_later; [done|by eapply evolves_ensure_children|].
  by eapply ensure_children_solved.
Qed.

Lemma proof_tree_mark s k self cs c child v :
  proof_tree s → s !! k = Some self → fully_expanded self = false →
  children self = Some cs →
  c ∈ cs → s !! c = Some child → fully_expanded child = true →
  solved_value child = v →
  proof_tree (<[k := set_fully_expanded v self]> s).
Proof.
  intros Hproof Hk Hfe Hcs Hin Hc Hcfe Hvalue x nd Hx Hndfe.
  assert (k < length s)%nat as Hlt by (by eapply lookup_lt_Some).
  assert (∀ y ndy, s !! y = Some ndy → fully_expanded ndy = true →
            <[k := set_fully_expanded v self]> s !! y = Some ndy) as Hkeep.
  { intros y ndy Hy Hyfe. rewrite list_lookup_insert_ne; [done|].
    intros <-. congruence. }
  destruct (decide (x = k)) as [->|Hne].
  - rewrite list_lookup_insert_eq in Hx by done. injection Hx as <-.
    simpl. rewrite Hcs. exists c, child.
    rewrite solved_value_set_fully_expanded. auto.
  - rewrite list_lookup_insert_ne in Hx by done.
    specialize (Hproof x nd Hx Hndfe).
    destruct (children nd) as [cs'|]; [|done].
    destruct Hproof as (c' & child' & Hin' & Hc' & Hcfe' & Hvalue').
    exists c', child'. auto.
Qed.

Lemma selection_keeps_proofs fuel :
  ∀ s k s' r,
  search_inv s → proof_tree s →
  (∀ self, s !! k = Some self → unsolved_chain s (parent self)) →
  choose_expansion_node exploration d network_call fuel s k = Ok (s', r) →
  proof_tree s'.
Proof.
  induction fuel as [|fuel IH]; intros s k s' r Hinv Hproof Habove; [done|].
  simpl.
  destruct (get s k) as [self|] eqn:Hk; simpl; [|done]. apply get_Ok in Hk.
  specialize (Habove self Hk).
  destruct (fully_expanded self) eqn:Hfe.
  { by intros [= <- <-]. }
  destruct (num_eqb (count_expansions self) (of_Z 0)).
  { by intros [= <- <-]. }
  destruct (ensure_children network_call s k None None) as [s1|] eqn:Hs1;
    simpl; [|done].
  pose proof (ensure_children_inv _ network_call_length network_call_finite
                _ _ _ _ Hinv Hk Hfe Hs1) as Hinv1.
  pose proof (proof_tree_ensure_children _ _ _ _ Hproof Hk Hfe Hs1) as Hproof1.
  pose proof (ensure_children_frame _ _ _ _ Hs1) as [_ Hframe].
  destruct (get s1 k) as [self1|] eqn:Hk1; simpl; [|done]. apply get_Ok in Hk1.
  destruct (Hframe k self Hk) as (nd' & Hnd' & _ & _ & Hpar1 & Hfe1 & _).
  assert (nd' = self1) as -> by congruence.
  rewrite Hfe in Hfe1.
  assert (unsolved_chain s1 (Some k)) as Hchain.
  { apply (unsolved_step _ k self1); [done..|]. rewrite Hpar1.
    eapply unsolved_chain_same_flags; [|exact Habove].
    intros y nd Hy.
    destruct (Hframe y nd Hy) as (nd' & Hy' & _ & _ & Hpar' & Hfe' & _).
    by exists nd'. }
  pose proof (Hinv1 k self1 Hk1) as Hok.
  destruct (children self1) as [cs|] eqn:Hcs; simpl; [|done].
  assert (∀ v c child,
            game_value (position_of self1) v →
            c ∈ cs → s1 !! c = Some child → fully_expanded child = true →
            solved_value child = v →
            match parent self1 with
            | Some p =>
                choose_expansion_node exploration d network_call fuel
                  (<[k := set_fully_expanded v self1]> s1) p
            | None => Ok (<[k := set_fully_expanded v self1]> s1, None)
            end = Ok (s', r) →
            proof_tree s') as Hmark.
  { intros v c child Hv Hin Hc Hcfe Hvalue.
    pose proof (search_inv_mark _ _ _ v Hinv1 Hk1 Hfe1 Hv) as Hinv2.
    pose proof (proof_tree_mark _ _ _ _ _ _ _ Hproof1 Hk1 Hfe1 Hcs Hin Hc
                  Hcfe Hvalue) as Hproof2.
    destruct (parent self1) as [p|] eqn:Hp.
    - apply IH; [done|done|].
      apply (unsolved_chain_parent s1 k self1 _ p); try done.
      inversion Hchain as [|? nd' Hnd'' _ Hrest]; subst.
      assert (nd' = self1) as -> by congruence. by rewrite Hp in Hrest.
    - by intros [= <- <-]. }
  destruct (scan_expansion _ _ _ _ _ _ _ _) as [[|c|[best|]]|] eqn:Hscan;
    simpl; [| | | |done].
  - (* a solved child has the optimal value *)
    destruct (scan_expansion_Closed _ _ _ _ _ _ _ _ Hscan)
      as (c & child & Hin & Hc & Hcfe & Hvalue).
    apply (Hmark _ c child); try done.
    destruct (child_parent _ _ _ _ _ _ Hok Hcs Hin Hc) as [_ Hmove].
    pose proof (ok_solved _ _ _ (Hinv1 c child Hc) Hcfe) as Hchild.
    assert (optimal_value self1 = optimum (position_of self1)) as Hopt.
    { unfold optimal_value, optimum. by rewrite (ok_mover _ _ _ Hok). }
    rewrite Hopt. eapply value_optimal; [|exact Hmove|].
    + by apply (ok_unsolved _ _ _ Hok).
    + by rewrite <- Hopt, <- Hvalue.
  - by intros [= <- <-].
  - apply IH; [done|done|]. intros bn Hbn.
    destruct (scan_expansion_Scanned _ _ _ _ _ _ _ _ _ Hscan)
      as [|(c & child & [= ->] & Hin & Hc & _)]; [done|].
    assert (bn = child) as -> by congruence.
    destruct (child_parent _ _ _ _ _ _ Hok Hcs Hin Hc) as [Hpar _].
    rewrite Hpar. done.
  - (* every child is solved *)
    assert (Forall (solved s1) cs) as Hsolved.
    { eapply (scan_expansion_none_solved _ _ exploration_not_nan d_finite
                s1 self1 cs Hcs);
        [by apply (ok_unsolved _ _ _ Hok)| |apply drop_0|exact Hscan].
      intros c child _ Hc Hcfe.
      by apply (ok_unsolved _ _ _ (Hinv1 c child Hc)). }
    destruct (solved_children_values _ _ _ _ Hinv1 Hok Hcs Hsolved)
      as (vs & Hvs & Hvalues).
    rewrite (minimax_of_solved_children _ _ _ _ Hvs).
    destruct (if is_maximizing self1 then num_max vs else num_min vs)
      as [v|] eqn:Hv; simpl; [|done].
    assert (v ∈ vs) as [i Hi]%list_elem_of_lookup.
    { apply (best_value_elem (is_maximizing self1)). exact Hv. }
    destruct (Forall2_lookup_r _ _ _ _ _ Hvs Hi)
      as (c & Hci & child & Hc & Hcfe & Heval).
    apply (Hmark v c child); try done.
    + eapply value_minimax; [|exact Hvalues|].
      * by apply (ok_unsolved _ _ _ Hok).
      * unfold best_value. by rewrite <- (ok_mover _ _ _ Hok).
    + by eapply list_elem_of_lookup_2.
    + rewrite (get_evaluation_solved_value _ Hcfe) in Heval. congruence.
Qed.

(** The backups of an expansion set statistics only. *)

Lemma same_shape_refl s : same_shape s s.
Proof. split; [done|]. intros x nd Hx. by exists nd. Qed.

Lemma same_shape_trans s1 s2 s3 :
  same_shape s1 s2 → same_shape s2 s3 → same_shape s1 s3.
Proof.
  intros [Hlen12 H12] [Hlen23 H23]. split; [congruence|]. intros x nd Hx.
  destruct (H12 x nd Hx) as (nd2 & Hx2 & ? & ? & ?).
  destruct (H23 x nd2 Hx2) as (nd3 & Hx3 & ? & ? & ?).
  exists nd3. repeat split; congruence.
Qed.

Lemma same_shape_set_stats s n nd st :
  s !! n = Some nd → same_shape s (<[n := set_stats st nd]> s).
Proof.
  intros Hn. split; [by rewrite length_insert|]. intros x ndx Hx.
  assert (x < length s)%nat as Hlt by (by eapply lookup_lt_Some).
  destruct (decide (x = n)) as [->|Hne].
  - assert (ndx = nd) as -> by congruence.
    eexists. by rewrite list_lookup_insert_eq.
  - exists ndx. by rewrite list_lookup_insert_ne.
Qed.

Lemma rollout_backup_shape fuel :
  ∀ s node total s',
  rollout_backup rollout_batch_size fuel s node total = Ok s' →
  same_shape s s'.
Proof.
  induction fuel as [|fuel IH]; intros s [n|] total s'; simpl; try done;
    try (intros [= <-]; apply same_shape_refl).
  destruct (get s n) as [nd|] eqn:Hn; simpl; [|done]. apply get_Ok in Hn.
  destruct (node_stats nd); [|done].
  intros Hrun%IH. eapply same_shape_trans; [|exact Hrun].
  by apply same_shape_set_stats.
Qed.

Lemma heuristic_backup_shape fuel :
  ∀ s node critical s' stop,
  heuristic_backup fuel s node critical = Ok (s', stop) → same_shape s s'.
Proof.
  induction fuel as [|fuel IH]; intros s [n|] critical s' stop; simpl;
    try done; try (intros [= <- _]; apply same_shape_refl).
  destruct (get s n) as [nd|] eqn:Hn; simpl; [|done]. apply get_Ok in Hn.
  destruct (node_stats nd); [done|].
  destruct (_ || _).
  - intros Hrun%IH. eapply same_shape_trans; [|exact Hrun].
    by apply same_shape_set_stats.
  - intros [= <- _]. by apply same_shape_set_stats.
Qed.

Lemma expansions_backup_shape fuel :
  ∀ s node s', expansions_backup fuel s node = Ok s' → same_shape s s'.
Proof.
  induction fuel as [|fuel IH]; intros s [n|] s'; simpl; try done;
    try (intros [= <-]; apply same_shape_refl).
  destruct (get s n) as [nd|] eqn:Hn; simpl; [|done]. apply get_Ok in Hn.
  destruct (node_stats nd); [done|].
  intros Hrun%IH. eapply same_shape_trans; [|exact Hrun].
  by apply same_shape_set_stats.
Qed.

(** A solved node after an expansion was solved before it, or is a new node
    at a terminal position. *)
Lemma expand_solved fuel s t rollouts s' :
  expand network_call rollout_batch_size fuel s t rollouts None None = Ok s' →
  ∀ x nd', s' !! x = Some nd' → fully_expanded nd' = true →
    (∃ nd, s !! x = Some nd ∧ fully_expanded nd = true)
    ∨ (children nd' = None ∧ is_over (position_of nd') = true).
Proof.
  assert (∀ s0 s1, same_shape s0 s1 →
            ∀ x nd', s1 !! x = Some nd' →
              ∃ nd, s0 !! x = Some nd ∧ children nd' = children nd
                    ∧ position_of nd' = position_of nd
                    ∧ fully_expanded nd' = fully_expanded nd) as Hback.
  { intros s0 s1 [Hlen Hall] x nd' Hx.
    destruct (lookup_lt_is_Some_2 s0 x) as [nd Hnd].
    { rewrite <- Hlen. by eapply lookup_lt_Some. }
    destruct (Hall x nd Hnd) as (nd2 & Hx2 & ? & ? & ?).
    exists nd. by assert (nd2 = nd') as -> by congruence. }
  unfold expand.
  destruct (get s t) as [self|] eqn:Ht; simpl; [|done]. apply get_Ok in Ht.
  destruct (node_stats self) eqn:Hstats.
  - intros Hrun%rollout_backup_shape x nd' Hx Hfe.
    destruct (Hback _ _ Hrun x nd' Hx) as (nd & Hnd & _ & _ & Hfe').
    left. exists nd. split; [done|congruence].
  - unfold HeuristicNode_expand. rewrite (proj2 (get_Ok _ _ _) Ht). simpl.
    case_bool_decide; [done|].
    destruct (fully_expanded self) eqn:Hself; [done|].
    destruct (ensure_children network_call s t None None) as [s1|] eqn:Hs1;
      simpl; [|done].
    destruct (get s1 t) as [self1|] eqn:Ht1; simpl; [|done].
    apply get_Ok in Ht1.
    destruct (children self1) as [cs|]; [|done].
    destruct (critical_value_of s1 self1 cs) as [critical|]; simpl; [|done].
    destruct (node_stats self1) as [|h pol e]; [done|].
    destruct (heuristic_backup _ _ _ _) as [[s2 stop]|] eqn:Hs2; simpl;
      [|done].
    intros Hs3 x nd' Hx Hfe.
    apply heuristic_backup_shape in Hs2. apply expansions_backup_shape in Hs3.
    pose proof (same_shape_trans _ _ _
                  (same_shape_set_stats s1 t self1
                     (HeuristicStats critical pol e) Ht1)
                  (same_shape_trans _ _ _ Hs2 Hs3)) as Hshape.
    destruct (Hback _ _ Hshape x nd' Hx) as (nd1 & Hnd1 & Hcs1 & Hpos1 & Hfe1).
    rewrite Hcs1, Hpos1. rewrite Hfe1 in Hfe.
    by eapply ensure_children_solved.
Qed.

Lemma search_loop_keeps_proofs fuel batches :
  ∀ s root s',
  search_inv s → proof_tree s →
  (∀ nd, s !! root = Some nd → parent nd = None) →
  Forall (Forall finite) batches →
  search_loop exploration d network_call rollout_batch_size fuel batches s root
  = Ok s' →
  proof_tree s'.
Proof.
  induction batches as [|rollouts batches IH];
    intros s root s' Hinv Hproof Hroot Hfin; simpl.
  { by intros [= <-]. }
  apply Forall_cons in Hfin as [Hrollouts Hfin].
  destruct (choose_expansion_node _ _ _ _ _ _) as [[s1 best]|] eqn:Hs1; simpl;
    [|done].
  assert (∃ nd0, s !! root = Some nd0) as [nd0 Hnd0].
  { destruct fuel as [|fuel']; [done|]. simpl in Hs1.
    destruct (get s root) as [self|] eqn:Hk; [|done].
    apply get_Ok in Hk. by exists self. }
  assert (∀ self, s !! root = Some self → unsolved_chain s (parent self))
    as Habove.
  { intros self Hself. rewrite (Hroot self Hself). constructor. }
  pose proof (choose_expansion_node_evolves _ _ _ _ _ _ _ _ Hs1) as Hev1.
  pose proof (selection_keeps_proofs _ _ _ _ _ Hinv Hproof Habove Hs1)
    as Hproof1.
  apply (selection_sound _ _ _ network_call_length network_call_finite
           exploration_not_nan d_finite) in Hs1
    as [Hinv1 Hbest]; [|done|done].
  destruct best as [t|]; [|by intros [= <-]].
  destruct (expand _ _ _ _ _ _ _ _) as [s2|] eqn:Hs2; simpl; [|done].
  pose proof (expand_solved _ _ _ _ _ Hs2) as Hsolved.
  apply (expand_sound _ _ get_winner_three_valued network_call_length
           network_call_finite) in Hs2 as [Hinv2 Hev2];
    [|done|by apply Hbest|done].
  assert (evolves s s2) as Hev by (by eapply evolves_trans).
  apply IH; [done| | |done].
  - by eapply proof_tree_later.
  - intros nd Hnd.
    destruct (Hev _ _ Hnd0) as (nd' & Hnd' & _ & Hparent & _).
    rewrite Hnd in Hnd'. injection Hnd' as <-.
    rewrite Hparent. by apply Hroot.
Qed.

Lemma proof_tree_root (root : node position) :
  children root = None →
  fully_expanded root = is_over (position_of root) →
  proof_tree [root].
Proof.
  intros Hcs Hfe [|x] nd; [|done]. intros [= <-] Hsolved.
  rewrite Hcs. congruence.
Qed.

(** *** [depth_to_end_game] returns *)

Lemma num_eqb_refl_three_valued v : three_valued v → num_eqb v v = true.
Proof. by intros [-> | [-> | ->]]. Qed.

Lemma extremal_finite (winning : bool) depths :
  depths ≠ [] → Forall finite depths →
  ∃ extremal, (if winning then num_min depths else num_max depths)
              = Ok extremal ∧ finite extremal.
Proof.
  destruct depths as [|x l]; [done|]. intros _ Hall.
  unfold num_min, num_max. destruct winning; eexists; (split; [done|]).
  - destruct (foldl_min_elem l x) as [->|Hin].
    + by apply Forall_cons in Hall as [? _].
    + apply (proj1 (Forall_forall _ _) Hall). apply elem_of_cons. by right.
  - destruct (foldl_max_elem l x) as [->|Hin].
    + by apply Forall_cons in Hall as [? _].
    + apply (proj1 (Forall_forall _ _) Hall). apply elem_of_cons. by right.
Qed.

Lemma proof_depths_returns (depth : nat → result num) s evaluation cs :
  Forall (λ c, ∃ child, s !! c = Some child
                 ∧ (fully_expanded child = true →
                    ∃ dep, depth c = Ok dep ∧ finite dep)) cs →
  ∃ depths, proof_depths depth s evaluation cs = Ok depths
            ∧ Forall finite depths
            ∧ ∀ c child, c ∈ cs → s !! c = Some child →
                fully_expanded child = true →
                num_eqb (solved_value child) evaluation = true →
                depths ≠ [].
Proof.
  induction 1 as [|c cs (child & Hc & Hdepth) _ (depths & Hdepths & Hfin & Hne)];
    simpl.
  { exists []. split; [done|]. split; [done|].
    by intros c child ?%elem_of_nil. }
  rewrite (proj2 (get_Ok _ _ _) Hc). simpl.
  destruct (fully_expanded child) eqn:Hfe; simpl.
  - rewrite (get_evaluation_solved_value _ Hfe). simpl.
    destruct (num_eqb (solved_value child) evaluation) eqn:Heq.
    + destruct (Hdepth eq_refl) as (dep & -> & Hdep). simpl.
      rewrite Hdepths. simpl. eexists. split; [done|].
      split; [by constructor|done].
    + exists depths. split; [done|]. split; [done|].
      intros c' child' [->|Hin]%elem_of_cons Hc' Hfe' Heq'.
      * rewrite Hc in Hc'. injection Hc' as <-. congruence.
      * by eapply Hne.
  - exists depths. split; [done|]. split; [done|].
    intros c' child' [->|Hin]%elem_of_cons Hc' Hfe' Heq'.
    + rewrite Hc in Hc'. injection Hc' as <-. congruence.
    + by eapply Hne.
Qed.

Lemma depth_to_end_game_returns fuel :
  ∀ s k nd,
  search_inv s → proof_tree s →
  s !! k = Some nd → fully_expanded nd = true →
  (length s ≤ k + fuel)%nat →
  ∃ dep, depth_to_end_game fuel s k = Ok dep ∧ finite dep.
Proof.
  induction fuel as [|fuel IH]; intros s k nd Hinv Hproof Hk Hfe Hfuel.
  { apply lookup_lt_Some in Hk. lia. }
  simpl. rewrite (proj2 (get_Ok _ _ _) Hk). simpl. rewrite Hfe. simpl.
  pose proof (Hproof k nd Hk Hfe) as Hwitness.
  destruct (children nd) as [cs|] eqn:Hcs.
  2:{ eexists. split; [done|]. apply finite_of_Z. }
  rewrite (get_evaluation_solved_value _ Hfe). simpl.
  pose proof (ok_children _ _ _ (Hinv k nd Hk) cs Hcs) as Hchildren.
  destruct (proof_depths_returns (depth_to_end_game fuel s) s
              (solved_value nd) cs) as (depths & -> & Hfin & Hne).
  { apply Forall_forall. intros c [i Hi]%list_elem_of_lookup.
    destruct (Forall2_lookup_l _ _ _ _ _ Hchildren Hi)
      as (move & _ & child & Hc & _ & Hpar).
    exists child. split; [done|]. intros Hcfe.
    apply (IH s c child); try done.
    pose proof (ok_parent _ _ _ (Hinv c child Hc) k Hpar). lia. }
  simpl.
  destruct Hwitness as (c & child & Hin & Hc & Hcfe & Hvalue).
  assert (depths ≠ []) as Hdepths.
  { apply (Hne c child); try done. rewrite Hvalue.
    apply num_eqb_refl_three_valued.
    eapply game_value_three_valued; [done|].
    by apply (ok_solved _ _ _ (Hinv k nd Hk)). }
  destruct (extremal_finite (num_eqb (solved_value nd) (optimal_value nd))
              depths Hdepths Hfin) as (extremal & -> & Hextremal).
  simpl. eexists. split; [done|].
  apply finite_add; [apply finite_of_Z|done].
Qed.

(** *** The choice at a solved node *)

(** [np.argmax] of numbers: an index of the list, and no number of the list
    is greater than the number there. *)
Lemma argmax_from_spec l :
  ∀ i best_i best,
  is_nan best = false → Forall (λ y, is_nan y = false) l →
  let r := argmax_from i best_i best l in
  (r = best_i ∧ Forall (λ y, num_gtb y best = false) l)
  ∨ (∃ j x, r = (i + j)%nat ∧ l !! j = Some x ∧ num_gtb best x = false
            ∧ Forall (λ y, num_gtb y x = false) l).
Proof.
  induction l as [|x l IH]; intros i bi b Hb Hl; simpl; [by left|].
  apply Forall_cons in Hl as [Hx Hl]. rewrite Hb, Hx. simpl.
  destruct (num_gtb x b) eqn:Hgt.
  - right. destruct (IH (S i) i x Hx Hl) as [[-> Hall]|(j & y & -> & Hj & Hxy & Hall)].
    + exists 0%nat, x. rewrite Nat.add_0_r. split; [done|]. split; [done|].
      split; [by apply num_ltb_asym|].
      constructor; [apply num_ltb_irrefl|done].
    + exists (S j), y. split; [lia|]. split; [done|]. split; [|by constructor].
      unfold num_gtb in *. destruct (num_ltb y b) eqn:Hyb; [|done].
      by rewrite (num_ltb_trans _ _ _ Hyb Hgt) in Hxy.
  - destruct (IH (S i) bi b Hb Hl) as [[-> Hall]|(j & y & -> & Hj & Hby & Hall)].
    + left. split; [done|]. by constructor.
    + right. exists (S j), y. split; [lia|]. split; [done|]. split; [done|].
      constructor; [|done]. unfold num_gtb in *.
      destruct (num_ltb y x) eqn:Hyx; [|done].
      destruct (num_ltb_cotrans _ _ b Hb Hyx); congruence.
Qed.

Lemma argmax_max l :
  l ≠ [] → Forall (λ y, is_nan y = false) l →
  ∃ r m, argmax l = Ok r ∧ l !! r = Some m
         ∧ Forall (λ y, num_gtb y m = false) l.
Proof.
  destruct l as [|x l]; [done|]. intros _ [Hx Hl]%Forall_cons. simpl.
  destruct (argmax_from_spec l 1 0 x Hx Hl)
    as [[-> Hall]|(j & y & -> & Hj & Hxy & Hall)].
  - exists 0%nat, x. split; [done|]. split; [done|].
    constructor; [apply num_ltb_irrefl|done].
  - exists (S j), y. split; [done|]. split; [done|]. by constructor.
Qed.

(** A weight: a positive number or zero. *)
Local Abbreviation weight w :=
  (∃ q : Qc, w = Fin q ∧ (0 ≤ q)%Qc).

Lemma foldl_weights ws :
  Forall (λ w, weight w) ws →
  ∀ acc : Qc,
  ∃ total : Qc, foldl num_add (Fin acc) ws = Fin total ∧ (acc ≤ total)%Qc
    ∧ Forall (λ w, ∀ q, w = Fin q → (acc + q ≤ total)%Qc) ws.
Proof.
  induction 1 as [|w ws (q & -> & Hq) _ IH]; intros acc; simpl.
  { exists acc. split; [done|]. split; [apply Qcle_refl|constructor]. }
  change (num_add (Fin acc) (Fin q)) with (Fin (acc + q)%Qc).
  destruct (IH (acc + q)%Qc) as (total & -> & Hle & Hall).
  exists total. split; [done|].
  assert (acc ≤ total)%Qc as Hacc.
  { clear IH Hall. qc_arith. }
  split; [done|]. constructor.
  - by intros q' [= <-].
  - eapply Forall_impl; [exact Hall|]. intros w Hw q' ->.
    specialize (Hw q' eq_refl). clear IH Hall. qc_arith.
Qed.

Lemma sum_weights ws :
  Forall (λ w, weight w) ws →
  ∃ total : Qc, num_sum ws = Fin total ∧ (0 ≤ total)%Qc
    ∧ Forall (λ w, ∀ q, w = Fin q → (q ≤ total)%Qc) ws.
Proof.
  intros Hws. unfold num_sum, of_Z. rewrite Z2Qc_inj_0.
  destruct (foldl_weights ws Hws 0%Qc) as (total & -> & Hle & Hall).
  exists total. split; [done|]. split; [done|].
  eapply Forall_impl; [exact Hall|]. intros w Hw q ->.
  specialize (Hw q eq_refl). by rewrite Qcplus_0_l in Hw.
Qed.

Lemma Qc_div_positive (a b : Qc) : (0 < a)%Qc → (0 < b)%Qc → (0 < a / b)%Qc.
Proof.
  intros Ha Hb. unfold Qcdiv, Qcmult, Qcinv, Qclt in *. simpl in *.
  rewrite !Qred_correct. apply Qmult_lt_0_compat; [done|].
  by apply Qinv_lt_0_compat.
Qed.

Lemma np_div_weight (q total : Qc) :
  (0 < total)%Qc → np_div (Fin q) (Fin total) = Fin (q / total)%Qc.
Proof.
  intros Htotal. unfold np_div. rewrite bool_decide_eq_false_2; [done|].
  intros ->. by apply Qclt_not_eq in Htotal.
Qed.

(** The weight of a child of a solved node: positive exactly for a solved
    child with the value of the node. *)
Lemma solved_weight_spec fuel s self c child :
  search_inv s → proof_tree s →
  fully_expanded self = true → s !! c = Some child →
  (length s ≤ c + fuel)%nat →
  ∃ w, solved_weight np_exp fuel s self c = Ok w
       ∧ weight w
       ∧ (num_gtb w (of_Z 0) = true ↔
          fully_expanded child = true
          ∧ num_eqb (solved_value child) (solved_value self) = true).
Proof.
  intros Hinv Hproof Hfe Hc Hfuel. unfold solved_weight.
  rewrite (proj2 (get_Ok _ _ _) Hc). simpl.
  assert (weight (of_Z 0) ∧ num_gtb (of_Z 0) (of_Z 0) = false) as [H0 H00].
  { split; [|apply num_ltb_irrefl]. exists 0%Qc. unfold of_Z.
    by rewrite Z2Qc_inj_0. }
  destruct (fully_expanded child) eqn:Hcfe; simpl.
  2:{ exists (of_Z 0). split; [done|]. split; [done|].
      rewrite H00. split; [done|by intros [? _]]. }
  rewrite (get_evaluation_solved_value _ Hcfe),
    (get_evaluation_solved_value _ Hfe). simpl.
  destruct (num_eqb (solved_value child) (solved_value self)) eqn:Heq.
  2:{ exists (of_Z 0). split; [done|]. split; [done|].
      rewrite H00. split; [done|by intros [_ ?]]. }
  destruct (depth_to_end_game_returns fuel s c child Hinv Hproof Hc Hcfe Hfuel)
    as (dep & -> & Hdep).
  simpl. eexists. split; [done|].
  set (x := if num_eqb _ _ then num_opp dep else dep).
  assert (finite x) as Hx.
  { unfold x. destruct Hdep as [q ->]. unfold num_opp.
    destruct (num_eqb (solved_value self) (optimal_value self)); by eexists. }
  destruct (np_exp_positive x Hx) as [[q Hq] Hpos]. rewrite Hq in *.
  split; [|done]. exists q. split; [done|].
  unfold num_gtb, num_ltb, of_Z in Hpos. rewrite Z2Qc_inj_0 in Hpos.
  apply bool_decide_eq_true in Hpos. by apply Qclt_le_weak.
Qed.

(** At a solved node with children, [choose_best_node] returns a child
    that is solved with the value of the node. *)
Lemma choose_best_node_solved fuel s k self cs :
  search_inv s → proof_tree s →
  s !! k = Some self → fully_expanded self = true →
  children self = Some cs → (length s ≤ fuel)%nat →
  ∃ best distribution child,
    choose_best_node np_exp fuel s k = Ok (best, distribution)
    ∧ best ∈ cs ∧ s !! best = Some child
    ∧ fully_expanded child = true
    ∧ solved_value child = solved_value self.
Proof.
  intros Hinv Hproof Hk Hfe Hcs Hfuel. unfold choose_best_node, weights.
  rewrite (proj2 (get_Ok _ _ _) Hk). simpl. rewrite Hcs, Hfe. simpl.
  pose proof (ok_children _ _ _ (Hinv k self Hk) cs Hcs) as Hchildren.
  (* the weights *)
  assert (∃ ws, mapR (solved_weight np_exp fuel s self) cs = Ok ws
            ∧ Forall2 (λ c w, ∃ child, s !! c = Some child ∧ weight w
                 ∧ (num_gtb w (of_Z 0) = true ↔
                    fully_expanded child = true
                    ∧ num_eqb (solved_value child) (solved_value self) = true))
                cs ws) as (ws & -> & Hws).
  { clear Hcs. induction Hchildren as [|c move cs moves (child & Hc & _) _ IH].
    { exists []. split; [done|constructor]. }
    destruct IH as (ws & Hws & Hall).
    destruct (solved_weight_spec fuel s self c child Hinv Hproof Hfe Hc)
      as (w & Hw & Hweight); [lia|].
    exists (w :: ws). simpl. rewrite Hw, Hws. split; [done|].
    constructor; [by exists child|done]. }
  simpl.
  (* the child that proves the value *)
  pose proof (Hproof k self Hk Hfe) as Hwitness. rewrite Hcs in Hwitness.
  destruct Hwitness as (c0 & child0 & [i0 Hi0]%list_elem_of_lookup & Hc0
                        & Hcfe0 & Hvalue0).
  destruct (Forall2_lookup_l _ _ _ _ _ Hws Hi0)
    as (w0 & Hw0 & child0' & Hc0' & (q0 & -> & Hq0) & Hpos0).
  assert (child0' = child0) as -> by congruence.
  assert (0 < q0)%Qc as Hq0'.
  { assert (num_gtb (Fin q0) (of_Z 0) = true) as Hgt.
    { apply Hpos0. split; [done|]. rewrite Hvalue0.
      apply num_eqb_refl_three_valued.
      eapply game_value_three_valued; [done|].
      by apply (ok_solved _ _ _ (Hinv k self Hk)). }
    unfold num_gtb, num_ltb, of_Z in Hgt. rewrite Z2Qc_inj_0 in Hgt.
    by apply bool_decide_eq_true in Hgt. }
  (* the sum of the weights *)
  destruct (sum_weights ws) as (total & Htotal & _ & Hle).
  { eapply Forall2_Forall_r; [exact Hws|]. apply Forall_forall.
    by intros c _ w (child & _ & Hw & _). }
  assert (0 < total)%Qc as Hpos.
  { pose proof (proj1 (Forall_forall _ _) Hle (Fin q0)
                  (list_elem_of_lookup_2 _ _ _ Hw0) q0 eq_refl) as Hq0t.
    eapply Qclt_le_trans; [exact Hq0'|done]. }
  (* the normalized weights *)
  unfold normalize. rewrite Htotal.
  set (dist := (λ w, np_div w (Fin total)) <$> ws).
  assert (Forall (λ y, is_nan y = false) dist) as Hnan.
  { apply Forall_fmap, Forall_forall. intros w [i Hi]%list_elem_of_lookup.
    destruct (Forall2_lookup_r _ _ _ _ _ Hws Hi)
      as (c & _ & child & _ & (q & -> & _) & _).
    simpl. by rewrite np_div_weight. }
  destruct (argmax_max dist) as (r & m & -> & Hr & Hmax); [|done|].
  { unfold dist. by destruct ws. }
  simpl.
  unfold dist in Hr. rewrite list_lookup_fmap in Hr.
  destruct (ws !! r) as [w|] eqn:Hw; [|done]. injection Hr as Hm.
  destruct (Forall2_lookup_r _ _ _ _ _ Hws Hw)
    as (c & Hc & child & Hchild & (q & -> & Hq) & Hpositive).
  unfold index. rewrite Hc. simpl.
  exists c, dist, child. split; [done|].
  split; [by eapply list_elem_of_lookup_2|]. split; [done|].
  (* the maximum is positive *)
  assert (num_gtb (Fin q) (of_Z 0) = true) as Hgt.
  { assert (np_div (Fin q0) (Fin total) ∈ dist) as Hin.
    { unfold dist. apply list_elem_of_fmap. exists (Fin q0).
      split; [done|]. by eapply list_elem_of_lookup_2. }
    pose proof (proj1 (Forall_forall _ _) Hmax _ Hin) as Hbound.
    rewrite <- Hm, !np_div_weight in Hbound by done.
    pose proof (Qc_div_positive q0 total Hq0' Hpos) as Hn0.
    unfold num_gtb, num_ltb, of_Z in *. rewrite Z2Qc_inj_0.
    apply bool_decide_eq_false in Hbound. apply bool_decide_eq_true.
    destruct (Qclt_le_dec 0 q) as [|Hq0le]; [done|]. exfalso.
    assert (q = 0)%Qc as -> by (by apply Qcle_antisym).
    apply Hbound. unfold Qcdiv at 1. by rewrite Qcmult_0_l. }
  apply Hpositive in Hgt as [Hcfe Heq]. split; [done|].
  by apply num_eqb_eq.
Qed.

(** When the search has solved the root, [MCTS.choose_move] returns a move
    that keeps the value of the position: the root holds the exact value of
    the position, and the position returned is a possible move with that
    value (a win that is proved is played as a win).  [np.exp] is taken to
    return positive numbers, with no overflow to [inf] or underflow to
    [0]. *)
Theorem solved_search_plays_value (network : bool) fuel batches p root s
    root' :
  Forall (Forall finite) batches →
  is_over p = false →
  (if network then HeuristicRoot network_call p
   else Ok (RolloutNode p None)) = Ok root →
  search_loop exploration d network_call rollout_batch_size fuel batches
    [root] 0 = Ok s →
  s !! 0%nat = Some root' → fully_expanded root' = true →
  (length s ≤ fuel)%nat →
  ∃ q, MCTS_choose_move exploration d network_call rollout_batch_size np_exp
         network fuel batches p = Ok q
       ∧ q ∈ get_possible_moves p
       ∧ game_value p (solved_value root')
       ∧ game_value q (solved_value root').
Proof.
  intros Hbatches Hp Hroot Hs Hroot' Hfe Hfuel.
  assert (search_inv [root] ∧ position_of root = p ∧ parent root = None
          ∧ children root = None
          ∧ fully_expanded root = is_over (position_of root))
    as (Hinv0 & Hpos & Hpar & Hcs0 & Hfe0).
  { destruct network.
    - split; [by eapply search_inv_heuristic_root|].
      unfold HeuristicRoot in Hroot. rewrite Hp in Hroot.
      destruct (index _ _); simpl in Hroot; [|done]. by injection Hroot as <-.
    - injection Hroot as <-. split; [apply search_inv_rollout_root|done]. }
  assert (∀ nd, [root] !! 0%nat = Some nd → parent nd = None) as Hparent.
  { by intros nd [= <-]. }
  pose proof (search_loop_keeps_proofs _ _ _ _ _ Hinv0
                (proof_tree_root root Hcs0 Hfe0) Hparent Hbatches Hs)
    as Hproof.
  pose proof (search_loop_sound _ _ _ _ get_winner_three_valued
                network_call_length network_call_finite exploration_not_nan
                d_finite _ _ _ _ _ Hinv0 Hparent Hbatches Hs) as [Hinv Hev].
  destruct (Hev 0%nat root eq_refl) as (root2 & Hroot2 & Hpos2 & _).
  assert (root2 = root') as -> by congruence.
  rewrite Hpos in Hpos2.
  pose proof (Hproof 0%nat root' Hroot' Hfe) as Hchildren.
  destruct (children root') as [cs|] eqn:Hcs; [clear Hchildren|congruence].
  destruct (choose_best_node_solved fuel s 0 root' cs Hinv Hproof Hroot' Hfe
              Hcs Hfuel) as (best & dist & child & Hbest & Hin & Hchild
                             & Hcfe & Hvalue).
  exists (position_of child). split; [|split; [|split]].
  - unfold MCTS_choose_move. rewrite Hp, Hroot. simpl. rewrite Hs. simpl.
    rewrite Hbest. simpl. by rewrite (proj2 (get_Ok _ _ _) Hchild).
  - rewrite <- Hpos2.
    by apply (child_parent s 0 root' cs best child (Hinv _ _ Hroot') Hcs Hin).
  - rewrite <- Hpos2. by apply (ok_solved _ _ _ (Hinv _ _ Hroot')).
  - rewrite <- Hvalue. by apply (ok_solved _ _ _ (Hinv _ _ Hchild)).
Qed.

End ProofTrees.

Lemma rational_exp_positive x :
  finite x →
  finite (rational_exp x) ∧ num_gtb (rational_exp x) (of_Z 0) = true.
Proof.
  intros [q ->]. unfold rational_exp.
  assert (∀ a : Qc, (0 < a)%Qc → num_gtb (Fin a) (of_Z 0) = true) as Hgt.
  { intros a Ha. unfold num_gtb, num_ltb, of_Z. rewrite Z2Qc_inj_0.
    by apply bool_decide_eq_true. }
  case_bool_decide as Hq; (split; [by eexists|]); apply Hgt.
  - qc_arith.
  - apply Qc_div_positive; [done|]. apply Qcnot_le_lt in Hq. qc_arith.
Qed.

Lemma solved_search_plays_value_witness :
  ∃ q, MCTS_choose_move flat_exploration (of_Z 1) blind_network (of_Z 1)
         rational_exp false 3 [[of_Z 1]; [of_Z (-1)]; []] (2%nat, true)
       = Ok q
       ∧ q ∈ get_possible_moves (2%nat, true)
       ∧ game_value (2%nat, true) (of_Z 1)
       ∧ game_value q (of_Z 1).
Proof.
  apply (solved_search_plays_value flat_exploration (of_Z 1) blind_network
           (of_Z 1) rational_exp pile_winner_three_valued
           blind_network_length blind_network_finite (λ _ _, eq_refl)
           (finite_of_Z 1) rational_exp_positive false 3
           [[of_Z 1]; [of_Z (-1)]; []] (2%nat, true)
           (RolloutNode (2%nat, true) None) shortcut_example
           (Node (2%nat, true) None (Some [1%nat; 2%nat]) true true
              (RolloutStats (of_Z 1) PInf))).
  - repeat constructor; apply finite_of_Z.
  - reflexivity.
  - reflexivity.
  - evaluate.
  - reflexivity.
  - reflexivity.
  - simpl. lia.
Defined.

(** ** The network process: results by request *)

Lemma send_results_from {A} (blocks : list (list A)) :
  ∀ (before after : list A) pipes,
  send_results (length <$> blocks) (before ++ concat blocks ++ after) pipes
    (length before)
  = take pipes blocks.
Proof.
  induction blocks as [|block blocks IH]; intros before after pipes; simpl.
  { by destruct pipes. }
  destruct pipes as [|pipes]; [done|]. simpl. f_equal.
  - rewrite drop_app_length.
    replace (length before + length block - length before)%nat
      with (length block) by lia.
    rewrite <- app_assoc. by rewrite take_app_length.
  - rewrite <- length_app.
    rewrite <- (IH (before ++ block) after pipes).
    by rewrite <- !app_assoc.
Qed.

(** The requests of the workers are concatenated into one batch for the
    network, and [send_results] cuts the results of the batch by the sizes
    of the requests: when the batch of results is made of one block for each
    request, of the size of the request, every pipe is sent the block of its
    own request, whatever follows in the batch; with fewer pipes than
    requests only the first requests are answered. *)
Theorem send_results_blocks {A} (blocks : list (list A)) (after : list A)
    (pipes : nat) :
  send_results (length <$> blocks) (concat blocks ++ after) pipes 0
  = take pipes blocks.
Proof. apply (send_results_from blocks [] after pipes). Qed.

(** ** [Network.call]: policies over the legal moves *)


Lemma select_true_elem {A} (mask : list bool) (a : list A) x :
  x ∈ select_true mask a → x ∈ a.
Proof.
  revert a. induction mask as [|b mask IH]; intros [|y a]; simpl;
    try (by intros ?%elem_of_nil).
  destruct b.
  - intros [->|Hin]%elem_of_cons; apply elem_of_cons; auto.
  - intros Hin. apply elem_of_cons. auto.
Qed.


Section NetworkProperties.
Context {position : Type}.
Variable get_legal_moves : position → list bool.
Variable predict : list position → list (list num) * list num.
Variable states : list position.

(** The contract of the model on [states]: one policy over [MOVE_SHAPE] and
    one evaluation for each state; the policy comes out of a softmax, so its
    entries are positive numbers, and the evaluation is a number. *)
Hypothesis predict_policies :
  Forall2 (λ state raw_policy,
             length raw_policy = length (get_legal_moves state)
             ∧ Forall (λ x, ∃ q : Qc, x = Fin q ∧ (0 < q)%Qc) raw_policy)
          states (predict states).1.
Hypothesis predict_evaluations :
  length (predict states).2 = length states
  ∧ Forall finite (predict states).2.


End NetworkProperties.


(** ** [process_data]: the policy targets *)

Lemma scatter_length mask values : length (scatter mask values) = length mask.
Proof.
  revert values. induction mask as [|[] mask IH]; intros values; simpl;
    [done| |by rewrite IH].
  destruct values; simpl; by rewrite IH.
Qed.

Lemma scatter_select mask values :
  length values = count_true mask →
  select_true mask (scatter mask values) = values.
Proof.
  unfold count_true. revert values.
  induction mask as [|[] mask IH]; intros values; simpl.
  - by destruct values.
  - destruct values as [|x values]; [done|].
    simpl. intros [= Hlen]. by rewrite IH.
  - apply IH.
Qed.

Lemma scatter_illegal mask values :
  Forall (λ x, x = of_Z 0) (select_true (negb <$> mask) (scatter mask values)).
Proof.
  revert values. induction mask as [|[] mask IH]; intros values; simpl;
    [done| |by constructor].
  destruct values; simpl; apply IH.
Qed.

Section TrainingData.
Context {position : Type}.
Variable get_legal_moves : position → list bool.

(** The policy target of a position, without [one_hot]: the distribution
    recorded for the legal moves, one entry for each, is laid out over all
    moves, with zero at the moves that are not legal; selecting the legal
    moves, as [Network.call] does with the output of the model, gives the
    distribution back. *)
Theorem policy_target_round_trip (p : position) distribution :
  length distribution = count_true (get_legal_moves p) →
  ∃ policy,
    policy_target get_legal_moves false p distribution = Ok policy
    ∧ length policy = length (get_legal_moves p)
    ∧ mask_select (get_legal_moves p) policy = Ok distribution
    ∧ ∃ others, mask_select (negb <$> get_legal_moves p) policy = Ok others
                ∧ Forall (λ x, x = of_Z 0) others.
Proof.
  intros Hlen. unfold policy_target, mask_assign.
  rewrite bool_decide_eq_true_2 by done. simpl.
  eexists. split; [done|]. split; [apply scatter_length|].
  unfold mask_select. rewrite length_fmap, scatter_length.
  rewrite !bool_decide_eq_true_2 by done.
  split; [by rewrite scatter_select|].
  eexists. split; [done|]. apply scatter_illegal.
Qed.

(** A distribution with neither one entry for each legal move nor a single
    entry is refused. *)
Lemma policy_target_wrong_length (p : position) distribution one_hot :
  length distribution ≠ count_true (get_legal_moves p) →
  length distribution ≠ 1%nat →
  policy_target get_legal_moves one_hot p distribution = Raise ValueError.
Proof.
  intros Hlen Hone. unfold policy_target, mask_assign.
  rewrite bool_decide_eq_false_2 by done.
  by destruct distribution as [|x [|y distribution]].
Qed.

(** With [one_hot], the target is [1] at one move and [0] elsewhere.
    For a distribution of weights (numbers that are not negative) with a
    positive entry, that move is a legal move, and no entry of the
    distribution is greater than the entry of that move. *)
Theorem one_hot_target_legal (p : position) distribution :
  length distribution = count_true (get_legal_moves p) →
  Forall (λ w, ∃ q : Qc, w = Fin q ∧ (0 ≤ q)%Qc) distribution →
  (∃ w, w ∈ distribution ∧ num_gtb w (of_Z 0) = true) →
  ∃ idx best,
    policy_target get_legal_moves true p distribution
    = Ok (<[idx := of_Z 1]> (replicate (length (get_legal_moves p)) (of_Z 0)))
    ∧ get_legal_moves p !! idx = Some true
    ∧ scatter (get_legal_moves p) distribution !! idx = Some best
    ∧ Forall (λ w, num_gtb w best = false) distribution.
Proof.
  intros Hlen Hweights (w0 & Hw0 & Hpos0).
  unfold policy_target, mask_assign.
  rewrite bool_decide_eq_true_2 by done. simpl.
  set (mask := get_legal_moves p) in *.
  set (dense := scatter mask distribution).
  assert (∀ x, x ∈ dense → x = of_Z 0 ∨ x ∈ distribution) as Hdense.
  { unfold dense. clear. generalize distribution.
    induction mask as [|[] mask IH]; intros values x; simpl.
    - by intros ?%elem_of_nil.
    - destruct values as [|y values]; intros [->|Hin]%elem_of_cons.
      + by left.
      + destruct (IH _ _ Hin) as [?|?%elem_of_nil]; auto.
      + right. apply elem_of_cons. by left.
      + destruct (IH _ _ Hin); [by left|right]. apply elem_of_cons. by right.
    - intros [->|Hin]%elem_of_cons; [by left|]. by apply IH. }
  assert (Forall (λ w, w ∈ dense) distribution) as Hin_dense.
  { apply Forall_forall. intros w Hw.
    apply (select_true_elem mask). unfold dense.
    by rewrite scatter_select. }
  assert (Forall (λ y, is_nan y = false) dense) as Hnan.
  { apply Forall_forall. intros x [->|Hx]%Hdense; [done|].
    by destruct (proj1 (Forall_forall _ _) Hweights x Hx) as (q & -> & _). }
  destruct (argmax_max dense) as (idx & best & -> & Hidx & Hmax); [|done|].
  { intros Hempty. rewrite Hempty in Hin_dense.
    apply (proj1 (Forall_forall _ _) Hin_dense) in Hw0.
    by apply elem_of_nil in Hw0. }
  simpl. exists idx, best.
  assert (length dense = length mask) as Hdense_len by apply scatter_length.
  split.
  { do 2 f_equal. clear -Hdense_len. rewrite <- Hdense_len.
    generalize dense. intros l. induction l as [|x l IH]; simpl;
      [done|by f_equal]. }
  assert (Forall (λ w, num_gtb w best = false) distribution) as Hbest.
  { eapply Forall_impl; [exact Hin_dense|]. intros w Hw.
    by apply (proj1 (Forall_forall _ _) Hmax). }
  split; [|done].
  (* the best entry is positive, so it is not at an illegal move *)
  assert (num_gtb best (of_Z 0) = true) as Hbest_pos.
  { pose proof (proj1 (Forall_forall _ _) Hbest w0 Hw0) as Hle.
    assert (is_nan best = false) as Hbest_nan.
    { apply (proj1 (Forall_forall _ _) Hnan).
      by eapply list_elem_of_lookup_2. }
    unfold num_gtb in *.
    destruct (num_ltb_cotrans _ _ best Hbest_nan Hpos0); [done|congruence]. }
  assert (∀ i, mask !! i = Some false → dense !! i = Some (of_Z 0)) as Hfalse.
  { unfold dense. clear. generalize distribution.
    induction mask as [|b mask IH]; intros values [|i]; simpl; try done.
    - intros [= ->]. done.
    - intros Hi. destruct b; [destruct values|]; simpl; by apply IH. }
  destruct (lookup_lt_is_Some_2 mask idx) as [[] Hb]; [|done|].
  { rewrite <- Hdense_len. by eapply lookup_lt_Some. }
  rewrite (Hfalse idx Hb) in Hidx. injection Hidx as <-.
  unfold num_gtb in Hbest_pos. by rewrite num_ltb_irrefl in Hbest_pos.
Qed.

End TrainingData.

Lemma policy_target_round_trip_witness :
  ∃ policy,
    policy_target pile_legal_moves false (1%nat, false) [of_Z 1] = Ok policy
    ∧ length policy = length (pile_legal_moves (1%nat, false))
    ∧ mask_select (pile_legal_moves (1%nat, false)) policy = Ok [of_Z 1]
    ∧ ∃ others,
        mask_select (negb <$> pile_legal_moves (1%nat, false)) policy
        = Ok others
        ∧ Forall (λ x, x = of_Z 0) others.
Proof.
  by apply (policy_target_round_trip pile_legal_moves (1%nat, false) [of_Z 1]).
Defined.

Lemma one_hot_target_legal_witness :
  ∃ idx best,
    policy_target pile_legal_moves true (4%nat, true)
      [Fin (Q2Qc (1 # 4)); Fin (Q2Qc (3 # 4))]
    = Ok (<[idx := of_Z 1]>
            (replicate (length (pile_legal_moves (4%nat, true))) (of_Z 0)))
    ∧ pile_legal_moves (4%nat, true) !! idx = Some true
    ∧ scatter (pile_legal_moves (4%nat, true))
        [Fin (Q2Qc (1 # 4)); Fin (Q2Qc (3 # 4))] !! idx = Some best
    ∧ Forall (λ w, num_gtb w best = false)
        [Fin (Q2Qc (1 # 4)); Fin (Q2Qc (3 # 4))].
Proof.
  apply (one_hot_target_legal pile_legal_moves (4%nat, true)
           [Fin (Q2Qc (1 # 4)); Fin (Q2Qc (3 # 4))]).
  - done.
  - repeat constructor; by eexists.
  - eexists. split; [apply elem_of_cons; by left|done].
Defined.

(** ** [process_data]: the shuffled training set *)

Lemma omap_cons {A B} (f : A → option B) x l :
  omap f (x :: l)
  = match f x with Some y => y :: omap f l | None => omap f l end.
Proof. done. Qed.

Lemma omap_lookup_seq {A} (l : list A) :
  ∀ before, omap (λ i, (before ++ l) !! i) (seq (length before) (length l)) = l.
Proof.
  induction l as [|x l IH]; intros before; [done|].
  cbn [length seq]. rewrite omap_cons.
  rewrite lookup_app_r, Nat.sub_diag by done. simpl. f_equal.
  specialize (IH (before ++ [x])). rewrite length_app in IH. simpl in IH.
  rewrite Nat.add_1_r, <- app_assoc in IH. exact IH.
Qed.

Lemma gather_omap {A} (l : list A) shuffle :
  Forall (λ i, i < length l)%nat shuffle →
  mapR (index l) shuffle = Ok (omap (λ i, l !! i) shuffle).
Proof.
  induction 1 as [|i shuffle Hi _ IH]; simpl; [done|].
  destruct (lookup_lt_is_Some_2 l i Hi) as [x Hx].
  assert (index l i = Ok x) as Hix by (unfold index; by rewrite Hx).
  rewrite Hix, IH. simpl. by rewrite Hx.
Qed.

Lemma omap_lookup_fmap {A B} (f : A → B) (l : list A) (shuffle : list nat) :
  omap (λ i, (f <$> l) !! i) shuffle = f <$> omap (λ i, l !! i) shuffle.
Proof.
  induction shuffle as [|i shuffle IH]; [done|].
  rewrite !omap_cons, list_lookup_fmap, IH. by destruct (l !! i).
Qed.

Section ShuffledData.
Context {position : Type}.
Variable get_legal_moves : position → list bool.

(** [process_data] with no position in the data raises ([np.stack] of no
    arrays); otherwise, [shuffle] being a permutation of the indices of the
    rows, it returns the positions, the policy targets and the outcomes in
    the same order: row by row they are the rows of the data, each once. *)
Theorem process_data_shuffled shuffle one_hot data rows :
  training_rows get_legal_moves one_hot data = Ok rows →
  (rows = [] →
   process_data get_legal_moves shuffle one_hot data = Raise ValueError)
  ∧ (rows ≠ [] → shuffle ≡ₚ seq 0 (length rows) →
     ∃ (input_data : list position) policy_outputs value_outputs,
       process_data get_legal_moves shuffle one_hot data
       = Ok (input_data, (policy_outputs, value_outputs))
       ∧ zip (zip input_data policy_outputs) value_outputs ≡ₚ rows).
Proof.
  intros Hrows. unfold process_data. rewrite Hrows. simpl. split.
  { intros ->. by rewrite bool_decide_eq_true_2. }
  intros Hne Hperm. rewrite bool_decide_eq_false_2 by done.
  assert (Forall (λ i, i < length rows)%nat shuffle) as Hbound.
  { apply Forall_forall. intros i Hi. rewrite Hperm in Hi.
    apply elem_of_seq in Hi. lia. }
  rewrite !gather_omap by (by rewrite ?length_fmap).
  simpl. rewrite !omap_lookup_fmap.
  eexists _, _, _. split; [done|].
  set (out := omap (λ i, rows !! i) shuffle).
  assert (out ≡ₚ rows) as <-.
  { unfold out. rewrite Hperm.
    pose proof (omap_lookup_seq rows []) as Hall. simpl in Hall.
    by rewrite Hall. }
  by rewrite (zip_fst_snd (out.*1)), zip_fst_snd.
Qed.

End ShuffledData.

Lemma process_data_shuffled_witness :
  ∃ (input_data : list (nat * bool)) policy_outputs value_outputs,
    process_data pile_legal_moves [1%nat; 0%nat] false
      [([((4%nat, true), [Fin (Q2Qc (1 # 4)); Fin (Q2Qc (3 # 4))]);
         ((1%nat, false), [of_Z 1])], of_Z 1)]
    = Ok (input_data, (policy_outputs, value_outputs))
    ∧ zip (zip input_data policy_outputs) value_outputs
      ≡ₚ [((4%nat, true), [Fin (Q2Qc (1 # 4)); Fin (Q2Qc (3 # 4))], of_Z 1);
          ((1%nat, false), [of_Z 1; of_Z 0], of_Z 1)].
Proof.
  apply (proj2 (process_data_shuffled pile_legal_moves [1%nat; 0%nat] false
                  [([((4%nat, true), [Fin (Q2Qc (1 # 4)); Fin (Q2Qc (3 # 4))]);
                     ((1%nat, false), [of_Z 1])], of_Z 1)]
                  [((4%nat, true), [Fin (Q2Qc (1 # 4)); Fin (Q2Qc (3 # 4))],
                    of_Z 1);
                   ((1%nat, false), [of_Z 1; of_Z 0], of_Z 1)]
                  eq_refl)).
  - done.
  - simpl. apply Permutation_swap.
Defined.

(** ** The first search ([MCTS.py]) *)

Section FirstSearchProperties.
Context {position : Type} `{Game position}.
Variable exploration : num → num → num.
Implicit Types (s : list (Node_ position)) (self child nd : Node_ position).

(** A child that has been visited, and its mean outcome. *)
Local Abbreviation visited s c :=
  (∃ child, s !! c = Some child
            ∧ num_gtb (Node_rollout_count child) (of_Z 0) = true).
Local Abbreviation mean_of s c v :=
  (∃ child, s !! c = Some child
            ∧ np_div (Node_rollout_sum child) (Node_rollout_count child) = v).

Lemma best_visited_spec s m cs :
  Forall (λ c, ∃ child, s !! c = Some child
                 ∧ finite (Node_rollout_sum child)
                 ∧ finite (Node_rollout_count child)) cs →
  ∀ best_heuristic best_child seen,
  (best_child = None ∧ best_heuristic = worst m
   ∧ Forall (λ c, ¬ visited s c) seen
   ∨ ∃ b, best_child = Some b ∧ b ∈ seen ∧ visited s b
          ∧ mean_of s b best_heuristic ∧ finite best_heuristic
          ∧ Forall (λ c, visited s c →
                      ∀ v, mean_of s c v → beats m v best_heuristic = false)
                   seen) →
  ∃ r, best_visited s m cs best_heuristic best_child = Ok r
       ∧ match r with
         | None => Forall (λ c, ¬ visited s c) (seen ++ cs)
         | Some b =>
             b ∈ seen ++ cs ∧ visited s b
             ∧ ∃ best, mean_of s b best
                 ∧ Forall (λ c, visited s c →
                             ∀ v, mean_of s c v → beats m v best = false)
                          (seen ++ cs)
         end.
Proof.
  induction 1 as [|c cs (child & Hc & [qs Hsum] & [qc Hcount]) _ IH];
    intros bh bc seen Hinv; simpl.
  { rewrite app_nil_r. destruct Hinv as [(-> & _ & Hnone)|(b & -> & ? & ? & ? & ? & ?)].
    - by exists None.
    - exists (Some b). split; [done|]. split; [done|]. split; [done|].
      by exists bh. }
  unfold Node_get. rewrite Hc. simpl.
  replace (seen ++ c :: cs) with ((seen ++ [c]) ++ cs)
    by (by rewrite <- app_assoc).
  destruct (num_gtb (Node_rollout_count child) (of_Z 0)) eqn:Hvisited.
  2:{ apply IH. destruct Hinv as [(-> & -> & Hnone)|(b & -> & ? & ? & ? & ? & Hall)].
      - left. repeat split; try done. apply Forall_app. split; [done|].
        constructor; [|done]. intros (child' & Hc' & Hgt). congruence.
      - right. exists b. repeat split; try done.
        + apply elem_of_app. by left.
        + apply Forall_app. split; [done|]. constructor; [|done].
          intros (child' & Hc' & Hgt). congruence. }
  assert (qc ≠ 0%Qc) as Hqc.
  { intros ->. rewrite Hcount in Hvisited. unfold num_gtb, num_ltb, of_Z in Hvisited.
    rewrite Z2Qc_inj_0 in Hvisited. apply bool_decide_eq_true in Hvisited.
    by apply Qclt_not_eq in Hvisited. }
  assert (py_div (Node_rollout_sum child) (Node_rollout_count child)
          = Ok (Fin (qs / qc)%Qc)
          ∧ np_div (Node_rollout_sum child) (Node_rollout_count child)
            = Fin (qs / qc)%Qc) as [-> Hmean].
  { rewrite Hsum, Hcount. unfold py_div, np_div, num_eqb, of_Z.
    rewrite Z2Qc_inj_0. by rewrite !bool_decide_eq_false_2. }
  simpl. set (h := Fin (qs / qc)%Qc) in *.
  assert (visited s c) as Hvc by (by exists child).
  assert (mean_of s c h) as Hmc by (by exists child).
  assert (∀ v, mean_of s c v → v = h) as Hunique.
  { intros v (child' & Hc' & <-). congruence. }
  rewrite beats_or.
  assert (beats m h h = false) as Hirrefl.
  { destruct m; apply num_ltb_irrefl. }
  destruct (beats m h bh) eqn:Hbeats.
  - apply IH. right. exists c. split; [done|].
    split; [apply elem_of_app; right; by apply list_elem_of_singleton|].
    split; [done|]. split; [done|]. split; [by eexists|].
    apply Forall_app. split.
    + destruct Hinv as [(_ & _ & Hnone)|(b & _ & _ & _ & _ & _ & Hall)].
      * eapply Forall_impl; [exact Hnone|]. by intros c' Hc' ?.
      * eapply Forall_impl; [exact Hall|]. intros c' Hc' Hv v Hm.
        specialize (Hc' Hv v Hm).
        destruct (beats m v h) eqn:Hvh; [|done].
        by rewrite (beats_trans _ _ _ _ Hvh Hbeats) in Hc'.
    + constructor; [|done]. intros _ v ->%Hunique. done.
  - destruct Hinv as [(_ & -> & _)|(b & -> & Hb & Hvb & Hmb & Hfin & Hall)].
    { exfalso. by destruct m. }
    apply IH. right. exists b. split; [done|].
    split; [apply elem_of_app; by left|]. split; [done|]. split; [done|].
    split; [done|]. apply Forall_app. split; [done|].
    constructor; [|done]. by intros _ v ->%Hunique.
Qed.

(** [Node.choose_best_node] at a node with children whose statistics are
    numbers: it returns, never dividing by zero; [None] when no child has a
    rollout, and otherwise a child with a rollout whose mean outcome is not
    beaten, for the mover, by the mean outcome of any child with a
    rollout. *)
Theorem first_search_best_child s k self cs :
  s !! k = Some self → Node_children self = Some cs →
  Forall (λ c, ∃ child, s !! c = Some child
                 ∧ finite (Node_rollout_sum child)
                 ∧ finite (Node_rollout_count child)) cs →
  ∃ r, Node_choose_best_node s k = Ok r
       ∧ match r with
         | None => Forall (λ c, ¬ visited s c) cs
         | Some b =>
             b ∈ cs ∧ visited s b
             ∧ ∃ best, mean_of s b best
                 ∧ Forall (λ c, visited s c →
                             ∀ v, mean_of s c v →
                               beats (Node_is_maximizing self) v best = false)
                          cs
         end.
Proof.
  intros Hk Hcs Hall. unfold Node_choose_best_node, Node_get.
  rewrite Hk. simpl. rewrite Hcs. simpl.
  apply (best_visited_spec s (Node_is_maximizing self) cs Hall _ None []).
  left. by repeat split.
Qed.

Lemma scan_rollout_unvisited s self cs :
  ∀ best_heuristic best_child c,
  scan_rollout exploration s self cs best_heuristic best_child = Ok (inl c) →
  ∃ child, s !! c = Some child
           ∧ num_eqb (Node_rollout_count child) (of_Z 0) = true.
Proof.
  induction cs as [|c' cs IH]; intros bh bc c; simpl; [done|].
  unfold Node_get. destruct (s !! c') as [child|] eqn:Hc'; simpl; [|done].
  destruct (num_eqb (Node_rollout_count child) (of_Z 0)) eqn:Hcount.
  { intros [= <-]. by exists child. }
  destruct (py_div _ _) as [h|]; simpl; [|done].
  destruct (Node_is_maximizing self);
    [destruct (num_gtb _ _)|destruct (num_ltb _ _)]; apply IH.
Qed.

Lemma choose_rollout_node_unvisited fuel :
  ∀ s k s' t,
  choose_rollout_node exploration fuel s k = Ok (s', t) →
  ∃ nd, s' !! t = Some nd ∧ num_eqb (Node_rollout_count nd) (of_Z 0) = true.
Proof.
  induction fuel as [|fuel IH]; intros s k s' t; [done|]. simpl.
  destruct (Node_get s k) as [self|] eqn:Hk; simpl; [|done].
  assert (s !! k = Some self) as Hself.
  { unfold Node_get in Hk. destruct (s !! k); congruence. }
  destruct (num_eqb (Node_rollout_count self) (of_Z 0)) eqn:Hcount.
  { intros [= <- <-]. by exists self. }
  destruct (Node_ensure_children s k) as [s1|]; simpl; [|done].
  destruct (Node_get s1 k) as [self1|]; simpl; [|done].
  destruct (Node_children self1) as [cs|]; simpl; [|done].
  destruct (scan_rollout _ _ _ _ _ _) as [[c|[best|]]|] eqn:Hscan; simpl.
  - intros [= <- <-]. by eapply scan_rollout_unvisited.
  - apply IH.
  - done.
  - done.
Qed.

(** [Node.choose_rollout_node] selects nodes without a rollout only:
    whenever it returns, the node it returns has [rollout_count == 0].  At
    a node with rollouts and no possible move (a terminal position that
    was selected before) it raises [AttributeError] instead: there is no
    best child to go on with. *)
Theorem first_search_selection fuel s k self :
  s !! k = Some self →
  (∀ s' t, choose_rollout_node exploration fuel s k = Ok (s', t) →
     ∃ nd, s' !! t = Some nd
           ∧ num_eqb (Node_rollout_count nd) (of_Z 0) = true)
  ∧ (num_eqb (Node_rollout_count self) (of_Z 0) = false →
     Node_children self = None ∨ Node_children self = Some [] →
     get_possible_moves (Node_position self) = [] →
     choose_rollout_node exploration (S fuel) s k = Raise AttributeError).
Proof.
  intros Hk. split; [apply choose_rollout_node_unvisited|].
  intros Hcount Hcs Hmoves. cbn [choose_rollout_node].
  assert (∀ s0 nd, s0 !! k = Some nd → Node_get s0 k = Ok nd) as Hget.
  { intros s0 nd Hnd. unfold Node_get. by rewrite Hnd. }
  rewrite (Hget _ _ Hk). simpl. rewrite Hcount.
  unfold Node_ensure_children. rewrite (Hget _ _ Hk). simpl.
  destruct Hcs as [Hcs | Hcs]; rewrite Hcs; simpl.
  - rewrite Hmoves. simpl. rewrite app_nil_r.
    erewrite Hget;
      [|apply list_lookup_insert_eq; by eapply lookup_lt_Some].
    done.
  - rewrite (Hget _ _ Hk). simpl. by rewrite Hcs.
Qed.

End FirstSearchProperties.

Lemma first_search_best_child_witness :
  ∃ r, Node_choose_best_node first_search_example 0 = Ok r
       ∧ match r with
         | None =>
             Forall (λ c, ¬ ∃ child, first_search_example !! c = Some child
                            ∧ num_gtb (Node_rollout_count child) (of_Z 0)
                              = true) [1%nat]
         | Some b =>
             b ∈ [1%nat]
             ∧ (∃ child, first_search_example !! b = Some child
                  ∧ num_gtb (Node_rollout_count child) (of_Z 0) = true)
             ∧ ∃ best,
                 (∃ child, first_search_example !! b = Some child
                    ∧ np_div (Node_rollout_sum child)
                        (Node_rollout_count child) = best)
                 ∧ Forall (λ c,
                     (∃ child, first_search_example !! c = Some child
                        ∧ num_gtb (Node_rollout_count child) (of_Z 0) = true) →
                     ∀ v, (∃ child, first_search_example !! c = Some child
                             ∧ np_div (Node_rollout_sum child)
                                 (Node_rollout_count child) = v) →
                          beats true v best = false) [1%nat]
         end.
Proof.
  apply (first_search_best_child first_search_example 0
           (MakeNode (1%nat, true) None true (Some [1%nat]) (of_Z 2) (of_Z 2))
           [1%nat]); [done|done|].
  repeat constructor. eexists. split; [done|]. split; apply finite_of_Z.
Defined.

Lemma first_search_selection_witness :
  choose_rollout_node flat_exploration 2 first_search_example 0
  = Raise AttributeError
  ∧ (∀ s' t,
       choose_rollout_node flat_exploration 1 first_search_example 1
       = Ok (s', t) →
       ∃ nd, s' !! t = Some nd
             ∧ num_eqb (Node_rollout_count nd) (of_Z 0) = true)
  ∧ choose_rollout_node flat_exploration 2 first_search_example 1
    = Raise AttributeError.
Proof.
  split; [evaluate|].
  destruct (first_search_selection flat_exploration 1 first_search_example 1
              (MakeNode (0%nat, false) (Some 0%nat) false None (of_Z 1)
                 (of_Z 1)) eq_refl) as [Hunvisited Hraises].
  split; [exact Hunvisited|]. apply Hraises; [done|by left|done].
Defined.

(** ** The search with playouts returns a move *)

Section Counting.
Context {position : Type} `{Game position}.
Implicit Types (s : list (node position)) (nd : node position).

Lemma pending_count_app s1 s2 :
  pending_count (s1 ++ s2) = (pending_count s1 + pending_count s2)%nat.
Proof. unfold pending_count. by rewrite filter_app, length_app. Qed.

Lemma pending_count_cons nd s :
  pending_count (nd :: s)
  = ((if pending nd then 1 else 0) + pending_count s)%nat.
Proof.
  unfold pending_count. destruct (pending nd) eqn:Hp.
  - by rewrite filter_cons_True.
  - rewrite filter_cons_False; [done|]. by rewrite Hp.
Qed.

Lemma pending_count_none s :
  Forall (λ nd, pending nd = false) s → pending_count s = 0%nat.
Proof.
  induction 1 as [|nd s Hnd _ IH]; [done|].
  by rewrite pending_count_cons, Hnd, IH.
Qed.

Lemma pending_count_split s k nd :
  s !! k = Some nd →
  pending_count s
  = (pending_count (take k s) + (if pending nd then 1 else 0)
     + pending_count (drop (S k) s))%nat.
Proof.
  intros Hk. rewrite <- (take_drop_middle s k nd Hk) at 1.
  rewrite pending_count_app, pending_count_cons. lia.
Qed.

Lemma pending_count_insert s k nd nd' :
  s !! k = Some nd →
  (pending_count (<[k := nd']> s) + (if pending nd then 1 else 0)
   = pending_count s + (if pending nd' then 1 else 0))%nat.
Proof.
  intros Hk.
  assert (k < length s)%nat as Hlt by (by eapply lookup_lt_Some).
  rewrite (pending_count_split s k nd Hk).
  rewrite (pending_count_split (<[k := nd']> s) k nd')
    by (by apply list_lookup_insert_eq).
  rewrite take_insert_ge by lia. rewrite drop_insert_lt by lia. lia.
Qed.

Lemma pending_count_drop s k : (pending_count (drop k s) ≤ pending_count s)%nat.
Proof.
  rewrite <- (take_drop k s) at 2. rewrite pending_count_app. lia.
Qed.

(** A descent to a pending node with a larger handle. *)
Lemma pending_count_descent s k c child :
  (k < c)%nat → s !! c = Some child → pending child = true →
  (pending_count (drop (S c) s) < pending_count (drop (S k) s))%nat.
Proof.
  intros Hlt Hc Hp.
  assert (drop (S k) s !! (c - S k)%nat = Some child) as Hc'.
  { rewrite lookup_drop. by replace (S k + (c - S k))%nat with c by lia. }
  rewrite (pending_count_split _ _ _ Hc'), Hp.
  rewrite drop_drop. replace (S k + S (c - S k))%nat with (S c) by lia. lia.
Qed.

End Counting.

Lemma of_Z_add (n m : Z) : num_add (of_Z n) (of_Z m) = of_Z (n + m).
Proof. unfold of_Z, num_add. f_equal. by rewrite Z2Qc_inj_add. Qed.

Section RolloutSearchReturns.
Context {position : Type} `{Game position}.
Variable exploration : num → num → num.
Variable d : num.
Variable network_call : list position → list (list num * num).
Variable rollout_batch_size : num.
Variable np_exp : num → num.

Hypothesis get_winner_three_valued :
  ∀ p : position, is_over p = true → three_valued (get_winner p).
Hypothesis network_call_length :
  ∀ ps, length (network_call ps) = length ps.
Hypothesis network_call_finite :
  ∀ ps, Forall (λ r, Forall finite r.1 ∧ finite r.2) (network_call ps).
Hypothesis exploration_not_nan : ∀ N n, is_nan (exploration N n) = false.
Hypothesis d_finite : finite d.
Hypothesis moves_exist :
  ∀ p : position, is_over p = false → get_possible_moves p ≠ [].
(** [self.rollout_batch_size]: the number of threads, one at least. *)
Hypothesis batch_size_positive :
  ∃ b, (1 ≤ b)%Z ∧ rollout_batch_size = of_Z b.
Hypothesis np_exp_positive :
  ∀ x, finite x → finite (np_exp x) ∧ num_gtb (np_exp x) (of_Z 0) = true.

Implicit Types (s : list (node position)) (self child nd : node position).

(** The loop over the children of a node of a rollout tree raises nothing,
    and the child it picks by score is pending. *)
Lemma scan_expansion_rollout s self all :
  rollout_tree s → is_rollout self → children self = Some all →
  Forall (λ c, is_Some (s !! c)) all →
  ∀ cs i best_heuristic best_child, drop i all = cs →
  ∃ r, scan_expansion exploration d s self i cs best_heuristic best_child
       = Ok r
       ∧ ∀ c, r = Scanned (Some c) →
           Some c = best_child
           ∨ ∃ child, c ∈ cs ∧ s !! c = Some child ∧ pending child = true.
Proof.
  intros Htree (rs & rc & Hself & _) Hall Hin.
  induction cs as [|c rest IH]; intros i best bc Hdrop; simpl.
  { eexists. split; [done|]. intros c [= <-]. by left. }
  apply drop_cons_inv in Hdrop as [Hi Hdrop].
  destruct (proj1 (Forall_forall _ _) Hin c) as [child Hc].
  { by eapply list_elem_of_lookup_2. }
  rewrite (proj2 (get_Ok _ _ _) Hc). simpl.
  assert (∀ best bc',
            (∀ c', Some c' = bc' →
               Some c' = bc
               ∨ ∃ child', c' ∈ c :: rest ∧ s !! c' = Some child'
                           ∧ pending child' = true) →
            ∃ r, scan_expansion exploration d s self (S i) rest best bc'
                 = Ok r
                 ∧ ∀ c', r = Scanned (Some c') →
                     Some c' = bc
                     ∨ ∃ child', c' ∈ c :: rest ∧ s !! c' = Some child'
                                 ∧ pending child' = true) as Hnext.
  { intros best' bc' Hbc'.
    destruct (IH (S i) best' bc' Hdrop) as (r & Hr & Hpick).
    exists r. split; [done|]. intros c' Hc'.
    destruct (Hpick c' Hc') as [Hold|(child' & Hin' & Hlook & Hp)].
    - by apply Hbc'.
    - right. exists child'. split; [apply elem_of_cons; auto|done]. }
  destruct (Htree c child Hc) as (crs & crc & Hchild & _).
  destruct (fully_expanded child) eqn:Hfe.
  - rewrite (get_evaluation_solved_value _ Hfe). simpl.
    destruct (num_eqb _ _); [by eexists|]. apply Hnext. auto.
  - unfold get_puct_heuristic_for_child. rewrite Hall. simpl.
    unfold index. rewrite Hi. simpl. rewrite (proj2 (get_Ok _ _ _) Hc). simpl.
    rewrite Hself, Hchild.
    destruct (num_gtb crc (of_Z 0)) eqn:Hpos; simpl; [|by eexists].
    destruct (isinf (exploration rc crc)); [by eexists|].
    unfold get_evaluation. rewrite Hchild, Hfe. simpl.
    rewrite (py_div_nonzero _ _ Hpos). simpl.
    assert (pending child = true) as Hpending.
    { unfold pending, count_expansions. rewrite Hfe, Hchild. simpl.
      by rewrite (num_lt_neq _ _ Hpos). }
    assert (∀ c', Some c' = Some c →
              Some c' = bc
              ∨ ∃ child', c' ∈ c :: rest ∧ s !! c' = Some child'
                          ∧ pending child' = true) as Hnew.
    { intros c' [= ->]. right. exists child.
      split; [apply elem_of_cons; auto|done]. }
    destruct (is_maximizing self).
    + destruct (num_gtb _ best); apply Hnext; auto.
    + destruct (num_ltb _ best); apply Hnext; auto.
Qed.

Lemma rollout_tree_insert s k nd' :
  rollout_tree s → is_rollout nd' → rollout_tree (<[k := nd']> s).
Proof.
  intros Htree Hnd x nd [(-> & <- & _)|[_ Hx]]%list_lookup_insert_Some;
    [done|by eapply Htree].
Qed.

Lemma grows_refl s : grows s s.
Proof. intros x nd Hx. exists nd. auto. Qed.

Lemma grows_trans s1 s2 s3 : grows s1 s2 → grows s2 s3 → grows s1 s3.
Proof.
  intros H12 H23 x nd Hx.
  destruct (H12 x nd Hx) as (nd2 & Hx2 & Hcs2 & Hfe2 & Hp2).
  destruct (H23 x nd2 Hx2) as (nd3 & Hx3 & Hcs3 & Hfe3 & Hp3).
  exists nd3. repeat split; auto.
  intros [Hp|Hfe]%Hp2; auto.
Qed.

Lemma grows_insert s k nd nd' :
  s !! k = Some nd →
  (is_Some (children nd) → is_Some (children nd')) →
  (fully_expanded nd = true → fully_expanded nd' = true) →
  (pending nd = true → pending nd' = true ∨ fully_expanded nd' = true) →
  grows s (<[k := nd']> s).
Proof.
  intros Hk Hcs Hfe Hp x y Hx.
  assert (k < length s)%nat as Hlt by (by eapply lookup_lt_Some).
  destruct (decide (x = k)) as [->|Hne].
  - exists nd'. rewrite list_lookup_insert_eq by done.
    assert (y = nd) as -> by congruence. auto.
  - exists y. rewrite list_lookup_insert_ne by done. auto.
Qed.

Lemma grows_app s new : grows s (s ++ new).
Proof.
  intros x nd Hx. exists nd. split; [|auto].
  rewrite lookup_app_l; [done|by eapply lookup_lt_Some].
Qed.

Lemma RolloutNode_fresh_rollout (move : position) par :
  is_rollout (RolloutNode move par) ∧ pending (RolloutNode move par) = false.
Proof.
  unfold is_rollout, pending, RolloutNode, count_expansions. simpl.
  destruct (is_over move); simpl.
  - split; [|done]. by eexists _, _.
  - split; [|evaluate].
    eexists _, _. split; [done|]. intros _. by exists 0%Z.
Qed.

(** [ensure_children] on a node of a rollout tree raises nothing, and
    creates no pending node. *)
Lemma ensure_children_rollout s k self :
  rollout_tree s → s !! k = Some self →
  ∃ s1 self1 cs,
    ensure_children network_call s k None None = Ok s1
    ∧ s1 !! k = Some self1 ∧ children self1 = Some cs
    ∧ node_stats self1 = node_stats self
    ∧ fully_expanded self1 = fully_expanded self
    ∧ rollout_tree s1 ∧ grows s s1
    ∧ pending_count s1 = pending_count s
    ∧ pending_count (drop (S k) s1) = pending_count (drop (S k) s).
Proof.
  intros Htree Hk. unfold ensure_children.
  rewrite (proj2 (get_Ok _ _ _) Hk). simpl.
  destruct (children self) as [cs|] eqn:Hcs.
  { exists s, self, cs. repeat split; try done. apply grows_refl. }
  destruct (Htree k self Hk) as (rs & rc & Hstats & Hcount). rewrite Hstats.
  assert (k < length s)%nat as Hlt by (by eapply lookup_lt_Some).
  set (new := (λ move, RolloutNode move (Some k)) <$> _).
  set (self1 := set_children _ self).
  assert (Forall (λ nd, is_rollout nd ∧ pending nd = false) new) as Hnew.
  { apply Forall_fmap, Forall_forall. intros move _.
    apply RolloutNode_fresh_rollout. }
  assert (pending_count new = 0%nat) as Hnone.
  { apply pending_count_none. eapply Forall_impl; [exact Hnew|]. by intros ? []. }
  assert ((s ++ new) !! k = Some self) as Hk' by (by rewrite lookup_app_l).
  exists (<[k := self1]> (s ++ new)), self1, (seq (length s) (length new)).
  split; [done|]. split.
  { apply list_lookup_insert_eq. rewrite length_app. lia. }
  repeat split; try done.
  - apply rollout_tree_insert; [|by exists rs, rc].
    intros x nd [Hx|[_ Hx]]%lookup_app_Some; [by eapply Htree|].
    by eapply (Forall_lookup_1 _ _ _ _ Hnew).
  - eapply grows_trans; [apply (grows_app s new)|].
    apply (grows_insert _ k self self1); [done|by eexists|done|auto].
  - pose proof (pending_count_insert (s ++ new) k self self1 Hk') as Hins.
    rewrite pending_count_app, Hnone in Hins.
    replace (pending self1) with (pending self) in Hins by done. lia.
  - rewrite drop_insert_lt by lia. rewrite drop_app_le by lia.
    rewrite pending_count_app, Hnone. lia.
Qed.

Lemma set_fully_expanded_rollout v nd :
  is_rollout nd → is_rollout (set_fully_expanded v nd).
Proof.
  intros (rs & rc & Hstats & _). unfold is_rollout, set_fully_expanded.
  simpl. rewrite Hstats. by eexists _, _.
Qed.

(** The selection in a rollout tree returns, whatever the tree: the
    recursion is bounded by [selection_measure]. *)
Lemma selection_returns n :
  ∀ s k,
  (selection_measure s k ≤ n)%nat →
  search_inv s → rollout_tree s → is_Some (s !! k) →
  ∃ s' r,
    rollout_tree s' ∧ grows s s'
    ∧ (∀ self, s !! k = Some self → pending self = true →
         ∃ nd', s' !! k = Some nd' ∧ is_Some (children nd'))
    ∧ ∀ fuel, (n < fuel)%nat →
        choose_expansion_node exploration d network_call fuel s k
        = Ok (s', r).
Proof.
  induction n as [n IH] using lt_wf_ind.
  intros s k Hmeasure Hinv Htree [self Hk].
  destruct (fully_expanded self) eqn:Hfe.
  { exists s, None. split; [done|]. split; [apply grows_refl|]. split.
    { intros self' Hself'. assert (self' = self) as -> by congruence.
      unfold pending. by rewrite Hfe. }
    intros [|fuel] Hfuel; [lia|]. simpl.
    rewrite (proj2 (get_Ok _ _ _) Hk). simpl. by rewrite Hfe. }
  destruct (num_eqb (count_expansions self) (of_Z 0)) eqn:Hcount.
  { exists s, (Some k). split; [done|]. split; [apply grows_refl|]. split.
    { intros self' Hself'. assert (self' = self) as -> by congruence.
      unfold pending. by rewrite Hcount, andb_false_r. }
    intros [|fuel] Hfuel; [lia|]. simpl.
    rewrite (proj2 (get_Ok _ _ _) Hk). simpl. by rewrite Hfe, Hcount. }
  destruct (ensure_children_rollout s k self Htree Hk)
    as (s1 & self1 & cs & Hs1 & Hk1 & Hcs & Hstats1 & Hfe1 & Htree1
        & Hgrows1 & Hcount1 & Hdrop1).
  rewrite Hfe in Hfe1.
  pose proof (ensure_children_inv network_call network_call_length
                network_call_finite _ _ _ _ Hinv Hk Hfe Hs1) as Hinv1.
  pose proof (Hinv1 k self1 Hk1) as Hok.
  assert (k < length s1)%nat as Hlt by (by eapply lookup_lt_Some).
  assert (pending self1 = true) as Hpending.
  { unfold pending, count_expansions in *. rewrite Hfe1, Hstats1. simpl.
    by rewrite Hcount. }
  assert (selection_measure s1 k ≤ n)%nat as Hmeasure1.
  { unfold selection_measure in *. by rewrite Hcount1, Hdrop1. }
  assert (Forall (λ c, is_Some (s1 !! c)) cs) as Hin.
  { pose proof (ok_children _ _ _ Hok cs Hcs) as Hchildren.
    apply Forall_forall. intros c [i Hi]%list_elem_of_lookup.
    destruct (Forall2_lookup_l _ _ _ _ _ Hchildren Hi)
      as (move & _ & child & Hc & _). by exists child. }
  destruct (scan_expansion_rollout s1 self1 cs Htree1
              (Htree1 k self1 Hk1) Hcs Hin cs 0
              (worst (is_maximizing self1)) None (drop_0 cs))
    as (scanned & Hscan & Hpick).
  (* what happens once [k] is marked with a proved value *)
  (* what is left to show of a store that [s1] grows into *)
  assert (∀ s' r,
            rollout_tree s' → grows s1 s' →
            (∀ fuel, (n < fuel)%nat →
               choose_expansion_node exploration d network_call fuel s k
               = Ok (s', r)) →
            ∃ s' r,
              rollout_tree s' ∧ grows s s'
              ∧ (∀ self, s !! k = Some self → pending self = true →
                   ∃ nd', s' !! k = Some nd' ∧ is_Some (children nd'))
              ∧ ∀ fuel, (n < fuel)%nat →
                  choose_expansion_node exploration d network_call fuel s k
                  = Ok (s', r)) as Hdone.
  { intros s' r Htree' Hgrows' Hrun. exists s', r.
    split; [done|]. split; [by eapply grows_trans|]. split; [|done].
    intros _ _ _. destruct (Hgrows' k self1 Hk1) as (nd' & Hnd' & Hcs' & _).
    exists nd'. split; [done|]. apply Hcs'. by eexists. }
  assert (∀ v, game_value (position_of self1) v →
            ∃ s' r, rollout_tree s' ∧ grows s1 s'
              ∧ ∀ fuel, (n ≤ fuel)%nat →
                  match parent self1 with
                  | Some p =>
                      choose_expansion_node exploration d network_call fuel
                        (<[k := set_fully_expanded v self1]> s1) p
                  | None => Ok (<[k := set_fully_expanded v self1]> s1, None)
                  end = Ok (s', r)) as Hmark.
  { intros v Hv. set (s2 := <[k := set_fully_expanded v self1]> s1).
    pose proof (search_inv_mark _ _ _ v Hinv1 Hk1 Hfe1 Hv) as Hinv2.
    assert (rollout_tree s2) as Htree2.
    { apply rollout_tree_insert; [done|].
      apply set_fully_expanded_rollout. by eapply Htree1. }
    assert (grows s1 s2) as Hgrows2.
    { apply (grows_insert s1 k self1); auto. }
    destruct (parent self1) as [p|] eqn:Hp; [|by exists s2, None].
    pose proof (ok_parent _ _ _ Hok p Hp) as Hpk.
    pose proof (pending_count_insert s1 k self1 (set_fully_expanded v self1)
                  Hk1) as Hins.
    rewrite Hpending in Hins. fold s2 in Hins.
    replace (pending (set_fully_expanded v self1)) with false in Hins by done.
    pose proof (pending_count_drop s2 (S p)) as Hle.
    assert (selection_measure s2 p < n)%nat as Hless.
    { unfold selection_measure in *. nia. }
    destruct (IH (n - 1)%nat ltac:(lia) s2 p ltac:(lia) Hinv2 Htree2)
      as (s' & r & Htree' & Hgrows' & _ & Hrun).
    { apply lookup_lt_is_Some. unfold s2. rewrite length_insert. lia. }
    exists s', r. split; [done|]. split; [by eapply grows_trans|].
    intros fuel Hfuel. apply Hrun. lia. }
  (* the call, one step unfolded *)
  assert (∀ fuel,
            choose_expansion_node exploration d network_call (S fuel) s k
            = match scanned with
              | Closed =>
                  let s := <[k := set_fully_expanded (optimal_value self1)
                                    self1]> s1 in
                  match parent self1 with
                  | Some p =>
                      choose_expansion_node exploration d network_call fuel
                        s p
                  | None => Ok (s, None)
                  end
              | Unvisited child => Ok (s1, Some child)
              | Scanned None =>
                  minimax_evaluation ← minimax_of_children s1 self1 cs;
                  let s := <[k := set_fully_expanded minimax_evaluation
                                    self1]> s1 in
                  match parent self1 with
                  | Some p =>
                      choose_expansion_node exploration d network_call fuel
                        s p
                  | None => Ok (s, None)
                  end
              | Scanned (Some best_child) =>
                  choose_expansion_node exploration d network_call fuel s1
                    best_child
              end) as Hstep.
  { intros fuel. simpl. rewrite (proj2 (get_Ok _ _ _) Hk). simpl.
    rewrite Hfe, Hcount, Hs1. simpl.
    rewrite (proj2 (get_Ok _ _ _) Hk1). simpl. rewrite Hcs. simpl.
    by rewrite Hscan. }
  destruct scanned as [|c|[best|]].
  - (* a solved child has the optimal value *)
    destruct (Hmark (optimal_value self1))
      as (s' & r & Htree' & Hgrows' & Hrun).
    { destruct (scan_expansion_Closed _ _ _ _ _ _ _ _ Hscan)
        as (c & child & Hc_in & Hc & Hcfe & Hvalue).
      destruct (child_parent _ _ _ _ _ _ Hok Hcs Hc_in Hc) as [_ Hmove].
      pose proof (ok_solved _ _ _ (Hinv1 c child Hc) Hcfe) as Hchild.
      assert (optimal_value self1 = optimum (position_of self1)) as Hopt.
      { unfold optimal_value, optimum. by rewrite (ok_mover _ _ _ Hok). }
      rewrite Hopt. eapply value_optimal; [|exact Hmove|].
      + by apply (ok_unsolved _ _ _ Hok).
      + by rewrite <- Hopt, <- Hvalue. }
    apply (Hdone s' r); [done..|]. intros [|fuel] Hfuel; [lia|].
    rewrite Hstep. apply Hrun. lia.
  - (* a child with an infinite score *)
    apply (Hdone s1 (Some c)); [done|apply grows_refl|].
    intros [|fuel] Hfuel; [lia|]. by rewrite Hstep.
  - (* the best child by score *)
    destruct (Hpick best eq_refl) as [|(child & Hc_in & Hc & Hcp)]; [done|].
    destruct (child_parent _ _ _ _ _ _ Hok Hcs Hc_in Hc) as [Hpar _].
    pose proof (ok_parent _ _ _ (Hinv1 best child Hc) k Hpar) as Hkc.
    pose proof (pending_count_descent s1 k best child Hkc Hc Hcp) as Hless.
    assert (selection_measure s1 best < n)%nat as Hbest.
    { unfold selection_measure in *. lia. }
    destruct (IH (n - 1)%nat ltac:(lia) s1 best ltac:(lia) Hinv1 Htree1)
      as (s' & r & Htree' & Hgrows' & _ & Hrun); [by eexists|].
    apply (Hdone s' r); [done..|]. intros [|fuel] Hfuel; [lia|].
    rewrite Hstep. apply Hrun. lia.
  - (* every child is solved *)
    assert (Forall (solved s1) cs) as Hsolved.
    { eapply (scan_expansion_none_solved _ _ exploration_not_nan d_finite
                s1 self1 cs Hcs);
        [by apply (ok_unsolved _ _ _ Hok)| |apply drop_0|exact Hscan].
      intros c child _ Hc Hcfe.
      by apply (ok_unsolved _ _ _ (Hinv1 c child Hc)). }
    destruct (solved_children_values _ _ _ _ Hinv1 Hok Hcs Hsolved)
      as (vs & Hvs & Hvalues).
    assert (∃ v, (if is_maximizing self1 then num_max vs else num_min vs)
                 = Ok v) as [v Hv].
    { pose proof (ok_children _ _ _ Hok cs Hcs) as Hchildren.
      apply Forall2_length in Hchildren, Hvs.
      pose proof (moves_exist (position_of self1)
                    (proj1 (ok_unsolved _ _ _ Hok Hfe1))) as Hmoves.
      destruct vs as [|v0 vs].
      - destruct (get_possible_moves (position_of self1)); [done|].
        simpl in *. lia.
      - destruct (is_maximizing self1); by eexists. }
    destruct (Hmark v) as (s' & r & Htree' & Hgrows' & Hrun).
    { eapply value_minimax; [|exact Hvalues|].
      + by apply (ok_unsolved _ _ _ Hok).
      + unfold best_value. by rewrite <- (ok_mover _ _ _ Hok). }
    apply (Hdone s' r); [done..|]. intros [|fuel] Hfuel; [lia|].
    rewrite Hstep, (minimax_of_solved_children _ _ _ _ Hvs), Hv. simpl.
    apply Hrun. lia.
Qed.

(** The loop over the parents in [RolloutNode.expand] returns: a parent has
    a smaller handle than its child. *)
Lemma rollout_backup_returns m :
  ∀ s node total,
  search_inv s → rollout_tree s → unsolved_chain s node → finite total →
  (∀ n, node = Some n → (n < m)%nat) →
  ∃ s', rollout_tree s' ∧ grows s s'
        ∧ ∀ fuel, (m ≤ fuel)%nat →
            rollout_backup rollout_batch_size fuel s node total = Ok s'.
Proof.
  destruct batch_size_positive as (b & Hb & ->).
  induction m as [|m IH]; intros s node total Hinv Htree Hchain Htotal Hbound;
    destruct Hchain as [|n nd Hn Hfe Hrest];
    try (exists s; split; [done|]; split; [apply grows_refl|];
         by intros [|fuel] _).
  { specialize (Hbound n eq_refl). lia. }
  destruct (Htree n nd Hn) as (rs & rc & Hstats & Hcount).
  destruct (Hcount Hfe) as (z & Hz & ->).
  set (st := RolloutStats (num_add rs total) (num_add (of_Z z) (of_Z b))).
  set (s1 := <[n := set_stats st nd]> s).
  destruct (search_inv_set_stats s n nd st Hinv Hn Hfe) as [Hinv1 _].
  { unfold sound_stats, st. simpl. apply finite_add; [|done].
    pose proof (ok_unsolved _ _ _ (Hinv n nd Hn) Hfe) as [_ Hsound].
    unfold sound_stats in Hsound. by rewrite Hstats in Hsound. }
  assert (rollout_tree s1) as Htree1.
  { apply rollout_tree_insert; [done|]. eexists _, _. split; [done|].
    intros _. exists (z + b)%Z. split; [lia|apply of_Z_add]. }
  assert (grows s s1) as Hgrows1.
  { apply (grows_insert s n nd); try done. intros _. left.
    unfold pending, count_expansions, st. simpl. rewrite Hfe. simpl.
    rewrite of_Z_add, of_Z_eqb. by rewrite bool_decide_eq_false_2 by lia. }
  destruct (IH s1 (parent nd) total Hinv1 Htree1) as (s' & Htree' & Hgrows' & Hrun);
    [|done| |].
  { eapply unsolved_chain_same_flags; [|exact Hrest].
    by apply same_flags_set_stats. }
  { intros p Hp. specialize (Hbound n eq_refl).
    pose proof (ok_parent _ _ _ (Hinv n nd Hn) p Hp). lia. }
  exists s'. split; [done|]. split; [by eapply grows_trans|].
  intros [|fuel] Hfuel; [lia|]. simpl.
  rewrite (proj2 (get_Ok _ _ _) Hn). simpl. rewrite Hstats.
  apply Hrun. lia.
Qed.

(** The loop of a driver over a rollout tree returns, for every number of
    iterations that the time limit allows; after one iteration at least,
    a root that was visited before has its children. *)
Lemma search_loop_returns batches :
  ∀ s root,
  search_inv s → rollout_tree s →
  (∀ nd, s !! root = Some nd → parent nd = None) →
  is_Some (s !! root) →
  Forall (Forall finite) batches →
  ∃ s' fuel0,
    rollout_tree s' ∧ grows s s'
    ∧ (batches ≠ [] → (∀ nd, s !! root = Some nd → pending nd = true) →
       ∃ nd', s' !! root = Some nd' ∧ is_Some (children nd'))
    ∧ ∀ fuel, (fuel0 ≤ fuel)%nat →
        search_loop exploration d network_call rollout_batch_size fuel
          batches s root = Ok s'.
Proof.
  induction batches as [|rollouts batches IH];
    intros s root Hinv Htree Hroot [root0 Hroot0] Hfin.
  { exists s, 0%nat. split; [done|]. split; [apply grows_refl|]. by split. }
  apply Forall_cons in Hfin as [Hrollouts Hfin].
  destruct (selection_returns (selection_measure s root) s root (le_n _)
              Hinv Htree)
    as (s1 & r & Htree1 & Hgrows1 & Hexpanded & Hrun1); [by eexists|].
  set (n := selection_measure s root) in *.
  pose proof (Hrun1 (S n) (Nat.lt_succ_diag_r n)) as Hrun.
  destruct (selection_sound exploration d network_call network_call_length
              network_call_finite exploration_not_nan d_finite _ _ _ _ _
              Hinv ltac:(by intros self ->%Hroot; constructor) Hrun)
    as [Hinv1 Hchain1].
  pose proof (choose_expansion_node_evolves _ _ _ _ _ _ _ _ Hrun) as Hev1.
  assert (∀ s', grows s1 s' →
            (∀ nd, s !! root = Some nd → pending nd = true) →
            ∃ nd', s' !! root = Some nd' ∧ is_Some (children nd'))
    as Hchildren.
  { intros s' Hgrows' Hpending.
    destruct (Hexpanded root0 Hroot0 (Hpending root0 Hroot0))
      as (nd1 & Hnd1 & Hcs1).
    destruct (Hgrows' root nd1 Hnd1) as (nd' & Hnd' & Hcs' & _).
    exists nd'. auto. }
  destruct r as [t|].
  - (* the expansion of the node selected *)
    specialize (Hchain1 t eq_refl).
    assert (∃ nd, s1 !! t = Some nd) as [nd Ht].
    { inversion Hchain1; by eexists. }
    destruct (Htree1 t nd Ht) as (rs & rc & Hstats & _).
    destruct (rollout_backup_returns (S t) s1 (Some t) (num_sum rollouts)
                Hinv1 Htree1 Hchain1)
      as (s2 & Htree2 & Hgrows2 & Hrun2).
    { by apply finite_sum. }
    { intros ? [= <-]. lia. }
    destruct (rollout_backup_sound rollout_batch_size (S t) s1 (Some t)
                (num_sum rollouts) s2 Hinv1 Hchain1) as [Hinv2 Hev2].
    { by apply finite_sum. }
    { by apply Hrun2. }
    destruct (Hev1 root root0 Hroot0) as (root1 & Hroot1 & _ & Hpar1 & _).
    destruct (Hev2 root root1 Hroot1) as (root2 & Hroot2 & _ & Hpar2 & _).
    destruct (IH s2 root Hinv2 Htree2) as (s' & fuel1 & Htree' & Hgrows' & _ & Hrun');
      [|by eexists|done|].
    { intros nd2 Hnd2. assert (nd2 = root2) as -> by congruence.
      rewrite Hpar2, Hpar1. by apply Hroot. }
    exists s', (S n + S t + fuel1)%nat. split; [done|].
    split; [eapply grows_trans; [exact Hgrows1|by eapply grows_trans]|].
    split.
    { intros _. apply Hchildren. by eapply grows_trans. }
    intros fuel Hfuel. simpl. rewrite Hrun1 by lia. simpl.
    unfold expand. rewrite (proj2 (get_Ok _ _ _) Ht). simpl. rewrite Hstats.
    unfold RolloutNode_expand. rewrite Hrun2 by lia. simpl.
    apply Hrun'. lia.
  - (* the tree is solved *)
    exists s1, (S n). split; [done|]. split; [done|]. split.
    { intros _. apply Hchildren. apply grows_refl. }
    intros fuel Hfuel. simpl. by rewrite Hrun1 by lia.
Qed.

Lemma search_loop_cons fuel rollouts batches s root :
  search_loop exploration d network_call rollout_batch_size fuel
    (rollouts :: batches) s root
  = '(s, best_node) ← choose_expansion_node exploration d network_call fuel
                         s root;
    match best_node with
    | None => Ok s
    | Some best_node =>
        s ← expand network_call rollout_batch_size fuel s best_node rollouts
              None None;
        search_loop exploration d network_call rollout_batch_size fuel
          batches s root
    end.
Proof. done. Qed.

(** At a visited node with children that is not solved,
    [choose_best_node] returns one of the children. *)
Lemma choose_best_node_unsolved fuel s k self cs :
  search_inv s → s !! k = Some self → pending self = true →
  is_rollout self → children self = Some cs →
  ∃ best distribution child,
    choose_best_node np_exp fuel s k = Ok (best, distribution)
    ∧ best ∈ cs ∧ s !! best = Some child.
Proof.
  intros Hinv Hk Hpending (rs & rc & Hstats & _) Hcs.
  unfold pending, count_expansions in Hpending. rewrite Hstats in Hpending.
  apply andb_true_iff in Hpending as [Hfe Hcount].
  apply negb_true_iff in Hfe, Hcount.
  pose proof (Hinv k self Hk) as Hok.
  pose proof (ok_children _ _ _ Hok cs Hcs) as Hchildren.
  assert (Forall (λ c, is_Some (s !! c)) cs) as Hin.
  { apply Forall_forall. intros c [i Hi]%list_elem_of_lookup.
    destruct (Forall2_lookup_l _ _ _ _ _ Hchildren Hi)
      as (move & _ & child & Hc & _). by exists child. }
  assert (get_evaluation self = Ok (np_div rs rc)) as Hev.
  { unfold get_evaluation, py_div. by rewrite Hstats, Hfe, Hcount. }
  destruct (unsolved_weights_spec s self cs _ Hev Hin) as (ws & Hws & Hspec).
  apply Forall2_length in Hspec, Hchildren.
  pose proof (moves_exist (position_of self)
                (proj1 (ok_unsolved _ _ _ Hok Hfe))) as Hmoves.
  destruct (argmax_bound (normalize ws)) as (idx & Hidx & Hlt).
  { unfold normalize. destruct ws; [|done].
    destruct (get_possible_moves (position_of self)); [done|].
    simpl in *. lia. }
  unfold normalize in Hlt. rewrite length_fmap, <- Hspec in Hlt.
  destruct (lookup_lt_is_Some_2 cs idx Hlt) as [best Hbest].
  destruct (proj1 (Forall_forall _ _) Hin best) as [child Hchild].
  { by eapply list_elem_of_lookup_2. }
  exists best, (normalize ws), child.
  split; [|split; [by eapply list_elem_of_lookup_2|done]].
  unfold choose_best_node, weights.
  rewrite (proj2 (get_Ok _ _ _) Hk). simpl. rewrite Hcs, Hfe. simpl.
  rewrite Hws. simpl. rewrite Hidx. simpl. unfold index. by rewrite Hbest.
Qed.

(** [MCTS.choose_move] with playouts returns a possible move of the
    position, when the time limit allows two iterations of the search:
    nothing is raised on the way, and the recursion of the selection
    ends. *)
Theorem rollout_search_returns batches p :
  is_over p = false →
  Forall (Forall finite) batches →
  (2 ≤ length batches)%nat →
  ∃ fuel0, ∀ fuel, (fuel0 ≤ fuel)%nat →
    ∃ q, MCTS_choose_move exploration d network_call rollout_batch_size
           np_exp false fuel batches p = Ok q
         ∧ q ∈ get_possible_moves p.
Proof.
  intros Hp Hfin Hlen.
  destruct batches as [|rollouts batches]; [simpl in Hlen; lia|].
  apply Forall_cons in Hfin as [Hrollouts Hfin].
  destruct batch_size_positive as (b & Hb & Hbatch).
  set (root0 := RolloutNode p None).
  set (root1 := set_stats (RolloutStats (num_add (of_Z 0) (num_sum rollouts))
                             (num_add (of_Z 0) rollout_batch_size)) root0).
  (* the first iteration expands the root *)
  assert (∀ fuel, (1 ≤ fuel)%nat →
            search_loop exploration d network_call rollout_batch_size fuel
              (rollouts :: batches) [root0] 0
            = search_loop exploration d network_call rollout_batch_size fuel
                batches [root1] 0) as Hfirst.
  { intros [|fuel] Hfuel; [lia|].
    assert (choose_expansion_node exploration d network_call (S fuel)
              [root0] 0 = Ok ([root0], Some 0%nat)) as Hselect.
    { simpl. unfold count_expansions, root0, RolloutNode. rewrite Hp. simpl.
      done. }
    assert (expand network_call rollout_batch_size (S fuel) [root0] 0
              rollouts None None = Ok [root1]) as Hexpand.
    { unfold expand. simpl. rewrite Hp. simpl.
      unfold RolloutNode_expand. simpl. rewrite Hp. simpl.
      by destruct fuel. }
    rewrite search_loop_cons, Hselect. simpl. by rewrite Hexpand. }
  assert (root1 = Node p None None false (is_player_1_turn p)
                    (RolloutStats (num_add (of_Z 0) (num_sum rollouts))
                       (of_Z (0 + b)))) as Hroot1.
  { unfold root1, root0, RolloutNode, set_stats. rewrite Hp, Hbatch. simpl.
    by rewrite of_Z_add. }
  assert (search_inv [root1]) as Hinv1.
  { apply (search_inv_set_stats [root0] 0 root0).
    - apply search_inv_rollout_root.
    - done.
    - unfold root0, RolloutNode. by rewrite Hp.
    - unfold sound_stats. simpl. apply finite_add; [apply finite_of_Z|].
      by apply finite_sum. }
  assert (rollout_tree [root1]) as Htree1.
  { intros [|x] nd; [|done]. intros [= <-]. rewrite Hroot1.
    eexists _, _. split; [done|]. intros _. exists (0 + b)%Z. split; [lia|done]. }
  assert (pending root1 = true) as Hpending1.
  { rewrite Hroot1. unfold pending, count_expansions. simpl.
    rewrite of_Z_eqb. by rewrite bool_decide_eq_false_2 by lia. }
  assert (∀ nd, [root1] !! 0%nat = Some nd → parent nd = None) as Hparent.
  { intros nd [= <-]. by rewrite Hroot1. }
  assert (batches ≠ []) as Hmore.
  { destruct batches; [simpl in Hlen; lia|done]. }
  destruct (search_loop_returns batches [root1] 0 Hinv1 Htree1 Hparent
              ltac:(by eexists) Hfin)
    as (s & fuel1 & Htree & Hgrows & Hchildren & Hrun).
  destruct (Hchildren Hmore) as (root & Hroot & cs & Hcs).
  { by intros nd [= <-]. }
  pose proof (Hrun fuel1 (le_n _)) as Hrun1.
  destruct (search_loop_sound _ _ _ _ get_winner_three_valued
              network_call_length network_call_finite exploration_not_nan
              d_finite _ _ _ _ _ Hinv1 Hparent Hfin Hrun1) as [Hinv Hev].
  assert (proof_tree s) as Hproof.
  { eapply (search_loop_keeps_proofs _ _ _ _ get_winner_three_valued
              network_call_length network_call_finite exploration_not_nan
              d_finite _ _ _ _ _ Hinv1); [|exact Hparent|exact Hfin|exact Hrun1].
    intros [|x] nd; [|done]. intros [= <-]. by rewrite Hroot1. }
  destruct (Hev 0%nat root1 eq_refl) as (root' & Hroot' & Hpos & _).
  assert (root' = root) as -> by congruence.
  assert (position_of root = p) as Hposition by (by rewrite Hpos, Hroot1).
  (* the choice at the root *)
  assert (∃ fuel2, ∀ fuel, (fuel2 ≤ fuel)%nat →
            ∃ best distribution child,
              choose_best_node np_exp fuel s 0 = Ok (best, distribution)
              ∧ best ∈ cs ∧ s !! best = Some child) as [fuel2 Hbest].
  { destruct (fully_expanded root) eqn:Hfe.
    - exists (length s). intros fuel Hfuel.
      destruct (choose_best_node_solved np_exp get_winner_three_valued
                  np_exp_positive fuel s 0 root cs Hinv Hproof Hroot Hfe Hcs
                  Hfuel) as (best & dist & child & Hbest & Hin & Hchild & _).
      by exists best, dist, child.
    - exists 0%nat. intros fuel _.
      apply (choose_best_node_unsolved fuel s 0 root cs); try done.
      + destruct (Hgrows 0%nat root1 eq_refl)
          as (root2 & Hroot2 & _ & _ & Hpending2).
        assert (root2 = root) as -> by congruence.
        destruct (Hpending2 Hpending1); [done|congruence].
      + by eapply Htree. }
  exists (1 + fuel1 + fuel2)%nat. intros fuel Hfuel.
  destruct (Hbest fuel ltac:(lia)) as (best & dist & child & Hchoice & Hin & Hchild).
  exists (position_of child). split.
  - assert (search_loop exploration d network_call rollout_batch_size fuel
              (rollouts :: batches) [root0] 0 = Ok s) as Hloop.
    { rewrite Hfirst by lia. apply Hrun. lia. }
    revert Hloop. generalize (rollouts :: batches). intros all Hloop.
    unfold MCTS_choose_move. rewrite Hp. simpl. fold root0. rewrite Hloop.
    simpl. rewrite Hchoice. simpl. by rewrite (proj2 (get_Ok _ _ _) Hchild).
  - rewrite <- Hposition.
    by apply (child_parent s 0 root cs best child (Hinv _ _ Hroot) Hcs Hin).
Qed.

End RolloutSearchReturns.

Lemma rollout_search_returns_witness :
  ∃ fuel0, ∀ fuel, (fuel0 ≤ fuel)%nat →
    ∃ q, MCTS_choose_move flat_exploration (of_Z 1) blind_network (of_Z 1)
           rational_exp false fuel [[of_Z 1]; [of_Z (-1)]; []] (2%nat, true)
         = Ok q
         ∧ q ∈ get_possible_moves (2%nat, true).
Proof.
  apply (rollout_search_returns flat_exploration (of_Z 1) blind_network
           (of_Z 1) rational_exp pile_winner_three_valued
           blind_network_length blind_network_finite (λ _ _, eq_refl)
           (finite_of_Z 1) pile_moves_exist
           (ex_intro _ 1%Z (conj (Z.le_refl 1) eq_refl))
           rational_exp_positive
           [[of_Z 1]; [of_Z (-1)]; []] (2%nat, true)).
  - reflexivity.
  - repeat constructor; apply finite_of_Z.
  - simpl. lia.
Defined.
